(** * Turn-taking thread programs of 01_LSP/Class/06_Thread

    Shallow embedding of the pthread programs
      - 09_Print_Odd_even.c        (mutex + condition variable, odd/even),
      - 10_Print_Odd_even.c        (mutex only, polling),
      - 11_ABCDabcdWiteFile.c      (mutex around each whole loop, letters),
      - 12_ABCDabcdWiteFileSync.c  (mutex + condition variable, letters),
      - the start-up of [main] in 09, 11 and 12,
    as interleaving transition systems: one control point per thread, the
    shared variables, the mutex owner, and a log of what was printed. A
    scheduling decision runs one statement of main or of one thread;
    [pthread_mutex_lock] can be run only when the mutex is free, a thread
    inside [pthread_cond_wait] runs again only after a wake-up.

    The register loop of 03_EmbeddedC/01_LED&Switch.c is embedded as a
    function on the values of its memory-mapped registers. *)

From Stdlib Require Import ZArith Lia.
From stdpp Require Import base decidable option list numbers strings.

Local Open Scope Z_scope.

(** ** C [int] arithmetic *)

Definition INT_MAX : Z := 2147483647.

(** Two's complement wrap-around of a 32-bit [int]. *)
Definition wrap_int (z : Z) : Z := (z + 2 ^ 31) `mod` 2 ^ 32 - 2 ^ 31.

(** [#define MAX 100] *)
Definition MAX : Z := 100.

Lemma wrap_int_small z : - 2 ^ 31 ≤ z ≤ INT_MAX → wrap_int z = z.
Proof.
  unfold wrap_int, INT_MAX. intros Hz.
  rewrite Z.mod_small; lia.
Qed.

(** ** The condition-variable program (09_Print_Odd_even.c) *)

Module CV.

(** Which wake-up primitive the thread body calls after its step. The
    source calls [pthread_cond_signal] ([Signal], which unblocks one of the
    blocked threads). [Broadcast] is the notify-all of the specification
    (every blocked thread is unblocked); no source file calls it. *)
Inductive notify := Signal | Broadcast.

#[global] Instance notify_eq_dec : EqDecision notify.
Proof. solve_decision. Defined.

(** Control points of one thread body ([print_odd] / [print_even]); the line
    numbers are those of [print_odd]. *)
Inductive loc :=
| L_unborn   (* pthread_create has not been called for this thread *)
| L_lock     (* l.15  pthread_mutex_lock(&lock) *)
| L_guard    (* l.17  while (!is_odd_turn && counter <= MAX) *)
| L_wait     (* l.18  blocked inside pthread_cond_wait, lock released *)
| L_woken    (* l.18  unblocked, pthread_cond_wait re-acquires the lock *)
| L_limit    (* l.20  if (counter > MAX) *)
| L_print    (* l.25  printf *)
| L_incr     (* l.26  counter++ *)
| L_turn     (* l.27  is_odd_turn = false *)
| L_notify   (* l.29  pthread_cond_signal(&cond) *)
| L_unlock   (* l.30  pthread_mutex_unlock(&lock) *)
| L_done.    (* l.32  return NULL *)

#[global] Instance loc_eq_dec : EqDecision loc.
Proof. solve_decision. Defined.

(** Control points of [main]: the [pthread_create] calls, the [pthread_join]
    calls, and the return. *)
Inductive mloc :=
| M_create (k : nat)
| M_join (k : nat)
| M_exit.

#[global] Instance mloc_eq_dec : EqDecision mloc.
Proof. solve_decision. Defined.

Record state := mkState {
  counter : Z;                   (* int counter = 1 *)
  owner   : nat;                 (* bool is_odd_turn = true: role 0 owns the turn *)
  lock    : option nat;          (* pthread_mutex_t lock: the thread holding it *)
  pcs     : list loc;            (* control point of each thread *)
  mpc     : mloc;                (* control point of main *)
  out     : list (nat * Z);      (* printed lines: (role, value) *)
  notes   : list (notify * Z);   (* wake-up calls issued: (primitive, counter) *)
}.

(** [is_odd_turn] of the source, read off the role that owns the turn. *)
Definition is_odd_turn (s : state) : bool := Nat.eqb (owner s) 0.

Definition set_pc (i : nat) (l : loc) (s : state) : state :=
  mkState (counter s) (owner s) (lock s) (<[i:=l]> (pcs s)) (mpc s) (out s) (notes s).
Definition set_lock (m : option nat) (s : state) : state :=
  mkState (counter s) (owner s) m (pcs s) (mpc s) (out s) (notes s).
Definition set_counter (c : Z) (s : state) : state :=
  mkState c (owner s) (lock s) (pcs s) (mpc s) (out s) (notes s).
Definition set_owner (o : nat) (s : state) : state :=
  mkState (counter s) o (lock s) (pcs s) (mpc s) (out s) (notes s).
Definition set_mpc (m : mloc) (s : state) : state :=
  mkState (counter s) (owner s) (lock s) (pcs s) m (out s) (notes s).
Definition emit (e : nat * Z) (s : state) : state :=
  mkState (counter s) (owner s) (lock s) (pcs s) (mpc s) (out s ++ [e]) (notes s).
Definition note (e : notify * Z) (s : state) : state :=
  mkState (counter s) (owner s) (lock s) (pcs s) (mpc s) (out s) (notes s ++ [e]).
Definition set_pcs (p : list loc) (s : state) : state :=
  mkState (counter s) (owner s) (lock s) p (mpc s) (out s) (notes s).

(** [pthread_cond_broadcast]: every thread blocked on the condition variable
    is unblocked. *)
Definition wake (l : loc) : loc :=
  match l with L_wait => L_woken | _ => l end.

(** One scheduling decision. *)
Inductive action :=
| Main                 (* main runs its next statement *)
| Run (i : nat)        (* thread i runs its next statement *)
| Wake (i w : nat)     (* thread i is at its pthread_cond_signal, which unblocks w *)
| Spurious (i : nat).  (* pthread_cond_wait of thread i wakes up spuriously *)

Section Scheduler.

(** The number of threads, the limit of the counter and the wake-up
    primitive of the thread body. The source is [N] = 2, [limit] = [MAX],
    [kind] = [Signal]: role 0 is [print_odd], role 1 is [print_even], and
    [is_odd_turn] is true when role 0 owns the turn. For other [N] the body
    of role [i] is the same text with the turn handed to role
    [(i + 1) mod N], as the specification generalises it. *)
Variable N : nat.
Variable limit : Z.
Variable kind : notify.

Definition init : state :=
  mkState 1 0%nat None (replicate N L_unborn) (M_create 0) [] [].

(** [main]: create the threads in order, join them in order, return (the
    closing [printf] of main belongs to the step into [M_exit]; [out] logs
    the lines of the threads only). *)
Definition main_step (s : state) : option state :=
  match mpc s with
  | M_create k =>
      if decide (k < N)%nat then
        Some (set_mpc (if decide (S k < N)%nat then M_create (S k) else M_join 0)
                      (set_pc k L_lock s))
      else None
  | M_join k =>
      match pcs s !! k with
      | Some L_done =>
          Some (set_mpc (if decide (S k < N)%nat then M_join (S k) else M_exit) s)
      | _ => None
      end
  | M_exit => None
  end.

(** The next statement of the thread with role [i]. [pthread_mutex_lock]
    and the return from [pthread_cond_wait] need the lock to be free. With
    [Signal] and some thread blocked, the wake-up call is [wake_step], which
    names the thread it unblocks; with nobody blocked the call has no
    effect. Every call is logged in [notes]. *)
Definition thread_step (i : nat) (s : state) : option state :=
  match pcs s !! i with
  | Some L_lock | Some L_woken =>
      match lock s with
      | None => Some (set_pc i L_guard (set_lock (Some i) s))
      | Some _ => None
      end
  | Some L_guard =>
      if negb (Nat.eqb (owner s) i) && (counter s <=? limit)
      then Some (set_pc i L_wait (set_lock None s))
      else Some (set_pc i L_limit s)
  | Some L_limit =>
      if limit <? counter s
      then Some (set_pc i L_done (set_lock None s))
      else Some (set_pc i L_print s)
  | Some L_print => Some (set_pc i L_incr (emit (i, counter s) s))
  | Some L_incr => Some (set_pc i L_turn (set_counter (wrap_int (counter s + 1)) s))
  | Some L_turn => Some (set_pc i L_notify (set_owner ((i + 1) `mod` N)%nat s))
  | Some L_notify =>
      match kind with
      | Broadcast =>
          Some (set_pc i L_unlock (set_pcs (wake <$> pcs s) (note (Broadcast, counter s) s)))
      | Signal =>
          if decide (L_wait ∈ pcs s) then None
          else Some (set_pc i L_unlock (note (Signal, counter s) s))
      end
  | Some L_unlock => Some (set_pc i L_lock (set_lock None s))
  | _ => None
  end.

(** [pthread_cond_signal] of thread [i] with a thread [w] blocked on the
    condition variable: [w] is unblocked. *)
Definition wake_step (i w : nat) (s : state) : option state :=
  match kind, pcs s !! i, pcs s !! w with
  | Signal, Some L_notify, Some L_wait =>
      Some (set_pc i L_unlock (set_pc w L_woken (note (Signal, counter s) s)))
  | _, _, _ => None
  end.

Definition spurious_step (i : nat) (s : state) : option state :=
  match pcs s !! i with
  | Some L_wait => Some (set_pc i L_woken s)
  | _ => None
  end.

Definition exec (a : action) (s : state) : option state :=
  match a with
  | Main => main_step s
  | Run i => thread_step i s
  | Wake i w => wake_step i w s
  | Spurious i => spurious_step i s
  end.

(** Running a schedule, statement by statement. *)
Fixpoint run (sch : list action) (s : state) : option state :=
  match sch with
  | [] => Some s
  | a :: sch' => match exec a s with Some s' => run sch' s' | None => None end
  end.

Definition step (s s' : state) : Prop := ∃ a, exec a s = Some s'.

Inductive reachable : state → Prop :=
| reach_init : reachable init
| reach_step s s' : reachable s → step s s' → reachable s'.

(** Every thread has returned and main has joined them all. *)
Definition final (s : state) : Prop :=
  mpc s = M_exit ∧ ∀ i, (i < N)%nat → pcs s !! i = Some L_done.

(** The round-robin sequence: entry [k] is (role [k mod N], value [k+1]). *)
Definition round_robin (n : nat) : list (nat * Z) :=
  (λ k, ((k `mod` N)%nat, Z.of_nat k + 1)) <$> seq 0 n.

(** *** Invariants of the reachable states *)

(** Control points between [pthread_mutex_lock] and [pthread_mutex_unlock]
    (a thread blocked in [pthread_cond_wait] does not hold the lock). *)
Definition crit (l : loc) : bool :=
  match l with
  | L_guard | L_limit | L_print | L_incr | L_turn | L_notify | L_unlock => true
  | _ => false
  end.

(** Control point of the thread that holds the lock ([L_lock] when free). *)
Definition hloc (s : state) : loc :=
  match lock s with
  | Some i => default L_lock (pcs s !! i)
  | None => L_lock
  end.

(** Steps whose whole update of the shared variables is visible. *)
Definition done_steps (s : state) : nat := Z.to_nat (counter s - 1).

(** How [counter], [is_odd_turn] and the printed lines are related, by the
    control point of the thread inside the critical section. *)
Definition phase (s : state) : Prop :=
  match hloc s with
  | L_limit =>
      (lock s = Some (owner s) ∨ limit < counter s) ∧
      owner s = (done_steps s `mod` N)%nat ∧ out s = round_robin (done_steps s)
  | L_print =>
      lock s = Some (owner s) ∧ counter s ≤ limit ∧
      owner s = (done_steps s `mod` N)%nat ∧ out s = round_robin (done_steps s)
  | L_incr =>
      lock s = Some (owner s) ∧ counter s ≤ limit ∧
      owner s = (done_steps s `mod` N)%nat ∧ out s = round_robin (S (done_steps s))
  | L_turn =>
      lock s = Some (owner s) ∧ 2 ≤ counter s ∧
      owner s = ((done_steps s - 1) `mod` N)%nat ∧ out s = round_robin (done_steps s)
  | L_notify =>
      2 ≤ counter s ∧
      owner s = (done_steps s `mod` N)%nat ∧ out s = round_robin (done_steps s)
  | _ =>
      owner s = (done_steps s `mod` N)%nat ∧ out s = round_robin (done_steps s)
  end.

(** The wake-up calls issued so far: one per completed step, each carrying
    the value of [counter] it was issued at. *)
Definition note_log (n : nat) : list (notify * Z) :=
  (λ k, (kind, Z.of_nat k + 2)) <$> seq 0 n.

Definition notified (s : state) : nat :=
  match hloc s with
  | L_turn | L_notify => (done_steps s - 1)%nat
  | _ => done_steps s
  end.

Definition main_ok (s : state) : Prop :=
  match mpc s with
  | M_create k =>
      (k < N)%nat ∧ ∀ j l, pcs s !! j = Some l → (l = L_unborn ↔ (k ≤ j)%nat)
  | M_join k =>
      (k < N)%nat ∧ (∀ j, pcs s !! j ≠ Some L_unborn) ∧
      ∀ j, (j < k)%nat → pcs s !! j = Some L_done
  | M_exit => ∀ j, (j < N)%nat → pcs s !! j = Some L_done
  end.

Record Inv (s : state) : Prop := {
  inv_len   : length (pcs s) = N;
  inv_owner : (owner s < N)%nat;
  inv_crit  : ∀ i l, pcs s !! i = Some l → crit l = true → lock s = Some i;
  inv_held  : ∀ i, lock s = Some i → ∃ l, pcs s !! i = Some l ∧ crit l = true;
  inv_range : 1 ≤ counter s ≤ limit + 1;
  inv_phase : phase s;
  inv_done  : ∀ i, pcs s !! i = Some L_done → limit < counter s;
  inv_main  : main_ok s;
  inv_notes : notes s = note_log (notified s);
}.

(** *** Progress *)

(** A scheduling decision other than a spurious wake-up. *)
Definition proper (a : action) : bool :=
  match a with Spurious _ => false | _ => true end.

(** A thread blocked in [pthread_cond_wait] still has its wait condition
    true, except between the update of the shared variables and the wake-up
    call that follows it. *)
Definition Live (s : state) : Prop :=
  match hloc s with
  | L_turn => ∀ w, pcs s !! w = Some L_wait → owner s ≠ w
  | L_notify => True
  | _ => ∀ w, pcs s !! w = Some L_wait → owner s ≠ w ∧ counter s ≤ limit
  end.

(** Statements a thread can still run from a control point before the next
    [counter++], counting the threads its wake-up call unblocks. *)
Definition weight (l : loc) : nat :=
  match l with
  | L_unborn => 5
  | L_lock => 4
  | L_woken => 4
  | L_guard => 3
  | L_wait => 2
  | L_limit => 2
  | L_print => 1
  | L_incr => 0
  | L_turn => 2 * N + 8
  | L_notify => 2 * N + 7
  | L_unlock => 5
  | L_done => 0
  end.

Definition mweight (m : mloc) : nat :=
  match m with
  | M_create k => 2 * N + 2 - k
  | M_join k => N + 1 - k
  | M_exit => 0
  end.

(** Bound on the number of statements still to run. *)
Definition potential (s : state) : nat :=
  (2 * N + 9) * Z.to_nat (limit + 1 - counter s)
  + sum_list (weight <$> pcs s) + mweight (mpc s).

(** A schedule without spurious wake-ups. *)
Definition proper_schedule (sch : list action) : Prop :=
  Forall (λ a, proper a = true) sch.

(** *** A scheduling policy, to exhibit runs *)

(** The decisions a scheduler can take, main first, then the threads in
    order. *)
Definition candidates : list action :=
  Main :: (Run <$> seq 0 N)
       ++ (i ← seq 0 N; Wake i <$> seq 0 N).

Definition first_enabled (s : state) : option action :=
  list_find (λ a, is_Some (exec a s)) candidates ≫= λ '(_, a), Some a.

(** Run the first enabled statement, at most [fuel] times. *)
Fixpoint drive (fuel : nat) (s : state) : list action * state :=
  match fuel with
  | O => ([], s)
  | S fuel' =>
      match first_enabled s with
      | Some a =>
          match exec a s with
          | Some s' => let '(sch, sf) := drive fuel' s' in (a :: sch, sf)
          | None => ([], s)
          end
      | None => ([], s)
      end
  end.

(** The wake-up calls issued when [counter] had just passed the limit. *)
Definition terminal_notes (s : state) : list (notify * Z) :=
  filter (λ e, snd e = limit + 1) (notes s).

(** Statements of a schedule that set [counter] to [limit + 1]. *)
Fixpoint terminal_hits (sch : list action) (s : state) : nat :=
  match sch with
  | [] => 0%nat
  | a :: sch' =>
      match exec a s with
      | Some s' =>
          let hit := bool_decide (counter s ≠ limit + 1 ∧ counter s' = limit + 1) in
          ((if hit then 1 else 0) + terminal_hits sch' s')%nat
      | None => 0%nat
      end
  end.

(** Thread [i], evaluating its two conditions in state [s], gets past the
    wait loop (l.17) and past the limit check (l.20), to its [printf]. *)
Definition acts (i : nat) (s : state) : bool :=
  negb (negb (Nat.eqb (owner s) i) && (counter s <=? limit))
  && negb (limit <? counter s).

(** Decisions that are not statements of thread [i]. *)
Definition other_than (i : nat) (a : action) : Prop :=
  match a with
  | Run j => j ≠ i
  | Wake j _ => j ≠ i
  | _ => True
  end.

End Scheduler.

(** The source program: two threads, [MAX] = 100, [pthread_cond_signal];
    its run under the policy above. *)
Definition demo : list action * state := drive 2 MAX Signal 2000 (init 2).

(** The wake-up discipline as the specification words it: when all threads
    have returned, exactly one wake-up call was issued at the transition to
    [counter = limit + 1], and it was a notify-all. *)
Definition notify_all_on_terminal (N : nat) (limit : Z) (kind : notify) : Prop :=
  ∀ s, reachable N limit kind s → final N s →
       terminal_notes limit s = [(Broadcast, limit + 1)].

(** Another run of the source program: the first thread prints 1 before the
    second thread is created, blocks, and suffers a spurious wake-up; the
    policy takes over from there. *)
Definition early_schedule : list action :=
  [Main; Run 0; Run 0; Run 0; Run 0; Run 0; Run 0; Run 0; Run 0; Run 0; Run 0;
   Spurious 0; Run 0; Run 0; Main]%nat.

Definition demo_early : state :=
  match run 2 MAX Signal early_schedule (init 2) with
  | Some s => snd (drive 2 MAX Signal 2000 s)
  | None => init 2
  end.

(** Three roles with [pthread_cond_signal]: the call of role 0 wakes role 2
    instead of role 1, role 2 finds the turn is not its own and blocks
    again, and nobody is left to wake role 1. *)
Definition stray_wakeup : list action :=
  [Main; Main; Main; Run 1; Run 1; Run 2; Run 2;
   Run 0; Run 0; Run 0; Run 0; Run 0; Run 0; Wake 0 2; Run 0;
   Run 0; Run 0; Run 2; Run 2]%nat.

End CV.

(** ** Printed lines *)

(** ["Odd Thread: %d\n"] and ["Even Thread: %d\n"]: the label and the number. *)
Inductive tag := Odd | Even.

#[global] Instance tag_eq_dec : EqDecision tag.
Proof. solve_decision. Defined.

Definition line : Type := tag * Z.

(** [print_odd] is role 0 and [print_even] is role 1. *)
Definition cv_line (e : nat * Z) : line :=
  (if Nat.eqb (fst e) 0 then Odd else Even, snd e).

(** The lines 1 .. n, each with the label of its parity. *)
Definition expected_lines (n : nat) : list line :=
  (λ k, (if Nat.even k then Odd else Even, Z.of_nat k + 1)) <$> seq 0 n.

(** ** The polling program (10_Print_Odd_even.c) *)

Module BS.

(** Control points of [print_numbers]. *)
Inductive loc :=
| B_unborn   (* pthread_create has not been called for this thread *)
| B_lock     (* l.13  pthread_mutex_lock(&lock) *)
| B_limit    (* l.15  if (counter > MAX) *)
| B_parity   (* l.20  if ((counter % 2 == 1 && is_odd) || ...) *)
| B_print    (* l.21  printf *)
| B_incr     (* l.22  counter++ *)
| B_unlock   (* l.25  pthread_mutex_unlock(&lock) *)
| B_done.    (* l.28  return NULL *)

#[global] Instance loc_eq_dec : EqDecision loc.
Proof. solve_decision. Defined.

Inductive mloc :=
| M_create (k : nat)
| M_join (k : nat)
| M_exit.

Record state := mkState {
  counter : Z;               (* int counter = 1 *)
  lock    : option nat;      (* pthread_mutex_t lock: the thread holding it *)
  pcs     : list loc;        (* control point of each thread *)
  mpc     : mloc;            (* control point of main *)
  out     : list line;       (* printed lines *)
}.

Definition set_pc (i : nat) (l : loc) (s : state) : state :=
  mkState (counter s) (lock s) (<[i:=l]> (pcs s)) (mpc s) (out s).
Definition set_lock (m : option nat) (s : state) : state :=
  mkState (counter s) m (pcs s) (mpc s) (out s).
Definition set_counter (c : Z) (s : state) : state :=
  mkState c (lock s) (pcs s) (mpc s) (out s).
Definition set_mpc (m : mloc) (s : state) : state :=
  mkState (counter s) (lock s) (pcs s) m (out s).
Definition emit (e : line) (s : state) : state :=
  mkState (counter s) (lock s) (pcs s) (mpc s) (out s ++ [e]).

(** [int odd = 1, even = 0;] in main: thread 0 is started on [&odd] and
    thread 1 on [&even]; [is_odd] is the thread's copy of its argument. *)
Definition is_odd (i : nat) : Z :=
  match i with O => 1 | _ => 0 end.

(** C truth value of an [int]. *)
Definition truthy (z : Z) : bool := negb (z =? 0).

Inductive action :=
| Main
| Run (i : nat).

Section Polling.

Variable limit : Z.   (* MAX *)

Definition init : state :=
  mkState 1 None [B_unborn; B_unborn] (M_create 0) [].

Definition main_step (s : state) : option state :=
  match mpc s with
  | M_create k =>
      if decide (k < 2)%nat then
        Some (set_mpc (if decide (S k < 2)%nat then M_create (S k) else M_join 0)
                      (set_pc k B_lock s))
      else None
  | M_join k =>
      match pcs s !! k with
      | Some B_done =>
          Some (set_mpc (if decide (S k < 2)%nat then M_join (S k) else M_exit) s)
      | _ => None
      end
  | M_exit => None
  end.

Definition thread_step (i : nat) (s : state) : option state :=
  match pcs s !! i with
  | Some B_lock =>
      match lock s with
      | None => Some (set_pc i B_limit (set_lock (Some i) s))
      | Some _ => None
      end
  | Some B_limit =>
      if limit <? counter s
      then Some (set_pc i B_done (set_lock None s))
      else Some (set_pc i B_parity s)
  | Some B_parity =>
      if (Z.rem (counter s) 2 =? 1) && truthy (is_odd i)
         || (Z.rem (counter s) 2 =? 0) && negb (truthy (is_odd i))
      then Some (set_pc i B_print s)
      else Some (set_pc i B_unlock s)
  | Some B_print =>
      Some (set_pc i B_incr
              (emit (if truthy (is_odd i) then Odd else Even, counter s) s))
  | Some B_incr => Some (set_pc i B_unlock (set_counter (wrap_int (counter s + 1)) s))
  | Some B_unlock => Some (set_pc i B_lock (set_lock None s))
  | _ => None
  end.

Definition exec (a : action) (s : state) : option state :=
  match a with
  | Main => main_step s
  | Run i => thread_step i s
  end.

Fixpoint run (sch : list action) (s : state) : option state :=
  match sch with
  | [] => Some s
  | a :: sch' => match exec a s with Some s' => run sch' s' | None => None end
  end.

Definition step (s s' : state) : Prop := ∃ a, exec a s = Some s'.

Inductive reachable : state → Prop :=
| reach_init : reachable init
| reach_step s s' : reachable s → step s s' → reachable s'.

Definition final (s : state) : Prop :=
  mpc s = M_exit ∧ ∀ i, (i < 2)%nat → pcs s !! i = Some B_done.

Definition crit (l : loc) : bool :=
  match l with
  | B_limit | B_parity | B_print | B_incr | B_unlock => true
  | _ => false
  end.

Definition hloc (s : state) : loc :=
  match lock s with
  | Some i => default B_lock (pcs s !! i)
  | None => B_lock
  end.

Definition done_steps (s : state) : nat := Z.to_nat (counter s - 1).

(** The thread whose parity the counter has. *)
Definition turn_of (s : state) : nat := (done_steps s `mod` 2)%nat.

Definition phase (s : state) : Prop :=
  match hloc s with
  | B_parity =>
      counter s ≤ limit ∧ out s = expected_lines (done_steps s)
  | B_print =>
      lock s = Some (turn_of s) ∧ counter s ≤ limit ∧
      out s = expected_lines (done_steps s)
  | B_incr =>
      lock s = Some (turn_of s) ∧ counter s ≤ limit ∧
      out s = expected_lines (S (done_steps s))
  | _ => out s = expected_lines (done_steps s)
  end.

Definition main_ok (s : state) : Prop :=
  match mpc s with
  | M_create k =>
      (k < 2)%nat ∧ ∀ j l, pcs s !! j = Some l → (l = B_unborn ↔ (k ≤ j)%nat)
  | M_join k =>
      (k < 2)%nat ∧ (∀ j, pcs s !! j ≠ Some B_unborn) ∧
      ∀ j, (j < k)%nat → pcs s !! j = Some B_done
  | M_exit => ∀ j, (j < 2)%nat → pcs s !! j = Some B_done
  end.

Record Inv (s : state) : Prop := {
  inv_len   : length (pcs s) = 2%nat;
  inv_crit  : ∀ i l, pcs s !! i = Some l → crit l = true → lock s = Some i;
  inv_held  : ∀ i, lock s = Some i → ∃ l, pcs s !! i = Some l ∧ crit l = true;
  inv_range : 1 ≤ counter s ≤ limit + 1;
  inv_phase : phase s;
  inv_done  : ∀ i, pcs s !! i = Some B_done → limit < counter s;
  inv_main  : main_ok s;
}.

(** Both threads created, the lock free, [k] lines printed. *)
Definition idle (k : nat) : state :=
  mkState (Z.of_nat k + 1) None [B_lock; B_lock] (M_join 0) (expected_lines k).

(** One full iteration of the thread whose turn it is. *)
Definition round (i : nat) : list action :=
  [Run i; Run i; Run i; Run i; Run i; Run i].

(** The schedule that lets the thread of the right parity run each time. *)
Fixpoint fair_schedule (k : nat) : list action :=
  match k with
  | O => [Main; Main]
  | S k' => fair_schedule k' ++ round (k' `mod` 2)%nat
  end.

(** One idle iteration of thread [j]: lock, limit check, parity check that
    fails, unlock. *)
Definition spin (j : nat) : list action := [Run j; Run j; Run j; Run j].

Fixpoint spins (n : nat) (j : nat) : list action :=
  match n with
  | O => []
  | S n' => spin j ++ spins n' j
  end.

(** Both threads see [counter > MAX] and return; main joins them. *)
Definition closing : list action :=
  [Run 0%nat; Run 0%nat; Run 1%nat; Run 1%nat; Main; Main].

End Polling.

(** The run of the source program ([MAX] = 100) under that schedule. *)
Definition demo_schedule : list action := fair_schedule 100 ++ closing.

Definition demo : state := default init (run MAX demo_schedule init).

End BS.

(** ** The letter-writing program (12_ABCDabcdWiteFileSync.c) *)

Module Letters.

(** Two's complement wrap-around of a signed 8-bit [char]. *)
Definition wrap_char (z : Z) : Z := (z + 128) `mod` 256 - 128.

(** Control points of [write_caps] (role 0) and [write_smalls] (role 1);
    the line numbers are those of [write_caps]. *)
Inductive loc :=
| W_unborn   (* pthread_create has not been called for this thread *)
| W_for      (* l.12  ch <= 'Z' *)
| W_lock     (* l.13  pthread_mutex_lock(&mutex) *)
| W_guard    (* l.14  while (turn != 0) *)
| W_wait     (* l.15  blocked inside pthread_cond_wait, mutex released *)
| W_woken    (* l.15  unblocked, pthread_cond_wait re-acquires the mutex *)
| W_put      (* l.16-18  printf, fputc(ch, fp), fflush(fp) *)
| W_turn     (* l.19  turn = 1 *)
| W_signal   (* l.20  pthread_cond_signal(&cond) *)
| W_unlock   (* l.21  pthread_mutex_unlock(&mutex) *)
| W_next     (* l.12  ch++ *)
| W_done.    (* l.23  return NULL *)

#[global] Instance loc_eq_dec : EqDecision loc.
Proof. solve_decision. Defined.

Inductive mloc :=
| M_create (k : nat)
| M_join (k : nat)
| M_exit.

(** A thread: its control point and its local [char ch]. *)
Record thread := mkThread { pc : loc; ch : Z }.

Record state := mkState {
  turn    : Z;               (* int turn = 0 *)
  mutex   : option nat;      (* mutex: the thread holding it *)
  threads : list thread;
  mpc     : mloc;            (* control point of main *)
  file    : list Z;          (* characters written to fp *)
  stdout  : list Z;          (* characters printed *)
}.

(** ['A'] for [write_caps], ['a'] for [write_smalls]. *)
Definition first_ch (i : nat) : Z := match i with O => 65 | _ => 97 end.
(** ['Z'] for [write_caps], ['z'] for [write_smalls]. *)
Definition last_ch (i : nat) : Z := match i with O => 90 | _ => 122 end.
(** [turn != 0] is the wait condition of [write_caps], [turn != 1] that of
    [write_smalls]; each assigns the other's number. *)
Definition my_turn (i : nat) : Z := match i with O => 0 | _ => 1 end.
Definition next_turn (i : nat) : Z := match i with O => 1 | _ => 0 end.
(** [printf("%c", ch)] for [write_caps], [printf(" %c\n", ch)] for
    [write_smalls]. *)
Definition printed (i : nat) (c : Z) : list Z :=
  match i with O => [c] | _ => [32; c; 10] end.

Definition set_thread (i : nat) (t : thread) (s : state) : state :=
  mkState (turn s) (mutex s) (<[i:=t]> (threads s)) (mpc s) (file s) (stdout s).
Definition set_mutex (m : option nat) (s : state) : state :=
  mkState (turn s) m (threads s) (mpc s) (file s) (stdout s).
Definition set_turn (t : Z) (s : state) : state :=
  mkState t (mutex s) (threads s) (mpc s) (file s) (stdout s).
Definition set_mpc (m : mloc) (s : state) : state :=
  mkState (turn s) (mutex s) (threads s) m (file s) (stdout s).
Definition put (i : nat) (c : Z) (s : state) : state :=
  mkState (turn s) (mutex s) (threads s) (mpc s)
          (file s ++ [c]) (stdout s ++ printed i c).

Inductive action :=
| Main
| Run (i : nat)
| Wake (i w : nat)
| Spurious (i : nat).

Definition init : state :=
  mkState 0 None [mkThread W_unborn 0; mkThread W_unborn 0] (M_create 0) [] [].

Definition main_step (s : state) : option state :=
  match mpc s with
  | M_create k =>
      if decide (k < 2)%nat then
        Some (set_mpc (if decide (S k < 2)%nat then M_create (S k) else M_join 0)
                      (set_thread k (mkThread W_for (first_ch k)) s))
      else None
  | M_join k =>
      match pc <$> threads s !! k with
      | Some W_done =>
          Some (set_mpc (if decide (S k < 2)%nat then M_join (S k) else M_exit) s)
      | _ => None
      end
  | M_exit => None
  end.

Definition is_waiting (t : thread) : bool :=
  match pc t with W_wait => true | _ => false end.

Definition thread_step (i : nat) (s : state) : option state :=
  match threads s !! i with
  | Some (mkThread l c) =>
      let goto l' := set_thread i (mkThread l' c) in
      match l with
      | W_for =>
          if c <=? last_ch i then Some (goto W_lock s) else Some (goto W_done s)
      | W_lock | W_woken =>
          match mutex s with
          | None => Some (goto W_guard (set_mutex (Some i) s))
          | Some _ => None
          end
      | W_guard =>
          if negb (turn s =? my_turn i)
          then Some (goto W_wait (set_mutex None s))
          else Some (goto W_put s)
      | W_put => Some (goto W_turn (put i c s))
      | W_turn => Some (goto W_signal (set_turn (next_turn i) s))
      | W_signal =>
          if existsb is_waiting (threads s) then None
          else Some (goto W_unlock s)
      | W_unlock => Some (goto W_next (set_mutex None s))
      | W_next => Some (set_thread i (mkThread W_for (wrap_char (c + 1))) s)
      | _ => None
      end
  | None => None
  end.

(** [pthread_cond_signal] of thread [i] unblocks the blocked thread [w]. *)
Definition wake_step (i w : nat) (s : state) : option state :=
  match threads s !! i, threads s !! w with
  | Some (mkThread W_signal c), Some (mkThread W_wait c') =>
      Some (set_thread i (mkThread W_unlock c)
              (set_thread w (mkThread W_woken c') s))
  | _, _ => None
  end.

Definition spurious_step (i : nat) (s : state) : option state :=
  match threads s !! i with
  | Some (mkThread W_wait c) => Some (set_thread i (mkThread W_woken c) s)
  | _ => None
  end.

Definition exec (a : action) (s : state) : option state :=
  match a with
  | Main => main_step s
  | Run i => thread_step i s
  | Wake i w => wake_step i w s
  | Spurious i => spurious_step i s
  end.

Fixpoint run (sch : list action) (s : state) : option state :=
  match sch with
  | [] => Some s
  | a :: sch' => match exec a s with Some s' => run sch' s' | None => None end
  end.

Definition step (s s' : state) : Prop := ∃ a, exec a s = Some s'.

Inductive reachable : state → Prop :=
| reach_init : reachable init
| reach_step s s' : reachable s → step s s' → reachable s'.

Definition final (s : state) : Prop :=
  mpc s = M_exit ∧ ∀ i, (i < 2)%nat → pc <$> threads s !! i = Some W_done.

(** The file after [n] characters: A a B b C c ... *)
Definition letters (n : nat) : list Z :=
  (λ k, (if Nat.even k then 65 else 97) + Z.of_nat (k / 2)) <$> seq 0 n.

Definition candidates : list action :=
  [Main; Run 0; Run 1; Wake 0 1; Wake 1 0]%nat.

Definition first_enabled (s : state) : option action :=
  list_find (λ a, is_Some (exec a s)) candidates ≫= λ '(_, a), Some a.

Fixpoint drive (fuel : nat) (s : state) : list action * state :=
  match fuel with
  | O => ([], s)
  | S fuel' =>
      match first_enabled s with
      | Some a =>
          match exec a s with
          | Some s' => let '(sch, sf) := drive fuel' s' in (a :: sch, sf)
          | None => ([], s)
          end
      | None => ([], s)
      end
  end.

Definition demo : list action * state := drive 2000 init.

(** *** Invariants of the reachable states *)

Definition crit (l : loc) : bool :=
  match l with
  | W_guard | W_put | W_turn | W_signal | W_unlock => true
  | _ => false
  end.

(** Characters thread [i] has written, from its control point and [ch]. *)
Definition puts (i : nat) (t : thread) : Z :=
  match pc t with
  | W_unborn => 0
  | W_turn | W_signal | W_unlock | W_next => ch t - first_ch i + 1
  | _ => ch t - first_ch i
  end.

Definition bounds (i : nat) (t : thread) : Prop :=
  match pc t with
  | W_unborn => True
  | W_for => 0 ≤ ch t - first_ch i ≤ 26
  | W_done => ch t - first_ch i = 26
  | _ => 0 ≤ ch t - first_ch i ≤ 25
  end.

(** What is printed along with the first [n] characters of the file. *)
Definition echo (n : nat) : list Z :=
  k ← seq 0 n;
  printed (k `mod` 2) ((if Nat.even k then 65 else 97) + Z.of_nat (k / 2)).

Definition main_ok (m : mloc) (l0 l1 : loc) : Prop :=
  match m with
  | M_create 0 => l0 = W_unborn ∧ l1 = W_unborn
  | M_create 1 => l0 ≠ W_unborn ∧ l1 = W_unborn
  | M_join 0 => l0 ≠ W_unborn ∧ l1 ≠ W_unborn
  | M_join 1 => l0 = W_done ∧ l1 ≠ W_unborn
  | M_exit => l0 = W_done ∧ l1 = W_done
  | _ => False
  end.

Record Inv2 (s : state) (t0 t1 : thread) : Prop := {
  inv_two    : threads s = [t0; t1];
  inv_mutex0 : crit (pc t0) = true ↔ mutex s = Some 0%nat;
  inv_mutex1 : crit (pc t1) = true ↔ mutex s = Some 1%nat;
  inv_holder : mutex s = None ∨ mutex s = Some 0%nat ∨ mutex s = Some 1%nat;
  inv_b0     : bounds 0 t0;
  inv_b1     : bounds 1 t1;
  inv_put0   : pc t0 = W_put → turn s = 0 ∧ puts 0 t0 = puts 1 t1;
  inv_put1   : pc t1 = W_put → turn s = 1 ∧ puts 0 t0 = puts 1 t1 + 1;
  inv_turn0  : pc t0 = W_turn → turn s = 0 ∧ puts 0 t0 = puts 1 t1 + 1;
  inv_turn1  : pc t1 = W_turn → turn s = 1 ∧ puts 0 t0 = puts 1 t1;
  inv_stable : pc t0 ≠ W_turn → pc t1 ≠ W_turn →
               (turn s = 0 ∧ puts 0 t0 = puts 1 t1) ∨
               (turn s = 1 ∧ puts 0 t0 = puts 1 t1 + 1);
  inv_file   : file s = letters (Z.to_nat (puts 0 t0 + puts 1 t1));
  inv_stdout : stdout s = echo (Z.to_nat (puts 0 t0 + puts 1 t1));
  inv_main   : main_ok (mpc s) (pc t0) (pc t1);
  inv_wait0  : pc t0 = W_wait → pc t1 ≠ W_signal → turn s ≠ 0;
  inv_wait1  : pc t1 = W_wait → pc t0 ≠ W_signal → turn s ≠ 1;
}.

Definition Inv (s : state) : Prop := ∃ t0 t1, Inv2 s t0 t1.

(** *** Progress *)

Definition proper (a : action) : bool :=
  match a with Spurious _ => false | _ => true end.

Definition weight (l : loc) : nat :=
  match l with
  | W_for => 12
  | W_lock => 11
  | W_woken => 11
  | W_guard => 10
  | W_wait => 9
  | W_put => 8
  | W_turn => 7
  | W_signal => 6
  | W_unlock => 3
  | W_next => 2
  | _ => 0
  end.

Definition thread_potential (i : nat) (t : thread) : nat :=
  match pc t with
  | W_unborn => 351
  | W_done => 0
  | l => 13 * Z.to_nat (26 - (ch t - first_ch i)) + weight l
  end.

Definition mweight (m : mloc) : nat :=
  match m with
  | M_create k => 6 - k
  | M_join k => 3 - k
  | M_exit => 0
  end.

Definition potential (s : state) : nat :=
  match threads s with
  | [t0; t1] => thread_potential 0 t0 + thread_potential 1 t1 + mweight (mpc s)
  | _ => 0
  end.

Definition proper_schedule (sch : list action) : Prop :=
  Forall (λ a, proper a = true) sch.

End Letters.

(** ** Start-up of [main] (09, 11 and 12) *)

Module Startup.

(** What the library calls made by [main] before the threads start return:
    whether [fopen] gives a non-null [FILE *], and the return codes of
    [pthread_mutex_init] and [pthread_cond_init]. *)
Record env := mkEnv {
  fopen_ok      : bool;
  mutex_init_rc : Z;
  cond_init_rc  : Z;
}.

(** The library calls of [main], in program order; messages are given
    without their trailing newline. *)
Inductive call :=
| C_fopen
| C_perror (msg : string)
| C_mutex_init
| C_cond_init
| C_create (t : nat)
| C_join (t : nat)
| C_fclose
| C_mutex_destroy
| C_cond_destroy
| C_printf (msg : string).

#[global] Instance call_eq_dec : EqDecision call.
Proof. solve_decision. Defined.

(** [main] of 09_Print_Odd_even.c: the mutex and the condition variable are
    initialised statically. *)
Definition main09 (e : env) : list call * Z :=
  ([C_create 1; C_create 2; C_join 1; C_join 2;
    C_printf "Both threads finished printing up to %d."], 0).

(** [main] of 11_ABCDabcdWiteFile.c. *)
Definition main11 (e : env) : list call * Z :=
  if negb (fopen_ok e) then
    ([C_fopen; C_perror "File open failed"], 1)
  else if negb (mutex_init_rc e =? 0) then
    ([C_fopen; C_mutex_init; C_perror "Mutex init failed"], 1)
  else
    ([C_fopen; C_mutex_init; C_create 1; C_create 2; C_join 1; C_join 2;
      C_fclose; C_mutex_destroy; C_printf "Letters written to output.txt"], 0).

(** [main] of 12_ABCDabcdWiteFileSync.c: the return codes of the two init
    calls are not looked at. *)
Definition main12 (e : env) : list call * Z :=
  if negb (fopen_ok e) then
    ([C_fopen; C_perror "fopen"], 1)
  else
    ([C_fopen; C_mutex_init; C_cond_init; C_create 1; C_create 2;
      C_join 1; C_join 2; C_fclose; C_mutex_destroy; C_cond_destroy;
      C_printf "Written AaBbCc...Zz pattern to output.txt"], 0).

(** Some thread was created. *)
Definition launches (tr : list call) : bool :=
  existsb (λ c, match c with C_create _ => true | _ => false end) tr.

(** The failure discipline as the specification words it: the run fails
    exactly when the lock or the condition variable cannot be constructed. *)
Definition only_lock_failure_is_fatal (main : env → list call * Z) : Prop :=
  ∀ e, snd (main e) ≠ 0 ↔ (mutex_init_rc e ≠ 0 ∨ cond_init_rc e ≠ 0).

End Startup.

(** ** The unsynchronised-order letter program (11_ABCDabcdWiteFile.c) *)

Module Blocks.
Import Startup.

(** [fputc] writes its argument converted to [unsigned char]. *)
Definition to_uchar (z : Z) : Z := z `mod` 256.

(** Control points of [write_caps] (thread 0) and [write_smalls] (thread 1);
    the line numbers are those of [write_caps]. *)
Inductive loc :=
| K_unborn   (* pthread_create has not been called for this thread *)
| K_lock     (* l.10  pthread_mutex_lock(&lock) *)
| K_init     (* l.11  char ch = 'A' *)
| K_for      (* l.11  ch <= 'Z' *)
| K_fputc    (* l.12  fputc(ch, fp) *)
| K_fflush   (* l.13  fflush(fp) *)
| K_usleep   (* l.14  usleep(10000) *)
| K_next     (* l.11  ch++ *)
| K_unlock   (* l.16  pthread_mutex_unlock(&lock) *)
| K_done.    (* l.17  return NULL *)

#[global] Instance loc_eq_dec : EqDecision loc.
Proof. solve_decision. Defined.

(** Control points of [main]. *)
Inductive mloc :=
| M_fopen            (* l.35  fp = fopen("output.txt", "w") *)
| M_fopen_failed     (* l.37  perror("File open failed"); return 1 *)
| M_mutex_init       (* l.42  pthread_mutex_init(&lock, NULL) *)
| M_init_failed      (* l.43  perror("Mutex init failed"); return 1 *)
| M_create (k : nat) (* l.48, l.49 *)
| M_join (k : nat)   (* l.52, l.53 *)
| M_fclose           (* l.56  fclose(fp) *)
| M_destroy          (* l.57  pthread_mutex_destroy(&lock) *)
| M_printf           (* l.59  printf *)
| M_return (rc : Z). (* main has returned rc *)

#[global] Instance mloc_eq_dec : EqDecision mloc.
Proof. solve_decision. Defined.

(** A thread: its control point and its local [char ch]. *)
Record thread := mkThread { pc : loc; ch : Z }.

Record state := mkState {
  lock    : option nat;      (* pthread_mutex_t lock: the thread holding it *)
  live    : bool;            (* the mutex is initialised and not destroyed *)
  fp      : bool;            (* fp is an open stream *)
  buffer  : list Z;          (* characters in the buffer of the stream *)
  file    : list Z;          (* content of output.txt *)
  threads : list thread;
  mpc     : mloc;            (* control point of main *)
  calls   : list call;       (* library calls made by main *)
  fault   : bool;            (* a call was made on a closed stream or on a
                                mutex that is not live, or the mutex was
                                destroyed while locked *)
}.

Definition first_ch (i : nat) : Z := match i with O => 65 | _ => 97 end.
Definition last_ch (i : nat) : Z := match i with O => 90 | _ => 122 end.

Definition set_thread (i : nat) (t : thread) (s : state) : state :=
  mkState (lock s) (live s) (fp s) (buffer s) (file s) (<[i:=t]> (threads s))
          (mpc s) (calls s) (fault s).
Definition set_lock (m : option nat) (s : state) : state :=
  mkState m (live s) (fp s) (buffer s) (file s) (threads s) (mpc s) (calls s) (fault s).
Definition set_live (b : bool) (s : state) : state :=
  mkState (lock s) b (fp s) (buffer s) (file s) (threads s) (mpc s) (calls s) (fault s).
Definition set_fp (b : bool) (s : state) : state :=
  mkState (lock s) (live s) b (buffer s) (file s) (threads s) (mpc s) (calls s) (fault s).
Definition set_buffer (b : list Z) (s : state) : state :=
  mkState (lock s) (live s) (fp s) b (file s) (threads s) (mpc s) (calls s) (fault s).
Definition set_file (f : list Z) (s : state) : state :=
  mkState (lock s) (live s) (fp s) (buffer s) f (threads s) (mpc s) (calls s) (fault s).
Definition set_mpc (m : mloc) (s : state) : state :=
  mkState (lock s) (live s) (fp s) (buffer s) (file s) (threads s) m (calls s) (fault s).
Definition log (c : call) (s : state) : state :=
  mkState (lock s) (live s) (fp s) (buffer s) (file s) (threads s) (mpc s)
          (calls s ++ [c]) (fault s).

(** A call that needs [ok] (an open stream, a live mutex): when it does not
    hold the behaviour is undefined, which [fault] records. *)
Definition need (ok : bool) (s : state) : state :=
  mkState (lock s) (live s) (fp s) (buffer s) (file s) (threads s) (mpc s)
          (calls s) (fault s || negb ok).

Inductive action :=
| Main
| Run (i : nat).

Section Program.

(** What [fopen] and [pthread_mutex_init] return, and the content of
    output.txt before the program starts. *)
Variable e : env.
Variable old : list Z.

Definition init : state :=
  mkState None false false [] old [mkThread K_unborn 0; mkThread K_unborn 0]
          M_fopen [] false.

Definition main_step (s : state) : option state :=
  match mpc s with
  | M_fopen =>
      if negb (fopen_ok e)
      then Some (set_mpc M_fopen_failed (log C_fopen s))
      else Some (set_mpc M_mutex_init (set_file [] (set_fp true (log C_fopen s))))
  | M_fopen_failed =>
      Some (set_mpc (M_return 1) (log (C_perror "File open failed") s))
  | M_mutex_init =>
      if negb (mutex_init_rc e =? 0)
      then Some (set_mpc M_init_failed (log C_mutex_init s))
      else Some (set_mpc (M_create 0) (set_live true (log C_mutex_init s)))
  | M_init_failed =>
      Some (set_mpc (M_return 1) (log (C_perror "Mutex init failed") s))
  | M_create k =>
      if decide (k < 2)%nat then
        Some (set_mpc (if decide (S k < 2)%nat then M_create (S k) else M_join 0)
                (set_thread k (mkThread K_lock 0) (log (C_create (S k)) s)))
      else None
  | M_join k =>
      match pc <$> threads s !! k with
      | Some K_done =>
          Some (set_mpc (if decide (S k < 2)%nat then M_join (S k) else M_fclose)
                  (log (C_join (S k)) s))
      | _ => None
      end
  | M_fclose =>
      Some (set_mpc M_destroy
              (set_fp false
                 (set_file (file s ++ buffer s)
                    (set_buffer [] (need (fp s) (log C_fclose s))))))
  | M_destroy =>
      Some (set_mpc M_printf
              (set_live false
                 (need (live s && bool_decide (lock s = None))
                       (log C_mutex_destroy s))))
  | M_printf =>
      Some (set_mpc (M_return 0) (log (C_printf "Letters written to output.txt") s))
  | M_return _ => None
  end.

Definition thread_step (i : nat) (s : state) : option state :=
  match threads s !! i with
  | Some (mkThread l c) =>
      let goto l' := set_thread i (mkThread l' c) in
      match l with
      | K_lock =>
          match lock s with
          | None => Some (goto K_init (set_lock (Some i) (need (live s) s)))
          | Some _ => None
          end
      | K_init => Some (set_thread i (mkThread K_for (first_ch i)) s)
      | K_for =>
          if c <=? last_ch i then Some (goto K_fputc s) else Some (goto K_unlock s)
      | K_fputc =>
          Some (goto K_fflush (set_buffer (buffer s ++ [to_uchar c]) (need (fp s) s)))
      | K_fflush =>
          Some (goto K_usleep
                  (set_file (file s ++ buffer s) (set_buffer [] (need (fp s) s))))
      | K_usleep => Some (goto K_next s)
      | K_next => Some (set_thread i (mkThread K_for (Letters.wrap_char (c + 1))) s)
      | K_unlock => Some (goto K_done (set_lock None (need (live s) s)))
      | _ => None
      end
  | None => None
  end.

Definition exec (a : action) (s : state) : option state :=
  match a with
  | Main => main_step s
  | Run i => thread_step i s
  end.

Fixpoint run (sch : list action) (s : state) : option state :=
  match sch with
  | [] => Some s
  | a :: sch' => match exec a s with Some s' => run sch' s' | None => None end
  end.

Definition step (s s' : state) : Prop := ∃ a, exec a s = Some s'.

Inductive reachable : state → Prop :=
| reach_init : reachable init
| reach_step s s' : reachable s → step s s' → reachable s'.

(** *** Invariants of the reachable states *)

Definition crit (l : loc) : bool :=
  match l with
  | K_init | K_for | K_fputc | K_fflush | K_usleep | K_next | K_unlock => true
  | _ => false
  end.

(** Characters of thread [i] that have reached the file. *)
Definition flushed (i : nat) (t : thread) : Z :=
  match pc t with
  | K_unborn | K_lock | K_init => 0
  | K_usleep | K_next => ch t - first_ch i + 1
  | _ => ch t - first_ch i
  end.

Definition bounds (i : nat) (t : thread) : Prop :=
  match pc t with
  | K_unborn | K_lock | K_init => True
  | K_for => 0 ≤ ch t - first_ch i ≤ 26
  | K_unlock | K_done => ch t - first_ch i = 26
  | _ => 0 ≤ ch t - first_ch i ≤ 25
  end.

(** The character between [fputc] and [fflush]. *)
Definition pending (t : thread) : list Z :=
  match pc t with K_fflush => [ch t] | _ => [] end.

(** The first [n] letters of thread [i]. *)
Definition block (i : nat) (n : nat) : list Z :=
  (λ k, first_ch i + Z.of_nat k) <$> seq 0 n.

(** One block after the other: the second is empty unless the first is
    complete. *)
Definition in_blocks (p0 p1 : nat) (f : list Z) : Prop :=
  (f = block 0 p0 ++ block 1 p1 ∧ (p1 = 0 ∨ p0 = 26)%nat) ∨
  (f = block 1 p1 ++ block 0 p0 ∧ (p0 = 0 ∨ p1 = 26)%nat).

(** What main has done so far, by its control point. *)
Definition main_ok (s : state) (l0 l1 : loc) : Prop :=
  let opened := [C_fopen; C_mutex_init] in
  match mpc s with
  | M_fopen =>
      l0 = K_unborn ∧ l1 = K_unborn ∧ fp s = false ∧ live s = false ∧
      calls s = [] ∧ file s = old
  | M_fopen_failed =>
      l0 = K_unborn ∧ l1 = K_unborn ∧ fp s = false ∧ live s = false ∧
      calls s = [C_fopen] ∧ file s = old ∧ fopen_ok e = false
  | M_mutex_init =>
      l0 = K_unborn ∧ l1 = K_unborn ∧ fp s = true ∧ live s = false ∧
      calls s = [C_fopen] ∧ fopen_ok e = true
  | M_init_failed =>
      l0 = K_unborn ∧ l1 = K_unborn ∧ fp s = true ∧ live s = false ∧
      calls s = opened ∧ fopen_ok e = true ∧ mutex_init_rc e ≠ 0
  | M_create 0 =>
      l0 = K_unborn ∧ l1 = K_unborn ∧ fp s = true ∧ live s = true ∧
      calls s = opened ∧ fopen_ok e = true ∧ mutex_init_rc e = 0
  | M_create 1 =>
      l0 ≠ K_unborn ∧ l1 = K_unborn ∧ fp s = true ∧ live s = true ∧
      calls s = opened ++ [C_create 1] ∧ fopen_ok e = true ∧ mutex_init_rc e = 0
  | M_join 0 =>
      l0 ≠ K_unborn ∧ l1 ≠ K_unborn ∧ fp s = true ∧ live s = true ∧
      calls s = opened ++ [C_create 1; C_create 2] ∧
      fopen_ok e = true ∧ mutex_init_rc e = 0
  | M_join 1 =>
      l0 = K_done ∧ l1 ≠ K_unborn ∧ fp s = true ∧ live s = true ∧
      calls s = opened ++ [C_create 1; C_create 2; C_join 1] ∧
      fopen_ok e = true ∧ mutex_init_rc e = 0
  | M_fclose =>
      l0 = K_done ∧ l1 = K_done ∧ fp s = true ∧ live s = true ∧
      calls s = opened ++ [C_create 1; C_create 2; C_join 1; C_join 2] ∧
      fopen_ok e = true ∧ mutex_init_rc e = 0
  | M_destroy =>
      l0 = K_done ∧ l1 = K_done ∧ fp s = false ∧ live s = true ∧
      calls s = opened ++ [C_create 1; C_create 2; C_join 1; C_join 2; C_fclose] ∧
      fopen_ok e = true ∧ mutex_init_rc e = 0
  | M_printf =>
      l0 = K_done ∧ l1 = K_done ∧ fp s = false ∧ live s = false ∧
      calls s = opened ++ [C_create 1; C_create 2; C_join 1; C_join 2;
                           C_fclose; C_mutex_destroy] ∧
      fopen_ok e = true ∧ mutex_init_rc e = 0
  | M_return rc =>
      (rc = 1 ∧ l0 = K_unborn ∧ l1 = K_unborn ∧ fp s = false ∧ live s = false ∧
       calls s = [C_fopen; C_perror "File open failed"] ∧ file s = old ∧
       fopen_ok e = false) ∨
      (rc = 1 ∧ l0 = K_unborn ∧ l1 = K_unborn ∧ fp s = true ∧ live s = false ∧
       calls s = opened ++ [C_perror "Mutex init failed"] ∧
       fopen_ok e = true ∧ mutex_init_rc e ≠ 0) ∨
      (rc = 0 ∧ l0 = K_done ∧ l1 = K_done ∧ fp s = false ∧ live s = false ∧
       calls s = opened ++ [C_create 1; C_create 2; C_join 1; C_join 2;
                            C_fclose; C_mutex_destroy;
                            C_printf "Letters written to output.txt"] ∧
       fopen_ok e = true ∧ mutex_init_rc e = 0)
  | _ => False
  end.

Record Inv2 (s : state) (t0 t1 : thread) : Prop := {
  inv_two    : threads s = [t0; t1];
  inv_mutex0 : crit (pc t0) = true ↔ lock s = Some 0%nat;
  inv_mutex1 : crit (pc t1) = true ↔ lock s = Some 1%nat;
  inv_holder : lock s = None ∨ lock s = Some 0%nat ∨ lock s = Some 1%nat;
  inv_b0     : bounds 0 t0;
  inv_b1     : bounds 1 t1;
  inv_buffer : buffer s = pending t0 ++ pending t1;
  inv_file   : fopen_ok e = true → mpc s ≠ M_fopen →
               in_blocks (Z.to_nat (flushed 0 t0)) (Z.to_nat (flushed 1 t1)) (file s);
  inv_main   : main_ok s (pc t0) (pc t1);
  inv_fault  : fault s = false;
}.

Definition Inv (s : state) : Prop := ∃ t0 t1, Inv2 s t0 t1.

(** *** Progress *)

Definition weight (l : loc) : nat :=
  match l with
  | K_for => 4
  | K_fputc => 3
  | K_fflush => 2
  | K_usleep => 1
  | _ => 0
  end.

Definition thread_potential (i : nat) (t : thread) : nat :=
  match pc t with
  | K_unborn => 138
  | K_lock => 137
  | K_init => 136
  | K_unlock => 1
  | K_done => 0
  | l => 5 * Z.to_nat (26 - (ch t - first_ch i)) + weight l + 1
  end.

Definition mweight (m : mloc) : nat :=
  match m with
  | M_fopen => 9
  | M_mutex_init => 8
  | M_create k => 7 - k
  | M_join k => 5 - k
  | M_fclose => 3
  | M_destroy => 2
  | M_fopen_failed | M_init_failed | M_printf => 1
  | M_return _ => 0
  end.

(** Bound on the number of statements still to run. *)
Definition potential (s : state) : nat :=
  match threads s with
  | [t0; t1] => thread_potential 0 t0 + thread_potential 1 t1 + mweight (mpc s)
  | _ => 0
  end.

(** Schedules of a complete run: the threads in the order [i], [j]. *)
Definition body (i : nat) : list action := replicate 134 (Run i).

Definition in_order (i j : nat) : list action :=
  [Main; Main; Main; Main] ++ body i ++ body j ++ [Main; Main; Main; Main; Main].

End Program.

(** Two complete runs with both library calls succeeding, over a file that
    held three characters: [write_caps] first, and [write_smalls] first. *)
Definition demo_env : env := mkEnv true 0 0.

Definition demo_caps_first : state :=
  default (init [120; 121; 122])
          (run demo_env (in_order 0 1) (init [120; 121; 122])).

Definition demo_smalls_first : state :=
  default (init [120; 121; 122])
          (run demo_env (in_order 1 0) (init [120; 121; 122])).

End Blocks.

(** ** Progress of the polling program *)

Module BSProgress.
Import BS.

Section Progress.

Variable limit : Z.

(** With [counter] at [c], not past the limit, thread [i] is the one whose
    parity test fails: its iterations change nothing. *)
Definition idles (c : Z) (i : nat) : bool :=
  (c <=? limit) && negb (Nat.eqb i (Z.to_nat (c - 1) `mod` 2)).

(** Statements of a thread that bring the program forward, from its control
    point. *)
Definition weight (c : Z) (i : nat) (l : loc) : nat :=
  match l with
  | B_unborn => 9
  | B_lock => if idles c i then 0 else 7
  | B_limit => if idles c i then 3 else 6
  | B_parity => if idles c i then 2 else 5
  | B_print => 4
  | B_incr => 3
  | B_unlock => if idles c i then 1 else 8
  | B_done => 0
  end.

Definition mweight (m : mloc) : nat :=
  match m with
  | M_create k => 5 - k
  | M_join k => 3 - k
  | M_exit => 0
  end.

(** Bound on the length of a run in which a thread takes the mutex only
    when its parity test will succeed or [counter] has passed the limit. *)
Definition measure (s : state) : nat :=
  14 * Z.to_nat (limit + 1 - counter s)
  + sum_list (imap (weight (counter s)) (pcs s)) + mweight (mpc s).

End Progress.

(** The source program ([MAX] = 100) after the even thread has taken the
    mutex first: it is at its parity test (l.20) with [counter] = 1, which
    is not its parity. *)
Definition out_of_turn : state :=
  default init (run MAX [Main; Main; Run 1%nat; Run 1%nat] init).

End BSProgress.

(** ** The LED and switch loop (03_EmbeddedC/01_LED&Switch.c) *)

Module Gpio.

(** Conversion to [uint32_t]. *)
Definition to_u32 (z : Z) : Z := z `mod` 2 ^ 32.

(** [#define SWITCH_PIN (1 << 0)] and [#define LED_PIN (1 << 1)], of type
    [int]. *)
Definition SWITCH_PIN : Z := Z.shiftl 1 0.
Definition LED_PIN : Z := Z.shiftl 1 1.

(** The direction register and the output register hold what was last
    written to them; the input register is driven from outside. *)
Record ports := mkPorts {
  GPIO_PORT_DIR : Z;
  GPIO_PORT_OUT : Z;
}.

(** [reg &= ~pin]: the complement is taken on the [int] and converted to
    [uint32_t] for the conjunction. *)
Definition and_not (reg pin : Z) : Z := Z.land reg (to_u32 (Z.lnot pin)).

(** [reg |= pin] *)
Definition or_in (reg pin : Z) : Z := Z.lor reg (to_u32 pin).

(** l.14, l.15 *)
Definition configure (p : ports) : ports :=
  let p1 := mkPorts (and_not (GPIO_PORT_DIR p) SWITCH_PIN) (GPIO_PORT_OUT p) in
  mkPorts (or_in (GPIO_PORT_DIR p1) LED_PIN) (GPIO_PORT_OUT p1).

(** One iteration of [while (1)] (l.20 - l.29), [inp] being what the read of
    [GPIO_PORT_IN] returns. *)
Definition iteration (inp : Z) (p : ports) : ports :=
  if negb (Z.land inp (to_u32 SWITCH_PIN) =? 0)
  then mkPorts (GPIO_PORT_DIR p) (or_in (GPIO_PORT_OUT p) LED_PIN)
  else mkPorts (GPIO_PORT_DIR p) (and_not (GPIO_PORT_OUT p) LED_PIN).

(** [main] up to the end of the iteration that reads the last of [inputs]. *)
Definition main (inputs : list Z) (p : ports) : ports :=
  foldl (λ q inp, iteration inp q) (configure p) inputs.

(** A value that fits a 32-bit register. *)
Definition u32 (z : Z) : Prop := 0 ≤ z < 2 ^ 32.

End Gpio.

(** ** Safety of the condition-variable program *)

Module CVSafety.
Import CV.

Section Safety.

Variable N : nat.
Variable limit : Z.
Variable kind : notify.
Hypothesis HN : (0 < N)%nat.
Hypothesis Hlim : 0 ≤ limit < INT_MAX.

#[local] Abbreviation Inv := (Inv N limit kind).
#[local] Abbreviation exec := (exec N limit kind).
#[local] Abbreviation phase := (phase N limit).
#[local] Abbreviation round_robin := (round_robin N).

Lemma round_robin_S n :
  round_robin (S n) = round_robin n ++ [((n `mod` N)%nat, Z.of_nat n + 1)].
Proof. unfold round_robin. by rewrite seq_S, fmap_app. Qed.

Lemma note_log_S k n :
  note_log k (S n) = note_log k n ++ [(k, Z.of_nat n + 2)].
Proof. unfold note_log. by rewrite seq_S, fmap_app. Qed.

Lemma succ_mod n : (((n `mod` N) + 1) `mod` N = (S n) `mod` N)%nat.
Proof.
  rewrite Nat.Div0.add_mod_idemp_l. f_equal. lia.
Qed.

Lemma hloc_at s i l : lock s = Some i → pcs s !! i = Some l → hloc s = l.
Proof. unfold hloc. by intros -> ->. Qed.

Lemma hloc_free s : lock s = None → hloc s = L_lock.
Proof. unfold hloc. by intros ->. Qed.

Lemma crit_wake l : crit (wake l) = crit l.
Proof. by destruct l. Qed.

Lemma init_inv : Inv (init N).
Proof.
  constructor; simpl.
  - by rewrite length_replicate.
  - done.
  - intros i l [-> _]%lookup_replicate. done.
  - done.
  - lia.
  - unfold phase, hloc, done_steps; simpl. split; [|done].
    by rewrite Nat.Div0.mod_0_l.
  - intros i [? _]%lookup_replicate. done.
  - unfold main_ok; simpl. split; [done|].
    intros j l [-> ?]%lookup_replicate. split; [lia|done].
  - done.
Qed.
Lemma main_ok_set_pc s s' i l l' :
  main_ok N s → pcs s !! i = Some l → l ≠ L_unborn → l ≠ L_done → l' ≠ L_unborn →
  mpc s' = mpc s → pcs s' = <[i:=l']> (pcs s) → main_ok N s'.
Proof.
  unfold main_ok. intros Hok Hi Hu Hd Hu' -> ->.
  destruct (mpc s) as [k|k|].
  - destruct Hok as [Hk Hok]. split; [done|].
    intros j l0 [(? & ? & ?)|[? Hj]]%list_lookup_insert_Some; simplify_eq.
    + split; [done|]. intros Hkj. by apply (Hok _ _ Hi) in Hkj.
    + by apply Hok.
  - destruct Hok as (Hk & Hnu & Hdn). split_and!; [done|..].
    + intros j [(? & ? & ?)|[? Hj]]%list_lookup_insert_Some; simplify_eq.
      by apply (Hnu j).
    + intros j Hj. rewrite list_lookup_insert_ne; [by apply Hdn|].
      intros ->. specialize (Hdn _ Hj). congruence.
  - intros j Hj. rewrite list_lookup_insert_ne; [by apply Hok|].
    intros ->. specialize (Hok _ Hj). congruence.
Qed.

Lemma main_ok_wake s s' :
  main_ok N s → mpc s' = mpc s → pcs s' = wake <$> pcs s → main_ok N s'.
Proof.
  unfold main_ok. intros Hok -> ->.
  destruct (mpc s) as [k|k|].
  - destruct Hok as [Hk Hok]. split; [done|].
    intros j l0. rewrite list_lookup_fmap.
    destruct (pcs s !! j) as [l1|] eqn:Hj; [|done]. intros [= <-].
    rewrite <-(Hok _ _ Hj). by destruct l1.
  - destruct Hok as (Hk & Hnu & Hdn). split_and!; [done|..].
    + intros j. rewrite list_lookup_fmap.
      destruct (pcs s !! j) as [l1|] eqn:Hj; [|done]. intros [= Hw].
      apply (Hnu j). rewrite Hj. by destruct l1.
    + intros j Hj. by rewrite list_lookup_fmap, (Hdn _ Hj).
  - intros j Hj. by rewrite list_lookup_fmap, (Hok _ Hj).
Qed.

Ltac split_lookup H :=
  apply list_lookup_insert_Some in H as [(? & ? & ?)|[? H]]; simplify_eq.

Ltac old_phase HI Hm Hi :=
  let H := fresh "Hph" in
  let Hn := fresh "Hnt" in
  pose proof (inv_phase _ _ _ _ HI) as H;
  pose proof (inv_notes _ _ _ _ HI) as Hn;
  unfold CV.phase, notified in H, Hn;
  first [ rewrite (hloc_at _ _ _ Hm Hi) in H, Hn
        | rewrite (hloc_free _ Hm) in H, Hn ];
  unfold done_steps in H, Hn.

Ltac new_phase i l :=
  unfold CV.phase, notified;
  rewrite ?(hloc_at _ i l) by (simpl; first [done | by rewrite list_lookup_insert_eq]);
  rewrite ?hloc_free by done;
  unfold done_steps; simpl.

(* the fields of Inv after thread [i] moved to [l] *)
Ltac fields HI Hm i l :=
  constructor; simpl; rewrite ?Hm;
  [ rewrite length_insert; apply HI
  | try apply HI
  | let j := fresh "j" in let l' := fresh "l" in
    let Hj := fresh "Hj" in let Hc := fresh "Hc" in
    intros j l' Hj Hc; split_lookup Hj; try done;
    pose proof (inv_crit _ _ _ _ HI _ _ Hj Hc); congruence
  | let j := fresh "j" in let Hj := fresh "Hj" in
    intros j Hj; simplify_eq; try (exists l; by rewrite list_lookup_insert_eq)
  | try apply HI
  | new_phase i l
  | let j := fresh "j" in let Hj := fresh "Hj" in
    intros j Hj; split_lookup Hj; try done; try (by eapply (inv_done _ _ _ _ HI))
  | try (eapply (main_ok_set_pc _ _ i _ l); [exact (inv_main _ _ _ _ HI)|eassumption|done..])
  | new_phase i l ].

Lemma thread_step_inv s i s' : Inv s → thread_step N limit kind i s = Some s' → Inv s'.
Proof.
  intros HI. unfold thread_step.
  destruct (pcs s !! i) as [l|] eqn:Hi; [|done].
  assert (i < length (pcs s))%nat as Hlt by eauto using lookup_lt_Some.
  assert (crit l = true → lock s = Some i) as Hcm by (eapply inv_crit; eauto).
  pose proof (inv_range _ _ _ _ HI) as Hr.
  pose proof (inv_owner _ _ _ _ HI) as Ho.
  destruct l; try done.
  - (* lock *)
    destruct (lock s) eqn:Hm; [done|]. intros [= <-].
    old_phase HI Hm Hi.
    fields HI Hm i L_guard; done.
  - (* guard *)
    assert (lock s = Some i) as Hm by auto.
    old_phase HI Hm Hi.
    destruct (_ && _) eqn:Hg; intros [= <-].
    + fields HI Hm i L_wait; done.
    + apply andb_false_iff in Hg as [Hg|Hg].
      * apply negb_false_iff, Nat.eqb_eq in Hg. fields HI Hm i L_limit; try done.
        split; [|done]. left. congruence.
      * apply Z.leb_gt in Hg. fields HI Hm i L_limit; try done.
        split; [|done]. by right.
  - (* woken *)
    destruct (lock s) eqn:Hm; [done|]. intros [= <-].
    old_phase HI Hm Hi.
    fields HI Hm i L_guard; done.
  - (* limit *)
    assert (lock s = Some i) as Hm by auto.
    old_phase HI Hm Hi.
    destruct (_ <? _) eqn:Hg; intros [= <-].
    + apply Z.ltb_lt in Hg. fields HI Hm i L_done; try done; try lia. tauto.
    + apply Z.ltb_ge in Hg. fields HI Hm i L_print; try done.
      destruct Hph as ([Hph|Hph] & ? & ?); [done|lia].
  - (* print *)
    assert (lock s = Some i) as Hm by auto.
    old_phase HI Hm Hi. destruct Hph as (Hmo & Hc & Hph & Hout).
    assert (owner s = i) as Hoi by congruence.
    intros [= <-].
    fields HI Hm i L_incr; try done.
    split_and!; try done.
    rewrite round_robin_S, Hout. do 3 f_equal; [congruence|lia].
  - (* incr *)
    assert (lock s = Some i) as Hm by auto.
    old_phase HI Hm Hi. destruct Hph as (Hmo & Hc & Hph & Hout).
    intros [= <-].
    assert (wrap_int (counter s + 1) = counter s + 1) as Hw.
    { apply wrap_int_small. unfold INT_MAX in *. lia. }
    fields HI Hm i L_turn; try done; rewrite ?Hw; try lia.
    + replace (Z.to_nat (counter s + 1 - 1)) with (S (Z.to_nat (counter s - 1))) by lia.
      split_and!; try done; try lia.
      rewrite Hph. f_equal. lia.
    + match goal with H : pcs s !! _ = Some L_done |- _ =>
        pose proof (inv_done _ _ _ _ HI _ H) end. lia.
    + rewrite Hnt. f_equal. lia.
  - (* turn *)
    assert (lock s = Some i) as Hm by auto.
    old_phase HI Hm Hi. destruct Hph as (Hmo & Hc & Hph & Hout).
    assert (owner s = i) as Hoi by congruence.
    intros [= <-].
    fields HI Hm i L_notify; try done.
    + by apply Nat.mod_upper_bound, Nat.neq_0_lt_0.
    + split_and!; [done| |done]. rewrite <-Hoi, Hph, succ_mod. f_equal. lia.
  - (* notify *)
    assert (lock s = Some i) as Hm by auto.
    old_phase HI Hm Hi. destruct Hph as (Hc & Hph & Hout).
    assert (notes s ++ [(kind, counter s)] = note_log kind (Z.to_nat (counter s - 1))) as Hnt'.
    { replace (Z.to_nat (counter s - 1)) with (S (Z.to_nat (counter s - 1) - 1)) at 1 by lia.
      rewrite note_log_S, Hnt. do 3 f_equal. lia. }
    destruct kind eqn:Hk.
    + destruct (decide _); [done|]. intros [= <-].
      fields HI Hm i L_unlock; done.
    + intros [= <-].
      assert ((wake <$> pcs s) !! i = Some L_notify) as Hi'
        by (by rewrite list_lookup_fmap, Hi).
      assert (i < length (wake <$> pcs s))%nat as Hlt' by (by rewrite length_fmap).
      constructor; simpl; rewrite ?Hm.
      * rewrite length_insert, length_fmap. apply HI.
      * done.
      * intros j l Hj Hc'. split_lookup Hj; [done|].
        rewrite list_lookup_fmap in Hj.
        destruct (pcs s !! j) as [l0|] eqn:Hj0; simplify_eq/=.
        rewrite crit_wake in Hc'.
        pose proof (inv_crit _ _ _ _ HI _ _ Hj0 Hc'). congruence.
      * intros j [= <-]. exists L_unlock. by rewrite list_lookup_insert_eq.
      * done.
      * new_phase i L_unlock. done.
      * intros j Hj. split_lookup Hj.
        rewrite list_lookup_fmap in Hj.
        destruct (pcs s !! j) as [l0|] eqn:Hj0; simplify_eq/=.
        destruct l0; simplify_eq/=. by eapply (inv_done _ _ _ _ HI).
      * eapply (main_ok_set_pc (set_pcs (wake <$> pcs s) s) _ i L_notify L_unlock);
          [|done..].
        eapply main_ok_wake; [exact (inv_main _ _ _ _ HI)|done..].
      * new_phase i L_unlock. done.
  - (* unlock *)
    assert (lock s = Some i) as Hm by auto.
    old_phase HI Hm Hi. intros [= <-].
    fields HI Hm i L_lock; done.
Qed.

Lemma spurious_step_inv s i s' : Inv s → spurious_step i s = Some s' → Inv s'.
Proof.
  intros HI. unfold spurious_step.
  destruct (pcs s !! i) as [l|] eqn:Hi; [|done].
  destruct l; try done. intros [= <-].
  assert (i < length (pcs s))%nat as Hlt by eauto using lookup_lt_Some.
  assert (hloc (set_pc i L_woken s) = hloc s) as Hh.
  { unfold hloc; simpl. destruct (lock s) as [h|] eqn:Hm; [|done].
    destruct (inv_held _ _ _ _ HI _ Hm) as (l & Hl & Hc).
    rewrite list_lookup_insert_ne; [done|]. intros ->. by simplify_eq. }
  constructor; simpl.
  - rewrite length_insert; apply HI.
  - apply HI.
  - intros j l' Hj Hc; split_lookup Hj; try done.
    by apply (inv_crit _ _ _ _ HI _ _ Hj Hc).
  - intros j Hj. destruct (inv_held _ _ _ _ HI _ Hj) as (l & Hl & Hc).
    exists l. split; [|done]. rewrite list_lookup_insert_ne; [done|].
    intros ->. by simplify_eq.
  - apply HI.
  - pose proof (inv_phase _ _ _ _ HI) as Hph. unfold CV.phase in *.
    by rewrite Hh.
  - intros j Hj; split_lookup Hj. by eapply (inv_done _ _ _ _ HI).
  - eapply (main_ok_set_pc _ _ i L_wait L_woken); [exact (inv_main _ _ _ _ HI)|done..].
  - pose proof (inv_notes _ _ _ _ HI) as Hnt. unfold notified in *.
    by rewrite Hh.
Qed.

Lemma wake_step_inv s i w s' : Inv s → wake_step kind i w s = Some s' → Inv s'.
Proof.
  intros HI. unfold wake_step.
  destruct kind eqn:Hk; [|done].
  destruct (pcs s !! i) as [l|] eqn:Hi; [|done].
  destruct l; try done.
  destruct (pcs s !! w) as [l|] eqn:Hw; [|done].
  destruct l; try done. intros [= <-].
  assert (i ≠ w) as Hne by (intros ->; by simplify_eq).
  assert (i < length (pcs s))%nat as Hlt by eauto using lookup_lt_Some.
  assert (w < length (pcs s))%nat as Hlt' by eauto using lookup_lt_Some.
  assert (lock s = Some i) as Hm by (by eapply (inv_crit _ _ _ _ HI)).
  assert (<[i:=L_unlock]> (<[w:=L_woken]> (pcs s)) !! i = Some L_unlock) as Hi'
    by (rewrite list_lookup_insert_eq; [done|by rewrite length_insert]).
  old_phase HI Hm Hi. destruct Hph as (Hc & Hph & Hout).
  constructor; simpl; rewrite ?Hm.
  - rewrite !length_insert. apply HI.
  - apply HI.
  - intros j l Hj Hc'. split_lookup Hj; [done|]. split_lookup Hj.
    rewrite <-Hm. by apply (inv_crit _ _ _ _ HI _ _ Hj Hc').
  - intros j [= <-]. by exists L_unlock.
  - apply HI.
  - unfold CV.phase. rewrite (hloc_at _ i L_unlock) by done. done.
  - intros j Hj. split_lookup Hj. split_lookup Hj. by eapply (inv_done _ _ _ _ HI).
  - eapply (main_ok_set_pc (set_pc w L_woken s) _ i L_notify L_unlock); [| |done..].
    + eapply (main_ok_set_pc _ _ w L_wait L_woken); [exact (inv_main _ _ _ _ HI)|done..].
    + simpl. by rewrite list_lookup_insert_ne.
  - unfold notified. rewrite (hloc_at _ i L_unlock) by done.
    unfold done_steps; simpl.
    replace (Z.to_nat (counter s - 1)) with (S (Z.to_nat (counter s - 1) - 1)) at 1 by lia.
    rewrite note_log_S, Hnt. do 3 f_equal. lia.
Qed.

Lemma main_step_inv s s' : Inv s → main_step N s = Some s' → Inv s'.
Proof.
  intros HI. unfold main_step.
  pose proof (inv_main _ _ _ _ HI) as Hmain. unfold main_ok in Hmain.
  destruct (mpc s) as [k|k|] eqn:Hmpc; [| |done].
  - destruct Hmain as [Hk Hmain].
    destruct (decide _); [|done]. intros [= <-].
    assert (k < length (pcs s))%nat as Hlt by (by rewrite (inv_len _ _ _ _ HI)).
    destruct (lookup_lt_is_Some_2 _ _ Hlt) as [l0 Hl].
    assert (l0 = L_unborn) as -> by (by apply (Hmain _ _ Hl)).
    assert (hloc (set_mpc (if decide (S k < N)%nat then M_create (S k) else M_join 0)
                          (set_pc k L_lock s)) = hloc s) as Hh.
    { unfold hloc; simpl. destruct (lock s) as [h|] eqn:Hm; [|done].
      destruct (inv_held _ _ _ _ HI _ Hm) as (lh & Hlh & Hch).
      rewrite list_lookup_insert_ne; [done|]. intros ->. by simplify_eq. }
    constructor; simpl.
    + rewrite length_insert; apply HI.
    + apply HI.
    + intros j l' Hj Hc; split_lookup Hj; try done.
      by apply (inv_crit _ _ _ _ HI _ _ Hj Hc).
    + intros j Hj. destruct (inv_held _ _ _ _ HI _ Hj) as (lh & Hlh & Hch).
      exists lh. split; [|done]. rewrite list_lookup_insert_ne; [done|].
      intros ->. by simplify_eq.
    + apply HI.
    + pose proof (inv_phase _ _ _ _ HI) as Hph. unfold CV.phase in *.
      by rewrite Hh.
    + intros j Hj; split_lookup Hj. by eapply (inv_done _ _ _ _ HI).
    + unfold main_ok; simpl. destruct (decide (S k < N)%nat) as [Hk'|Hk'].
      * split; [done|]. intros j l1 Hj. split_lookup Hj.
        -- split; [done|lia].
        -- rewrite (Hmain _ _ Hj). lia.
      * split_and!; [lia| |lia].
        intros j Hj. split_lookup Hj.
        assert (k ≤ j)%nat as Hkj by (by apply (Hmain _ _ Hj)).
        apply lookup_lt_Some in Hj. rewrite (inv_len _ _ _ _ HI) in Hj. lia.
    + pose proof (inv_notes _ _ _ _ HI) as Hnt. unfold notified in *.
      by rewrite Hh.
  - destruct Hmain as (Hk & Hnu & Hdn).
    destruct (pcs s !! k) as [l|] eqn:Hl; [|done].
    destruct l; try done. intros [= <-].
    destruct HI. constructor; try done.
    unfold main_ok; simpl. destruct (decide (S k < N)%nat) as [Hk'|Hk'].
    + split_and!; [done..|]. intros j Hj.
      destruct (decide (j = k)) as [->|]; [done|]. apply Hdn. lia.
    + intros j Hj.
      destruct (decide (j = k)) as [->|]; [done|]. apply Hdn. lia.
Qed.

Lemma exec_inv a s s' : Inv s → exec a s = Some s' → Inv s'.
Proof.
  destruct a; simpl;
    eauto using main_step_inv, thread_step_inv, wake_step_inv, spurious_step_inv.
Qed.

Lemma reachable_inv s : reachable N limit kind s → Inv s.
Proof.
  induction 1 as [|s s' _ IH [a Ha]]; [apply init_inv|by eapply exec_inv].
Qed.

(** *** Schedules *)

Lemma run_app sch1 sch2 s :
  run N limit kind (sch1 ++ sch2) s =
  run N limit kind sch1 s ≫= run N limit kind sch2.
Proof.
  revert s. induction sch1 as [|a sch1 IH]; intros s; simpl; [done|].
  destruct (exec a s); simpl; [apply IH|done].
Qed.

Lemma run_reachable sch s s' :
  reachable N limit kind s → run N limit kind sch s = Some s' →
  reachable N limit kind s'.
Proof.
  revert s. induction sch as [|a sch IH]; intros s Hs; simpl.
  - by intros [= <-].
  - destruct (exec a s) as [s1|] eqn:Ha; [|done].
    apply IH. eapply reach_step; [done|by exists a].
Qed.

Lemma reachable_run s :
  reachable N limit kind s → ∃ sch, run N limit kind sch (init N) = Some s.
Proof.
  induction 1 as [|s s' _ [sch IH] [a Ha]].
  - by exists [].
  - exists (sch ++ [a]). rewrite run_app, IH. simpl. by rewrite Ha.
Qed.

Lemma run_inv sch s s' : Inv s → run N limit kind sch s = Some s' → Inv s'.
Proof.
  revert s. induction sch as [|a sch IH]; intros s Hs; simpl.
  - by intros [= <-].
  - destruct (exec a s) as [s1|] eqn:Ha; [|done].
    apply IH. by eapply exec_inv.
Qed.

(** *** The potential decreases with every statement *)

#[local] Abbreviation weight := (weight N).
#[local] Abbreviation potential := (potential N limit).

Lemma sum_weight_insert (p : list loc) i l l' :
  p !! i = Some l →
  (sum_list (weight <$> <[i:=l']> p) + weight l
   = sum_list (weight <$> p) + weight l')%nat.
Proof.
  revert i. induction p as [|x p IH]; intros [|i] Hi; simplify_eq/=; [lia|].
  specialize (IH _ Hi). lia.
Qed.

Lemma sum_weight_wake (p : list loc) :
  (sum_list (weight <$> (wake <$> p)) ≤ sum_list (weight <$> p) + 2 * length p)%nat.
Proof.
  induction p as [|x p IH]; [simpl; lia|].
  assert (weight (wake x) ≤ weight x + 2)%nat as Hx by (destruct x; simpl; lia).
  rewrite !fmap_cons. revert Hx.
  generalize (weight (wake x)), (weight x). intros a b Hx. simpl. lia.
Qed.

Lemma thread_step_potential s i s' :
  Inv s → thread_step N limit kind i s = Some s' →
  (potential s' < potential s)%nat.
Proof.
  intros HI. unfold thread_step.
  destruct (pcs s !! i) as [l|] eqn:Hi; [|done].
  assert (crit l = true → lock s = Some i) as Hcm by (eapply inv_crit; eauto).
  pose proof (inv_range _ _ _ _ HI) as Hr.
  unfold CV.potential.
  destruct l; try done.
  - destruct (lock s); [done|]. intros [= <-]; simpl.
    pose proof (sum_weight_insert _ _ _ L_guard Hi). simpl in *. lia.
  - destruct (_ && _); intros [= <-]; simpl.
    + pose proof (sum_weight_insert _ _ _ L_wait Hi). simpl in *. lia.
    + pose proof (sum_weight_insert _ _ _ L_limit Hi). simpl in *. lia.
  - destruct (lock s); [done|]. intros [= <-]; simpl.
    pose proof (sum_weight_insert _ _ _ L_guard Hi). simpl in *. lia.
  - destruct (_ <? _); intros [= <-]; simpl.
    + pose proof (sum_weight_insert _ _ _ L_done Hi). simpl in *. lia.
    + pose proof (sum_weight_insert _ _ _ L_print Hi). simpl in *. lia.
  - intros [= <-]; simpl.
    pose proof (sum_weight_insert _ _ _ L_incr Hi). simpl in *. lia.
  - assert (lock s = Some i) as Hm by auto.
    old_phase HI Hm Hi. destruct Hph as (Hmo & Hc & Hph & Hout).
    intros [= <-]; simpl.
    rewrite wrap_int_small by (unfold INT_MAX in *; lia).
    pose proof (sum_weight_insert _ _ _ L_turn Hi) as Hs. simpl in Hs.
    replace (Z.to_nat (limit + 1 - counter s))
      with (S (Z.to_nat (limit + 1 - (counter s + 1)))) by lia.
    lia.
  - intros [= <-]; simpl.
    pose proof (sum_weight_insert _ _ _ L_notify Hi). simpl in *. lia.
  - destruct kind.
    + destruct (decide _); [done|]. intros [= <-]; simpl.
      pose proof (sum_weight_insert _ _ _ L_unlock Hi). simpl in *. lia.
    + intros [= <-]; simpl.
      assert ((wake <$> pcs s) !! i = Some L_notify) as Hi'
        by (by rewrite list_lookup_fmap, Hi).
      pose proof (sum_weight_insert _ _ _ L_unlock Hi') as Hs.
      pose proof (sum_weight_wake (pcs s)) as Hw.
      rewrite (inv_len _ _ _ _ HI) in Hw. simpl in *. lia.
  - intros [= <-]; simpl.
    pose proof (sum_weight_insert _ _ _ L_lock Hi). simpl in *. lia.
Qed.

Lemma wake_step_potential s i w s' :
  Inv s → wake_step kind i w s = Some s' → (potential s' < potential s)%nat.
Proof.
  intros HI. unfold wake_step.
  destruct kind; [|done].
  destruct (pcs s !! i) as [l|] eqn:Hi; [|done].
  destruct l; try done.
  destruct (pcs s !! w) as [l|] eqn:Hw; [|done].
  destruct l; try done. intros [= <-].
  assert (i ≠ w) as Hne by (intros ->; by simplify_eq).
  assert (<[w:=L_woken]> (pcs s) !! i = Some L_notify) as Hi'
    by (by rewrite list_lookup_insert_ne).
  unfold CV.potential; simpl.
  pose proof (sum_weight_insert _ _ _ L_woken Hw).
  pose proof (sum_weight_insert _ _ _ L_unlock Hi').
  simpl in *. lia.
Qed.

Lemma main_step_potential s s' :
  Inv s → main_step N s = Some s' → (potential s' < potential s)%nat.
Proof.
  intros HI. unfold main_step.
  pose proof (inv_main _ _ _ _ HI) as Hmain. unfold main_ok in Hmain.
  unfold CV.potential.
  destruct (mpc s) as [k|k|] eqn:Hmpc; [| |done].
  - destruct Hmain as [Hk Hmain].
    destruct (decide _); [|done]. intros [= <-].
    assert (k < length (pcs s))%nat as Hlt by (by rewrite (inv_len _ _ _ _ HI)).
    destruct (lookup_lt_is_Some_2 _ _ Hlt) as [l0 Hl].
    assert (l0 = L_unborn) as -> by (by apply (Hmain _ _ Hl)).
    pose proof (sum_weight_insert _ _ _ L_lock Hl) as Hs.
    simpl. destruct (decide _); simpl in *; lia.
  - destruct Hmain as (Hk & _).
    destruct (pcs s !! k) as [l|] eqn:Hl; [|done].
    destruct l; try done. intros [= <-]; simpl.
    destruct (decide _); simpl in *; lia.
Qed.

Lemma exec_potential a s s' :
  Inv s → proper a = true → exec a s = Some s' → (potential s' < potential s)%nat.
Proof.
  destruct a; simpl; try done;
    eauto using main_step_potential, thread_step_potential, wake_step_potential.
Qed.

(** A schedule without spurious wake-ups is no longer than the potential of
    the state it starts in. *)
Lemma run_bounded sch s s' :
  Inv s → proper_schedule sch → run N limit kind sch s = Some s' →
  (length sch + potential s' ≤ potential s)%nat.
Proof.
  revert s. induction sch as [|a sch IH]; intros s HI Hp; simpl.
  - intros [= <-]. lia.
  - destruct (exec a s) as [s1|] eqn:Ha; [|done]. intros Hrun.
    apply Forall_cons_1 in Hp as [Hpa Hp].
    pose proof (exec_potential _ _ _ HI Hpa Ha).
    pose proof (exec_inv _ _ _ HI Ha) as HI1.
    specialize (IH _ HI1 Hp Hrun). lia.
Qed.

(** *** Blocked threads keep a true wait condition *)

Section Wakeups.

(** Either every blocked thread is woken by the wake-up call, or there are
    two threads, so that at most one can be blocked when the other calls
    [pthread_cond_signal]. *)
Hypothesis Hkind : kind = Broadcast ∨ N = 2%nat.

#[local] Abbreviation Live := (Live limit).

Lemma init_live : Live (init N).
Proof.
  unfold CV.Live, hloc; simpl. intros w [? _]%lookup_replicate. done.
Qed.

Ltac old_live HL Hm Hi :=
  unfold CV.Live in HL;
  first [ rewrite (hloc_at _ _ _ Hm Hi) in HL
        | rewrite (hloc_free _ Hm) in HL ].

Ltac new_live i l :=
  unfold CV.Live;
  rewrite ?(hloc_at _ i l) by (simpl; first [done | by rewrite list_lookup_insert_eq]);
  rewrite ?hloc_free by done;
  simpl.

Ltac waiters HL :=
  let w := fresh "w" in let Hw := fresh "Hw" in
  intros w Hw; split_lookup Hw; try done; try (by apply HL).

Lemma thread_step_live s i s' :
  Inv s → Live s → thread_step N limit kind i s = Some s' → Live s'.
Proof.
  intros HI HL. unfold thread_step.
  destruct (pcs s !! i) as [l|] eqn:Hi; [|done].
  assert (i < length (pcs s))%nat as Hlt by eauto using lookup_lt_Some.
  assert (crit l = true → lock s = Some i) as Hcm by (eapply inv_crit; eauto).
  destruct l; try done.
  - destruct (lock s) eqn:Hm; [done|]. intros [= <-].
    old_live HL Hm Hi. new_live i L_guard. waiters HL.
  - assert (lock s = Some i) as Hm by auto.
    old_live HL Hm Hi.
    destruct (_ && _) eqn:Hg; intros [= <-].
    + apply andb_true_iff in Hg as [Hg1 Hg2].
      apply negb_true_iff, Nat.eqb_neq in Hg1. apply Z.leb_le in Hg2.
      new_live i L_wait. waiters HL.
    + new_live i L_limit. waiters HL.
  - destruct (lock s) eqn:Hm; [done|]. intros [= <-].
    old_live HL Hm Hi. new_live i L_guard. waiters HL.
  - assert (lock s = Some i) as Hm by auto.
    old_live HL Hm Hi.
    destruct (_ <? _) eqn:Hg; intros [= <-].
    + new_live i L_done. waiters HL.
    + new_live i L_print. waiters HL.
  - assert (lock s = Some i) as Hm by auto.
    old_live HL Hm Hi. intros [= <-].
    new_live i L_incr. waiters HL.
  - assert (lock s = Some i) as Hm by auto.
    old_live HL Hm Hi. intros [= <-].
    new_live i L_turn. waiters HL.
  - assert (lock s = Some i) as Hm by auto.
    old_live HL Hm Hi. intros [= <-].
    new_live i L_notify. done.
  - assert (lock s = Some i) as Hm by auto.
    old_live HL Hm Hi.
    destruct kind eqn:Hk.
    + destruct (decide _) as [|Hnw]; [done|]. intros [= <-].
      new_live i L_unlock. intros w Hw. split_lookup Hw.
      destruct Hnw. by eapply list_elem_of_lookup_2.
    + intros [= <-].
      unfold CV.Live. rewrite (hloc_at _ i L_unlock);
        [|done|by simpl; rewrite list_lookup_insert_eq by (by rewrite length_fmap)].
      simpl. intros w Hw. split_lookup Hw.
      rewrite list_lookup_fmap in Hw.
      destruct (pcs s !! w) as [[]|]; simplify_eq/=.
  - assert (lock s = Some i) as Hm by auto.
    old_live HL Hm Hi. intros [= <-].
    new_live i L_lock. waiters HL.
Qed.

Lemma hloc_bystander s s' i l :
  Inv s → pcs s !! i = Some l → crit l = false →
  lock s' = lock s → (∃ l', pcs s' = <[i:=l']> (pcs s)) → hloc s' = hloc s.
Proof.
  intros HI Hi Hc Hm [l' Hp]. unfold hloc. rewrite Hm, Hp.
  destruct (lock s) as [h|] eqn:Hh; [|done].
  destruct (inv_held _ _ _ _ HI _ Hh) as (lh & Hlh & Hch).
  rewrite list_lookup_insert_ne; [done|]. intros ->. simplify_eq. congruence.
Qed.

Lemma live_bystander s s' i l l' :
  Inv s → Live s → pcs s !! i = Some l → crit l = false → l' ≠ L_wait →
  lock s' = lock s → pcs s' = <[i:=l']> (pcs s) →
  owner s' = owner s → counter s' = counter s → Live s'.
Proof.
  intros HI HL Hi Hc Hl' Hm Hp Ho Hcn. unfold CV.Live in *.
  rewrite (hloc_bystander s s' i l) by eauto.
  rewrite Ho, Hcn, Hp.
  destruct (hloc s); try done; intros w Hw; split_lookup Hw; by apply HL.
Qed.

Lemma spurious_step_live s i s' :
  Inv s → Live s → spurious_step i s = Some s' → Live s'.
Proof.
  intros HI HL. unfold spurious_step.
  destruct (pcs s !! i) as [l|] eqn:Hi; [|done].
  destruct l; try done. intros [= <-].
  by eapply (live_bystander s _ i L_wait L_woken).
Qed.

Lemma main_step_live s s' :
  Inv s → Live s → main_step N s = Some s' → Live s'.
Proof.
  intros HI HL. unfold main_step.
  pose proof (inv_main _ _ _ _ HI) as Hmain. unfold main_ok in Hmain.
  destruct (mpc s) as [k|k|] eqn:Hmpc; [| |done].
  - destruct Hmain as [Hk Hmain].
    destruct (decide _); [|done]. intros [= <-].
    assert (k < length (pcs s))%nat as Hlt by (by rewrite (inv_len _ _ _ _ HI)).
    destruct (lookup_lt_is_Some_2 _ _ Hlt) as [l0 Hl].
    assert (l0 = L_unborn) as -> by (by apply (Hmain _ _ Hl)).
    by eapply (live_bystander s _ k L_unborn L_lock).
  - destruct (pcs s !! k) as [l|] eqn:Hl; [|done].
    destruct l; try done. by intros [= <-].
Qed.

Lemma wake_step_live s i w s' :
  Inv s → Live s → wake_step kind i w s = Some s' → Live s'.
Proof.
  intros HI HL. unfold wake_step.
  destruct Hkind as [Hk|HN2]; [by rewrite Hk|].
  destruct kind eqn:Hk; [|done].
  destruct (pcs s !! i) as [l|] eqn:Hi; [|done].
  destruct l; try done.
  destruct (pcs s !! w) as [l|] eqn:Hw; [|done].
  destruct l; try done. intros [= <-].
  assert (i ≠ w) as Hne by (intros ->; by simplify_eq).
  assert (i < length (pcs s))%nat as Hlt by eauto using lookup_lt_Some.
  assert (w < length (pcs s))%nat as Hlt' by eauto using lookup_lt_Some.
  assert (lock s = Some i) as Hm by (by eapply (inv_crit _ _ _ _ HI)).
  unfold CV.Live. rewrite (hloc_at _ i L_unlock);
    [|done|by simpl; rewrite list_lookup_insert_eq by (by rewrite length_insert)].
  simpl. intros j Hj. split_lookup Hj. split_lookup Hj.
  apply lookup_lt_Some in Hj. rewrite (inv_len _ _ _ _ HI) in *. lia.
Qed.

Lemma exec_live a s s' : Inv s → Live s → exec a s = Some s' → Live s'.
Proof.
  destruct a; simpl;
    eauto using main_step_live, thread_step_live, wake_step_live, spurious_step_live.
Qed.

Lemma reachable_live s : reachable N limit kind s → Live s.
Proof.
  induction 1 as [|s s' Hs IH [a Ha]]; [apply init_live|].
  eapply exec_live; eauto using reachable_inv.
Qed.

(** *** No reachable state is stuck before the end *)

Lemma holder_enabled s h l :
  pcs s !! h = Some l → crit l = true →
  ∃ a s', proper a = true ∧ exec a s = Some s'.
Proof.
  intros Hl Hc.
  destruct (decide (l = L_notify ∧ kind = Signal ∧ L_wait ∈ pcs s))
    as [(-> & Hk & [w Hw]%list_elem_of_lookup_1)|Hno].
  - exists (Wake h w). simpl. unfold wake_step. rewrite Hk, Hl, Hw. eauto.
  - exists (Run h). simpl. unfold thread_step. rewrite Hl.
    destruct l; try done; eauto.
    + destruct (_ && _); eauto.
    + destruct (_ <? _); eauto.
    + destruct kind eqn:Hk; eauto.
      destruct (decide _); eauto. destruct Hno. done.
Qed.

Lemma enabled_or_final s :
  Inv s → Live s →
  final N s ∨ ∃ a s', proper a = true ∧ exec a s = Some s'.
Proof.
  intros HI HL.
  pose proof (inv_main _ _ _ _ HI) as Hmain. unfold main_ok in Hmain.
  destruct (mpc s) as [k|k|] eqn:Hmpc.
  - right. exists Main. simpl. unfold main_step. rewrite Hmpc.
    destruct Hmain as [Hk _]. rewrite decide_True by done. eauto.
  - destruct Hmain as (Hk & Hnu & Hdn). right.
    destruct (lock s) as [h|] eqn:Hm.
    { destruct (inv_held _ _ _ _ HI _ Hm) as (l & Hl & Hc).
      by eapply holder_enabled. }
    assert (∀ i l, pcs s !! i = Some l → l = L_lock ∨ l = L_woken →
              ∃ a s', proper a = true ∧ exec a s = Some s') as Hacq.
    { intros i l Hl Hll. exists (Run i). simpl. unfold thread_step.
      rewrite Hl, Hm. destruct Hll as [-> | ->]; eauto. }
    assert (∀ i, (i < N)%nat →
              (∃ a s', proper a = true ∧ exec a s = Some s') ∨
              pcs s !! i = Some L_wait ∨ pcs s !! i = Some L_done) as Hcases.
    { intros i Hi. rewrite <-(inv_len _ _ _ _ HI) in Hi.
      destruct (lookup_lt_is_Some_2 _ _ Hi) as [l Hl].
      destruct (crit l) eqn:Hc.
      { pose proof (inv_crit _ _ _ _ HI _ _ Hl Hc). congruence. }
      destruct l; try done; eauto.
      by destruct (Hnu i). }
    destruct (Hcases k Hk) as [?|[Hw|Hd]]; [done| |].
    + unfold CV.Live in HL. rewrite (hloc_free _ Hm) in HL.
      destruct (HL _ Hw) as [Hok Hcl].
      destruct (Hcases _ (inv_owner _ _ _ _ HI)) as [?|[Hw'|Hd']]; [done| |].
      * by destruct (HL _ Hw').
      * pose proof (inv_done _ _ _ _ HI _ Hd'). lia.
    + exists Main. simpl. unfold main_step. rewrite Hmpc, Hd. eauto.
  - left. by split.
Qed.

(** From every state that satisfies the invariants, some schedule without
    spurious wake-ups runs the program to its end. *)
Lemma run_to_final s :
  Inv s → Live s →
  ∃ sch s', proper_schedule sch ∧ run N limit kind sch s = Some s' ∧ final N s'.
Proof.
  remember (potential s) as n eqn:Hn. revert s Hn.
  induction (lt_wf n) as [n _ IH]. intros s -> HI HL.
  destruct (enabled_or_final s HI HL) as [Hf|(a & s1 & Hp & Ha)].
  - exists [], s. split_and!; [constructor|done|done].
  - destruct (IH (potential s1)) with (s := s1) as (sch & s' & Hsch & Hrun & Hf).
    + by eapply exec_potential.
    + done.
    + by eapply exec_inv.
    + by eapply exec_live.
    + exists (a :: sch), s'. split_and!; [by constructor| |done].
      simpl. by rewrite Ha.
Qed.

End Wakeups.

(** *** What one statement does to the shared variables *)

Lemma exec_shared a s s' :
  exec a s = Some s' →
  (counter s' = counter s ∧ owner s' = owner s ∧ out s' = out s) ∨
  (∃ i, a = Run i ∧ pcs s !! i = Some L_print ∧ counter s' = counter s ∧
        owner s' = owner s ∧ out s' = out s ++ [(i, counter s)]) ∨
  (∃ i, a = Run i ∧ pcs s !! i = Some L_incr ∧
        counter s' = wrap_int (counter s + 1) ∧
        owner s' = owner s ∧ out s' = out s) ∨
  (∃ i, a = Run i ∧ pcs s !! i = Some L_turn ∧ counter s' = counter s ∧
        owner s' = ((i + 1) `mod` N)%nat ∧ out s' = out s).
Proof.
  destruct a as [|i|i w|i]; simpl.
  - unfold main_step. destruct (mpc s); [| |done].
    + destruct (decide _); [|done]. intros [= <-]. by left.
    + destruct (pcs s !! k) as [[]|]; try done. intros [= <-]. by left.
  - unfold thread_step. destruct (pcs s !! i) as [l|] eqn:Hi; [|done].
    destruct l; try done.
    + destruct (lock s); [done|]. intros [= <-]. by left.
    + destruct (_ && _); intros [= <-]; by left.
    + destruct (lock s); [done|]. intros [= <-]. by left.
    + destruct (_ <? _); intros [= <-]; by left.
    + intros [= <-]. right; left. by exists i.
    + intros [= <-]. right; right; left. by exists i.
    + intros [= <-]. right; right; right. by exists i.
    + destruct kind; [destruct (decide _); [done|]|]; intros [= <-]; by left.
    + intros [= <-]. by left.
  - unfold wake_step. destruct kind; [|done].
    destruct (pcs s !! i) as [[]|]; try done.
    destruct (pcs s !! w) as [[]|]; try done. intros [= <-]. by left.
  - unfold spurious_step. destruct (pcs s !! i) as [[]|]; try done.
    intros [= <-]. by left.
Qed.

Lemma at_incr s i : Inv s → pcs s !! i = Some L_incr → owner s = i ∧ counter s ≤ limit.
Proof.
  intros HI Hi.
  assert (lock s = Some i) as Hm by (by eapply (inv_crit _ _ _ _ HI)).
  old_phase HI Hm Hi. destruct Hph as (Hmo & Hc & _). split; [congruence|done].
Qed.

Lemma at_print s i : Inv s → pcs s !! i = Some L_print → owner s = i ∧ counter s ≤ limit.
Proof.
  intros HI Hi.
  assert (lock s = Some i) as Hm by (by eapply (inv_crit _ _ _ _ HI)).
  old_phase HI Hm Hi. destruct Hph as (Hmo & Hc & _). split; [congruence|done].
Qed.

Lemma at_turn s i : Inv s → pcs s !! i = Some L_turn → owner s = i.
Proof.
  intros HI Hi.
  assert (lock s = Some i) as Hm by (by eapply (inv_crit _ _ _ _ HI)).
  old_phase HI Hm Hi. destruct Hph as (Hmo & _). congruence.
Qed.

Lemma exec_counter a s s' :
  Inv s → exec a s = Some s' →
  counter s' = counter s ∨ (counter s ≤ limit ∧ counter s' = counter s + 1).
Proof.
  intros HI Ha.
  destruct (exec_shared _ _ _ Ha)
    as [(-> & _)|[(i & _ & _ & -> & _)|[(i & _ & Hi & -> & _)|(i & _ & _ & -> & _)]]];
    try by left.
  destruct (at_incr _ _ HI Hi) as [_ Hc]. right.
  pose proof (inv_range _ _ _ _ HI).
  rewrite wrap_int_small by (unfold INT_MAX in *; lia). done.
Qed.

Lemma run_counter_mono sch s s' :
  Inv s → run N limit kind sch s = Some s' → counter s ≤ counter s'.
Proof.
  revert s. induction sch as [|a sch IH]; intros s HI; simpl.
  - intros [= <-]. lia.
  - destruct (exec a s) as [s1|] eqn:Ha; [|done]. intros Hrun.
    pose proof (exec_counter _ _ _ HI Ha).
    pose proof (IH _ (exec_inv _ _ _ HI Ha) Hrun). lia.
Qed.

Lemma terminal_hits_run sch s s' :
  Inv s → run N limit kind sch s = Some s' →
  terminal_hits N limit kind sch s
  = if decide (counter s ≠ limit + 1 ∧ counter s' = limit + 1) then 1%nat else 0%nat.
Proof.
  revert s. induction sch as [|a sch IH]; intros s HI; simpl.
  - intros [= <-]. rewrite decide_False; [done|]. intros []. done.
  - destruct (exec a s) as [s1|] eqn:Ha; [|done]. intros Hrun.
    pose proof (exec_counter _ _ _ HI Ha) as Hc.
    pose proof (exec_inv _ _ _ HI Ha) as HI1.
    pose proof (run_counter_mono _ _ _ HI1 Hrun) as Hmono.
    pose proof (inv_range _ _ _ _ (run_inv _ _ _ HI1 Hrun)) as Hr.
    rewrite (IH _ HI1 Hrun).
    repeat case_bool_decide; repeat case_decide; lia.
Qed.

(** *** What one statement does to the control point of a thread *)

Lemma exec_frame a s s' i l :
  Inv s → exec a s = Some s' → pcs s !! i = Some l →
  pcs s' !! i = Some l ∨
  (l = L_wait ∧ pcs s' !! i = Some L_woken) ∨
  (l = L_unborn ∧ a = Main ∧ pcs s' !! i = Some L_lock) ∨
  (a = Run i ∨ ∃ w, a = Wake i w).
Proof.
  intros HI Ha Hi.
  assert (i < length (pcs s))%nat as Hlt by eauto using lookup_lt_Some.
  destruct a as [|j|j w|j]; simpl in Ha.
  - unfold main_step in Ha.
    pose proof (inv_main _ _ _ _ HI) as Hmain. unfold main_ok in Hmain.
    destruct (mpc s) as [k|k|]; [| |done].
    + destruct (decide _); [|done]. simplify_eq/=.
      destruct (decide (k = i)) as [->|Hne].
      * right; right; left. rewrite list_lookup_insert_eq by done.
        destruct Hmain as [_ Hmain]. split_and!; try done.
        by apply (Hmain _ _ Hi).
      * left. by rewrite list_lookup_insert_ne.
    + destruct (pcs s !! k) as [[]|]; simplify_eq/=. by left.
  - destruct (decide (j = i)) as [->|Hne]; [by right; right; right; left|].
    unfold thread_step in Ha.
    destruct (pcs s !! j) as [lj|] eqn:Hj; [|done].
    destruct kind; destruct lj; try done;
      repeat match goal with
             | H : context [match lock s with _ => _ end] |- _ => destruct (lock s)
             | H : context [if ?b then _ else _] |- _ => destruct b
             end; simplify_eq/=;
      try (left; by rewrite list_lookup_insert_ne).
    rewrite list_lookup_insert_ne, list_lookup_fmap, Hi by done. simpl.
    destruct l; simpl; auto.
  - destruct (decide (j = i)) as [->|Hne]; [right; right; right; right; by exists w|].
    unfold wake_step in Ha. destruct kind; [|done].
    destruct (pcs s !! j) as [[]|] eqn:Hj; try done.
    destruct (pcs s !! w) as [[]|] eqn:Hw; try done. simplify_eq/=.
    rewrite list_lookup_insert_ne by done.
    destruct (decide (w = i)) as [->|Hne'].
    + right; left. rewrite list_lookup_insert_eq by done. split; congruence.
    + left. by rewrite list_lookup_insert_ne.
  - unfold spurious_step in Ha.
    destruct (pcs s !! j) as [[]|] eqn:Hj; try done. simplify_eq/=.
    destruct (decide (j = i)) as [->|Hne].
    + right; left. rewrite list_lookup_insert_eq by done. split; congruence.
    + left. by rewrite list_lookup_insert_ne.
Qed.

(** *** A thread inside the critical section is not disturbed *)

Lemma mutual_exclusion s i j li lj :
  Inv s → pcs s !! i = Some li → pcs s !! j = Some lj →
  crit li = true → crit lj = true → i = j.
Proof.
  intros HI Hi Hj Hci Hcj.
  pose proof (inv_crit _ _ _ _ HI _ _ Hi Hci).
  pose proof (inv_crit _ _ _ _ HI _ _ Hj Hcj). congruence.
Qed.

Lemma exec_other a s s' i l :
  Inv s → pcs s !! i = Some l → crit l = true → other_than i a →
  exec a s = Some s' →
  counter s' = counter s ∧ owner s' = owner s ∧ out s' = out s ∧
  pcs s' !! i = Some l.
Proof.
  intros HI Hi Hc Ho Ha.
  assert (∀ j lj, a = Run j → pcs s !! j = Some lj → crit lj = true → False) as Hno.
  { intros j lj -> Hj Hcj. simpl in Ho.
    by pose proof (mutual_exclusion _ _ _ _ _ HI Hi Hj Hc Hcj). }
  split_and!.
  - destruct (exec_shared _ _ _ Ha) as [(? & _)|[(j & ? & ? & _)|[(j & ? & ? & _)|(j & ? & ? & _)]]];
      [done|by edestruct Hno..].
  - destruct (exec_shared _ _ _ Ha) as [(_ & ? & _)|[(j & ? & ? & _)|[(j & ? & ? & _)|(j & ? & ? & _)]]];
      [done|by edestruct Hno..].
  - destruct (exec_shared _ _ _ Ha) as [(_ & _ & ?)|[(j & ? & ? & _)|[(j & ? & ? & _)|(j & ? & ? & _)]]];
      [done|by edestruct Hno..].
  - destruct (exec_frame _ _ _ _ _ HI Ha Hi) as [?|[[-> _]|[(-> & _)|[->|[w ->]]]]];
      try done; simpl in Ho; done.
Qed.

Lemma run_others sch s s' i l :
  Inv s → pcs s !! i = Some l → crit l = true → Forall (other_than i) sch →
  run N limit kind sch s = Some s' →
  counter s' = counter s ∧ owner s' = owner s ∧ out s' = out s ∧
  pcs s' !! i = Some l.
Proof.
  revert s. induction sch as [|a sch IH]; intros s HI Hi Hc Ho; simpl.
  - by intros [= <-].
  - destruct (exec a s) as [s1|] eqn:Ha; [|done]. intros Hrun.
    apply Forall_cons_1 in Ho as [Hoa Ho].
    destruct (exec_other _ _ _ _ _ HI Hi Hc Hoa Ha) as (Hc1 & Hw1 & Hu1 & Hi1).
    destruct (IH s1) as (? & ? & ? & ?); eauto using exec_inv.
    split_and!; congruence.
Qed.

(** One complete step of thread [i]: its [printf], [counter++] and turn
    assignment, with statements of main and of other threads in between. *)
Lemma complete_step s i sch1 sch2 sch3 s' :
  Inv s → pcs s !! i = Some L_print →
  Forall (other_than i) sch1 → Forall (other_than i) sch2 →
  Forall (other_than i) sch3 →
  run N limit kind (sch1 ++ Run i :: sch2 ++ Run i :: sch3 ++ [Run i]) s = Some s' →
  counter s' = counter s + 1 ∧ owner s' = ((i + 1) `mod` N)%nat ∧
  out s' = out s ++ [(i, counter s)] ∧ pcs s' !! i = Some L_notify.
Proof.
  intros HI Hi Ho1 Ho2 Ho3.
  rewrite run_app.
  destruct (run N limit kind sch1 s) as [s1|] eqn:H1; [|done]. simpl.
  destruct (run_others _ _ _ _ _ HI Hi eq_refl Ho1 H1) as (Hc1 & Hw1 & Hu1 & Hi1).
  pose proof (run_inv _ _ _ HI H1) as HI1.
  unfold thread_step at 1. rewrite Hi1.
  assert (i < length (pcs s1))%nat as Hlt1 by eauto using lookup_lt_Some.
  set (s2 := set_pc i L_incr (emit (i, counter s1) s1)).
  assert (exec (Run i) s1 = Some s2) as Hx2
    by (simpl; unfold thread_step; by rewrite Hi1).
  pose proof (exec_inv _ _ _ HI1 Hx2) as HI2.
  assert (pcs s2 !! i = Some L_incr) as Hi2
    by (by simpl; rewrite list_lookup_insert_eq).
  rewrite run_app.
  destruct (run N limit kind sch2 s2) as [s3|] eqn:H3; [|done]. simpl.
  destruct (run_others _ _ _ _ _ HI2 Hi2 eq_refl Ho2 H3) as (Hc3 & Hw3 & Hu3 & Hi3).
  pose proof (run_inv _ _ _ HI2 H3) as HI3.
  unfold thread_step at 1. rewrite Hi3.
  assert (i < length (pcs s3))%nat as Hlt3 by eauto using lookup_lt_Some.
  set (s4 := set_pc i L_turn (set_counter (wrap_int (counter s3 + 1)) s3)).
  assert (exec (Run i) s3 = Some s4) as Hx4
    by (simpl; unfold thread_step; by rewrite Hi3).
  pose proof (exec_inv _ _ _ HI3 Hx4) as HI4.
  assert (pcs s4 !! i = Some L_turn) as Hi4
    by (by simpl; rewrite list_lookup_insert_eq).
  rewrite run_app.
  destruct (run N limit kind sch3 s4) as [s5|] eqn:H5; [|done]. simpl.
  destruct (run_others _ _ _ _ _ HI4 Hi4 eq_refl Ho3 H5) as (Hc5 & Hw5 & Hu5 & Hi5).
  unfold thread_step. rewrite Hi5. intros [= <-]. simpl.
  assert (i < length (pcs s5))%nat as Hlt5 by eauto using lookup_lt_Some.
  destruct (at_incr _ _ HI3 Hi3) as [_ Hle].
  pose proof (inv_range _ _ _ _ HI3) as Hr.
  rewrite Hc5, Hu5. simpl. rewrite Hc3, Hu3. simpl. rewrite Hc1, Hu1.
  rewrite Hc3 in Hle, Hr. simpl in Hle, Hr. rewrite Hc1 in Hle, Hr.
  rewrite wrap_int_small by (unfold INT_MAX in *; lia).
  split_and!; try done. by apply list_lookup_insert_eq.
Qed.

(** *** Facts used by several properties below *)

Lemma reachable_out s :
  reachable N limit kind s →
  ∃ n, (n ≤ Z.to_nat limit)%nat ∧ out s = round_robin n.
Proof.
  intros HI%reachable_inv.
  pose proof (inv_phase _ _ _ _ HI) as Hph.
  pose proof (inv_range _ _ _ _ HI) as Hr.
  unfold CV.phase, done_steps in Hph.
  destruct (hloc s);
    try (exists (Z.to_nat (counter s - 1)); split; [lia|]; tauto).
  exists (S (Z.to_nat (counter s - 1))). split; [lia|tauto].
Qed.

Lemma final_counter s : Inv s → final N s → counter s = limit + 1.
Proof.
  intros HI [_ Hf].
  pose proof (inv_done _ _ _ _ HI _ (Hf 0%nat HN)).
  pose proof (inv_range _ _ _ _ HI). lia.
Qed.

Lemma final_free s : Inv s → final N s → lock s = None.
Proof.
  intros HI [_ Hf]. destruct (lock s) as [h|] eqn:Hm; [|done].
  destruct (inv_held _ _ _ _ HI _ Hm) as (l & Hl & Hc).
  assert (h < N)%nat as Hh.
  { apply lookup_lt_Some in Hl. by rewrite (inv_len _ _ _ _ HI) in Hl. }
  rewrite (Hf _ Hh) in Hl. by simplify_eq.
Qed.

Lemma final_out s :
  reachable N limit kind s → final N s → out s = round_robin (Z.to_nat limit).
Proof.
  intros HI%reachable_inv Hf.
  pose proof (inv_phase _ _ _ _ HI) as Hph.
  unfold CV.phase, done_steps in Hph.
  rewrite (hloc_free _ (final_free _ HI Hf)), (final_counter _ HI Hf) in Hph.
  destruct Hph as [_ ->]. f_equal. lia.
Qed.

Lemma round_robin_length n : length (round_robin n) = n.
Proof. unfold CV.round_robin. by rewrite length_fmap, length_seq. Qed.

Lemma round_robin_lookup n k r v :
  round_robin n !! k = Some (r, v) ↔
  (k < n)%nat ∧ r = (k `mod` N)%nat ∧ v = Z.of_nat k + 1.
Proof.
  unfold CV.round_robin. rewrite list_lookup_fmap. split.
  - destruct (seq 0 n !! k) as [k'|] eqn:Hk; [|done].
    apply lookup_seq in Hk as [-> ?]. simpl. intros [= <- <-]. done.
  - intros (Hk & -> & ->). by rewrite lookup_seq_lt.
Qed.

(** The last, partial round of the round-robin sequence. *)
Lemma round_robin_tail n :
  fst <$> drop (N * (n / N)) (round_robin n) = seq 0 (n `mod` N).
Proof.
  apply list_eq. intros j.
  rewrite list_lookup_fmap, lookup_drop.
  assert (n = N * (n / N) + n `mod` N)%nat as Hn by (apply Nat.div_mod_eq).
  pose proof (Nat.mod_upper_bound n N ltac:(lia)) as Hb.
  destruct (decide (j < n `mod` N)%nat) as [Hj|Hj].
  - rewrite lookup_seq_lt by done.
    assert (round_robin n !! (N * (n / N) + j)%nat
            = Some (((N * (n / N) + j) `mod` N)%nat, Z.of_nat (N * (n / N) + j) + 1))
      as -> by (apply round_robin_lookup; split_and!; [lia|done..]).
    simpl. f_equal.
    rewrite Nat.mul_comm, Nat.add_comm, Nat.Div0.mod_add.
    apply Nat.mod_small. lia.
  - rewrite lookup_seq_ge by lia.
    destruct (round_robin n !! (N * (n / N) + j)%nat) as [[r v]|] eqn:Hl; [|done].
    apply round_robin_lookup in Hl as (Hl & _). lia.
Qed.

(** *** The wake-up calls *)

Lemma filter_note_log k n :
  (n ≤ Z.to_nat limit)%nat →
  filter (λ e : notify * Z, snd e = limit + 1) (note_log k n)
  = if decide (n = Z.to_nat limit ∧ limit ≠ 0) then [(k, limit + 1)] else [].
Proof.
  induction n as [|n IH]; intros Hn.
  - simpl. rewrite decide_False; [done|]. lia.
  - rewrite note_log_S, list.filter_app, IH by lia.
    rewrite decide_False by lia. simpl.
    rewrite list.filter_cons, list.filter_nil. simpl.
    repeat case_decide; try done; try lia. do 2 f_equal. lia.
Qed.

Lemma final_terminal_notes s :
  Inv s → final N s →
  terminal_notes limit s
  = if decide (limit = 0) then [] else [(kind, limit + 1)].
Proof.
  intros HI Hf. unfold terminal_notes.
  rewrite (inv_notes _ _ _ _ HI). unfold notified, done_steps.
  rewrite (hloc_free _ (final_free _ HI Hf)), (final_counter _ HI Hf).
  rewrite filter_note_log by lia.
  repeat case_decide; try done; lia.
Qed.

Lemma notes_kind s e : Inv s → e ∈ notes s → fst e = kind.
Proof.
  intros HI. rewrite (inv_notes _ _ _ _ HI). unfold note_log.
  intros (k & -> & _)%list_elem_of_fmap. done.
Qed.

(** A statement that issues a wake-up call is the [L_notify] statement of
    some thread, and it leaves no thread blocked when the call reaches
    every blocked thread. *)
Lemma exec_notes a s s' :
  Inv s → exec a s = Some s' → notes s' ≠ notes s →
  ∃ i, pcs s !! i = Some L_notify ∧ pcs s' !! i = Some L_unlock ∧
       notes s' = notes s ++ [(kind, counter s)] ∧
       (kind = Broadcast ∨ N = 2%nat → ∀ j, pcs s' !! j ≠ Some L_wait).
Proof.
  intros HI Ha Hn.
  destruct a as [|i|i w|i]; simpl in Ha.
  - unfold main_step in Ha. destruct (mpc s); [| |done].
    + destruct (decide _); by simplify_eq/=.
    + destruct (pcs s !! k) as [[]|]; by simplify_eq/=.
  - unfold thread_step in Ha.
    destruct (pcs s !! i) as [l|] eqn:Hi; [|done].
    assert (i < length (pcs s))%nat as Hlt by eauto using lookup_lt_Some.
    destruct kind eqn:Hk; destruct l; try done;
      repeat match goal with
             | H : context [match lock s with _ => _ end] |- _ => destruct (lock s)
             | H : context [if ?b then _ else _] |- _ => destruct b
             end; simplify_eq/=.
    + exists i. split_and!; [done|by rewrite list_lookup_insert_eq|done|].
      intros _ j Hj. split_lookup Hj.
      match goal with H : L_wait ∉ _ |- _ => destruct H end.
      by eapply list_elem_of_lookup_2.
    + exists i. split_and!; [done| |done|].
      * rewrite list_lookup_insert_eq; [done|by rewrite length_fmap].
      * intros _ j Hj. split_lookup Hj. rewrite list_lookup_fmap in Hj.
        destruct (pcs s !! j) as [[]|]; simplify_eq/=.
  - unfold wake_step in Ha. destruct kind eqn:Hk; [|done].
    destruct (pcs s !! i) as [[]|] eqn:Hi; try done.
    destruct (pcs s !! w) as [[]|] eqn:Hw; try done. simplify_eq/=.
    assert (i ≠ w) as Hne by (intros ->; by simplify_eq).
    assert (i < length (pcs s))%nat as Hlt by eauto using lookup_lt_Some.
    exists i. split_and!; [done| |done|].
    + rewrite list_lookup_insert_eq; [done|by rewrite length_insert].
    + intros [?| HN2] j Hj; [done|]. split_lookup Hj. split_lookup Hj.
      apply lookup_lt_Some in Hj. apply lookup_lt_Some in Hw.
      rewrite (inv_len _ _ _ _ HI) in *. lia.
  - unfold spurious_step in Ha. destruct (pcs s !! i) as [[]|]; by simplify_eq/=.
Qed.

(** *** Every initial part of the output is printed at some point *)

Lemma run_out_length sch s s' n :
  run N limit kind sch s = Some s' →
  (length (out s) ≤ n ≤ length (out s'))%nat →
  ∃ sch1 s1, run N limit kind sch1 s = Some s1 ∧ length (out s1) = n.
Proof.
  revert s. induction sch as [|a sch IH]; intros s; simpl.
  - intros [= <-] Hn. exists [], s. split; [done|lia].
  - destruct (exec a s) as [s1|] eqn:Ha; [|done]. intros Hrun Hn.
    destruct (decide (n = length (out s))) as [->|Hne].
    { by exists [], s. }
    destruct (IH s1 Hrun) as (sch1 & s2 & Hrun1 & Hlen).
    { split; [|lia].
      destruct (exec_shared _ _ _ Ha)
        as [(_ & _ & ->)|[(i & _ & _ & _ & _ & ->)|[(i & _ & _ & _ & _ & ->)|(i & _ & _ & _ & _ & ->)]]];
        rewrite ?length_app; simpl; lia. }
    exists (a :: sch1), s2. split; [|done]. simpl. by rewrite Ha.
Qed.

Lemma drive_run fuel s :
  run N limit kind (fst (drive N limit kind fuel s)) s
  = Some (snd (drive N limit kind fuel s)).
Proof.
  revert s. induction fuel as [|fuel IH]; intros s; simpl; [done|].
  destruct (first_enabled N limit kind s) as [a|]; [|done].
  destruct (exec a s) as [s'|] eqn:Ha; [|done].
  specialize (IH s'). destruct (drive N limit kind fuel s') as [sch sf].
  simpl in *. by rewrite Ha.
Qed.

Lemma drive_reachable fuel :
  reachable N limit kind (snd (drive N limit kind fuel (init N))).
Proof. eapply run_reachable; [constructor|apply drive_run]. Qed.

End Safety.

End CVSafety.

(** ** Properties of the turn-taking scheduler *)

Module TurnTaking.
Import CV CVSafety.

Lemma demo_reachable : reachable 2 MAX Signal (snd demo).
Proof. apply drive_reachable. Qed.

Lemma demo_final : final 2 (snd demo).
Proof.
  split; [by vm_compute|].
  intros [|[|i]] Hi; [by vm_compute..|lia].
Qed.

Lemma demo_early_reachable : reachable 2 MAX Signal demo_early.
Proof.
  unfold demo_early.
  destruct (run 2 MAX Signal early_schedule (init 2)) as [s|] eqn:Hs; [|constructor].
  eapply run_reachable; [|apply drive_run].
  eapply run_reachable; [constructor|exact Hs].
Qed.

Lemma demo_early_final : final 2 demo_early.
Proof.
  split; [by vm_compute|].
  intros [|[|i]] Hi; [by vm_compute..|lia].
Qed.

Lemma MAX_range : 0 ≤ MAX < INT_MAX.
Proof. by vm_compute. Qed.

(** C1. The printed (role, value) pairs are, in every reachable state, an
    initial part of the round-robin sequence (role k mod N prints value k+1)
    of at most [limit] entries, and when all threads have returned they are
    exactly its first [limit] entries; for the two threads of the source
    with MAX = 100 the values are 1..100 in order, odd and even labels
    alternating, the odd one first. *)
Theorem round_robin_order N limit kind s :
  (2 ≤ N)%nat → 0 ≤ limit < INT_MAX → reachable N limit kind s →
  (∃ n, (n ≤ Z.to_nat limit)%nat ∧ out s = round_robin N n) ∧
  (final N s → out s = round_robin N (Z.to_nat limit)) ∧
  (N = 2%nat → limit = MAX → final N s →
     snd <$> out s = seqZ 1 100 ∧ cv_line <$> out s = expected_lines 100).
Proof.
  intros HN Hlim Hs.
  assert (0 < N)%nat as HN' by lia.
  split_and!.
  - by eapply reachable_out.
  - by eapply final_out.
  - intros -> -> Hf. rewrite (final_out 2 MAX kind HN' Hlim s Hs Hf).
    by vm_compute.
Qed.

Lemma round_robin_order_witness :
  out (snd demo) = round_robin 2 100 ∧
  snd <$> out (snd demo) = seqZ 1 100 ∧
  cv_line <$> out (snd demo) = expected_lines 100.
Proof.
  destruct (round_robin_order 2 MAX Signal (snd demo)) as (_ & Hf & Hm).
  - lia.
  - exact MAX_range.
  - exact demo_reachable.
  - split; [exact (Hf demo_final)|exact (Hm eq_refl eq_refl demo_final)].
Defined.

(** C2, as stated, fails on the source program: its complete run issues
    one wake-up call at the terminal transition, and that call is
    [pthread_cond_signal], not a notify-all. *)
Lemma terminal_wakeup_not_notify_all : ¬ notify_all_on_terminal 2 MAX Signal.
Proof.
  intros H. specialize (H (snd demo) demo_reachable demo_final).
  by vm_compute in H.
Qed.

(** C2, amended. In the source program (two threads, [pthread_cond_signal])
    every wake-up call is a notify-one issued by a thread at its l.29, and
    after it no thread is left blocked on the condition variable; a thread
    leaving through the limit check issues none. When both threads have
    returned, exactly one call was issued at the transition to
    [counter = limit + 1] (none when [limit] is 0, where there is no such
    transition). *)
Theorem terminal_wakeup_is_signal limit s :
  0 ≤ limit < INT_MAX → reachable 2 limit Signal s →
  (∀ e, e ∈ notes s → fst e = Signal) ∧
  (∀ a s', exec 2 limit Signal a s = Some s' → notes s' ≠ notes s →
     (∃ i, pcs s !! i = Some L_notify ∧ pcs s' !! i = Some L_unlock ∧
           notes s' = notes s ++ [(Signal, counter s)]) ∧
     ∀ j, pcs s' !! j ≠ Some L_wait) ∧
  (∀ i s', pcs s !! i = Some L_limit →
     exec 2 limit Signal (Run i) s = Some s' → notes s' = notes s) ∧
  (final 2 s →
     terminal_notes limit s = if decide (limit = 0) then [] else [(Signal, limit + 1)]).
Proof.
  intros Hlim Hs.
  assert (0 < 2)%nat as HN' by lia.
  pose proof (reachable_inv 2 limit Signal HN' Hlim s Hs) as HI.
  split_and!.
  - intros e He. by eapply notes_kind.
  - intros a s' Ha Hn.
    destruct (exec_notes 2 limit Signal HN' a s s' HI Ha Hn) as (i & H1 & H2 & H3 & H4).
    split; [by exists i|]. apply H4. by right.
  - intros i s' Hi Ha. simpl in Ha. unfold thread_step in Ha. rewrite Hi in Ha.
    destruct (_ <? _); by simplify_eq/=.
  - intros Hf. by eapply final_terminal_notes.
Qed.

Lemma terminal_wakeup_is_signal_witness :
  terminal_notes MAX (snd demo) = [(Signal, 101)].
Proof.
  exact (proj2 (proj2 (proj2 (terminal_wakeup_is_signal MAX (snd demo)
                                MAX_range demo_reachable))) demo_final).
Defined.

(** C3. In every reachable state the turn variable names one of the N
    roles, only the thread of that role can get past its two conditions,
    and a thread at its [printf], [counter++] or turn assignment is that
    thread and is alone inside the critical section. A complete step
    (the three statements of thread i, with statements of main and of other
    threads in between) prints (i, counter), adds exactly one to the counter
    and hands the turn to role (i + 1) mod N. Whenever no thread is between
    its [printf] and its turn assignment, the turn is (counter - 1) mod N and
    counter - 1 lines are printed; the printed values are 1, 2, 3, ...
    without gap or repetition. *)
Theorem one_owner_one_step N limit kind s :
  (2 ≤ N)%nat → 0 ≤ limit < INT_MAX → reachable N limit kind s →
  (owner s < N)%nat ∧
  (∀ i, acts limit i s = true → i = owner s) ∧
  (counter s ≤ limit → acts limit (owner s) s = true) ∧
  (∀ i l, pcs s !! i = Some l → l = L_print ∨ l = L_incr ∨ l = L_turn →
     owner s = i ∧ ∀ j lj, pcs s !! j = Some lj → crit lj = true → j = i) ∧
  (∀ i sch1 sch2 sch3 s',
     pcs s !! i = Some L_print →
     Forall (other_than i) sch1 → Forall (other_than i) sch2 →
     Forall (other_than i) sch3 →
     run N limit kind (sch1 ++ Run i :: sch2 ++ Run i :: sch3 ++ [Run i]) s = Some s' →
     counter s' = counter s + 1 ∧ owner s' = ((i + 1) `mod` N)%nat ∧
     out s' = out s ++ [(i, counter s)]) ∧
  (hloc s ≠ L_incr → hloc s ≠ L_turn →
     owner s = (Z.to_nat (counter s - 1) `mod` N)%nat ∧
     Z.of_nat (length (out s)) = counter s - 1) ∧
  snd <$> out s = seqZ 1 (Z.of_nat (length (out s))).
Proof.
  intros HN Hlim Hs.
  assert (0 < N)%nat as HN' by lia.
  pose proof (reachable_inv N limit kind HN' Hlim s Hs) as HI.
  pose proof (inv_range _ _ _ _ HI) as Hr.
  split_and!.
  - apply HI.
  - unfold acts. intros i [H1 H2]%andb_true_iff.
    apply negb_true_iff, Z.ltb_ge in H2.
    apply negb_true_iff, andb_false_iff in H1 as [H1|H1].
    + by apply negb_false_iff, Nat.eqb_eq in H1.
    + apply Z.leb_gt in H1. lia.
  - intros Hc. unfold acts. rewrite Nat.eqb_refl. simpl.
    apply negb_true_iff, Z.ltb_ge. done.
  - intros i l Hi Hl.
    assert (crit l = true) as Hc by (by destruct Hl as [->|[->| ->]]).
    split.
    + destruct Hl as [->|[->| ->]];
        [by eapply at_print|by eapply at_incr|by eapply at_turn].
    + intros j lj Hj Hcj. by eapply mutual_exclusion.
  - intros i sch1 sch2 sch3 s' Hi H1 H2 H3 Hrun.
    destruct (complete_step N limit kind HN' Hlim s i sch1 sch2 sch3 s')
      as (? & ? & ? & _); done.
  - intros Hni Hnt. pose proof (inv_phase _ _ _ _ HI) as Hph.
    unfold phase, done_steps in Hph.
    destruct (hloc s); try done;
      match type of Hph with context [out s = ?r] =>
        assert (out s = r) as -> by tauto end;
      rewrite round_robin_length; split; try tauto; lia.
  - destruct (reachable_out N limit kind HN' Hlim s Hs) as (n & _ & ->).
    rewrite round_robin_length. unfold round_robin.
    rewrite <-list_fmap_compose. apply list_eq. intros k.
    rewrite list_lookup_fmap.
    destruct (decide (k < n)%nat).
    + rewrite lookup_seq_lt, lookup_seqZ_lt by lia. simpl. f_equal. lia.
    + by rewrite lookup_seq_ge, lookup_seqZ_ge by lia.
Qed.

Lemma one_owner_one_step_witness :
  let s := mkState 1 0 (Some 0%nat) [L_print; L_unborn] (M_create 1) [] [] in
  let s' := mkState 2 1 (Some 0%nat) [L_notify; L_lock] (M_join 0) [(0%nat, 1)] [] in
  run 2 MAX Signal [Main; Run 0; Run 0; Run 0]%nat (init 2) = Some s ∧
  run 2 MAX Signal [Main; Run 0; Run 0; Run 0]%nat s = Some s' ∧
  counter s' = counter s + 1 ∧ owner s' = ((0 + 1) `mod` 2)%nat ∧
  out s' = out s ++ [(0%nat, counter s)].
Proof.
  intros s s'.
  assert (run 2 MAX Signal [Main; Run 0; Run 0; Run 0]%nat (init 2) = Some s)
    as Hs by reflexivity.
  assert (run 2 MAX Signal [Main; Run 0; Run 0; Run 0]%nat s = Some s')
    as Hs' by reflexivity.
  split; [exact Hs|]. split; [exact Hs'|].
  destruct (one_owner_one_step 2 MAX Signal s ltac:(lia) MAX_range
              (run_reachable 2 MAX Signal _ _ _ (reach_init _ _ _) Hs))
    as (_ & _ & _ & _ & Hstep & _).
  exact (Hstep 0%nat [Main] [] [] s' eq_refl
           ltac:(repeat constructor) ltac:(constructor) ltac:(constructor) Hs').
Defined.

(** C4. From every reachable state, whatever the limit (0, or not a
    multiple of the number of roles), every schedule without spurious
    wake-ups has at most [potential] statements, a schedule that cannot be
    continued has run every thread to its return and main through its
    joins, and such a schedule exists. In the final state no thread is
    blocked, the lock is free, and the last partial round was printed by
    the roles 0 .. (limit mod N) - 1; with limit 0 nothing is ever printed.
    The wake-up call must reach every blocked thread: it is a broadcast, or
    there are two threads as in the source. *)
Theorem all_tasks_terminate N limit kind s :
  (2 ≤ N)%nat → 0 ≤ limit < INT_MAX → kind = Broadcast ∨ N = 2%nat →
  reachable N limit kind s →
  (∀ sch s', proper_schedule sch → run N limit kind sch s = Some s' →
     (length sch ≤ potential N limit s)%nat ∧
     ((∀ a, proper a = true → exec N limit kind a s' = None) → final N s')) ∧
  (∃ sch s', proper_schedule sch ∧ run N limit kind sch s = Some s' ∧ final N s') ∧
  (final N s →
     (∀ i, pcs s !! i ≠ Some L_wait) ∧ lock s = None ∧
     fst <$> drop (N * (Z.to_nat limit / N)) (out s)
     = seq 0 (Z.to_nat limit `mod` N)) ∧
  (limit = 0 → out s = []).
Proof.
  intros HN Hlim Hkind Hs.
  assert (0 < N)%nat as HN' by lia.
  pose proof (reachable_inv N limit kind HN' Hlim s Hs) as HI.
  pose proof (reachable_live N limit kind HN' Hlim Hkind s Hs) as HL.
  split_and!.
  - intros sch s' Hp Hrun. split.
    + pose proof (run_bounded N limit kind HN' Hlim sch s s' HI Hp Hrun). lia.
    + intros Hstuck.
      assert (reachable N limit kind s') as Hs' by (by eapply run_reachable).
      destruct (enabled_or_final N limit kind HN' Hkind s') as [?|(a & s2 & Hpa & Ha)];
        [by eapply reachable_inv|by eapply reachable_live|done|].
      rewrite (Hstuck a Hpa) in Ha. done.
  - by eapply run_to_final.
  - intros Hf. split_and!.
    + intros i Hi. destruct Hf as [_ Hf].
      apply lookup_lt_Some in Hi as Hlt. rewrite (inv_len _ _ _ _ HI) in Hlt.
      rewrite (Hf _ Hlt) in Hi. done.
    + by eapply final_free.
    + rewrite (final_out N limit kind HN' Hlim s Hs Hf).
      by apply round_robin_tail.
  - intros ->. destruct (reachable_out N 0 kind HN' Hlim s Hs) as (n & Hn & ->).
    by replace n with 0%nat by lia.
Qed.

Lemma all_tasks_terminate_witness :
  ∃ sch s', proper_schedule sch ∧
    run 2 MAX Signal sch (snd (drive 2 MAX Signal 12 (init 2))) = Some s' ∧
    final 2 s'.
Proof.
  exact (proj1 (proj2 (all_tasks_terminate 2 MAX Signal
                         (snd (drive 2 MAX Signal 12 (init 2)))
                         ltac:(lia) MAX_range (or_intror eq_refl)
                         (drive_reachable 2 MAX Signal 12)))).
Defined.

(** C5. Spurious wake-ups are among the scheduling decisions, and still a
    thread is at its [printf] only when it owns the turn and the counter is
    within the limit, and every printed line carries the role whose turn it
    was. A wake-up (spurious or not) only moves the thread to the point
    where it re-acquires the lock, leaving the shared variables alone;
    from there its only statement leads back to the wait condition, and a
    thread that finds the condition true blocks again. *)
Theorem spurious_wakeup_harmless N limit kind s :
  (2 ≤ N)%nat → 0 ≤ limit < INT_MAX → reachable N limit kind s →
  (∀ i, pcs s !! i = Some L_print → owner s = i ∧ counter s ≤ limit) ∧
  (∀ r v, (r, v) ∈ out s →
     1 ≤ v ≤ limit ∧ r = (Z.to_nat (v - 1) `mod` N)%nat) ∧
  (∀ i, pcs s !! i = Some L_wait →
     ∃ s', spurious_step i s = Some s' ∧ reachable N limit kind s' ∧
           pcs s' !! i = Some L_woken ∧
           counter s' = counter s ∧ owner s' = owner s ∧ out s' = out s) ∧
  (∀ i a s', pcs s !! i = Some L_woken → exec N limit kind a s = Some s' →
     pcs s' !! i = Some L_woken ∨ pcs s' !! i = Some L_guard) ∧
  (∀ i s', pcs s !! i = Some L_guard → exec N limit kind (Run i) s = Some s' →
     owner s ≠ i → counter s ≤ limit → pcs s' !! i = Some L_wait).
Proof.
  intros HN Hlim Hs.
  assert (0 < N)%nat as HN' by lia.
  pose proof (reachable_inv N limit kind HN' Hlim s Hs) as HI.
  split_and!.
  - intros i Hi. by eapply at_print.
  - intros r v [k Hk]%list_elem_of_lookup_1.
    destruct (reachable_out N limit kind HN' Hlim s Hs) as (n & Hn & Hout).
    rewrite Hout in Hk. apply round_robin_lookup in Hk as (Hkn & -> & ->).
    split; [lia|]. f_equal. lia.
  - intros i Hi. unfold spurious_step. rewrite Hi. eexists. split; [done|].
    assert (i < length (pcs s))%nat by eauto using lookup_lt_Some.
    split_and!; try done.
    + eapply reach_step; [done|]. exists (Spurious i). simpl.
      unfold spurious_step. by rewrite Hi.
    + simpl. by rewrite list_lookup_insert_eq.
  - intros i a s' Hi Ha.
    destruct (exec_frame _ _ _ _ _ _ _ _ HI Ha Hi)
      as [?|[[? _]|[(? & _)|[->|[w ->]]]]]; try done; [by left| |].
    + right. simpl in Ha. unfold thread_step in Ha. rewrite Hi in Ha.
      destruct (lock s); simplify_eq/=.
      apply list_lookup_insert_eq. eauto using lookup_lt_Some.
    + simpl in Ha. unfold wake_step in Ha. rewrite Hi in Ha.
      by destruct kind.
  - intros i s' Hi Ha Ho Hc. simpl in Ha. unfold thread_step in Ha.
    rewrite Hi in Ha.
    apply Nat.eqb_neq in Ho. apply Z.leb_le in Hc. rewrite Ho, Hc in Ha.
    simplify_eq/=. apply list_lookup_insert_eq. eauto using lookup_lt_Some.
Qed.

Lemma spurious_wakeup_harmless_witness :
  ∃ s', spurious_step 0 (snd (drive 2 MAX Signal 12 (init 2))) = Some s' ∧
        reachable 2 MAX Signal s' ∧ pcs s' !! 0%nat = Some L_woken ∧
        counter s' = 2 ∧ owner s' = 1%nat ∧ out s' = [(0%nat, 1)].
Proof.
  destruct (spurious_wakeup_harmless 2 MAX Signal
              (snd (drive 2 MAX Signal 12 (init 2))))
    as (_ & _ & Hsp & _).
  - lia.
  - exact MAX_range.
  - apply drive_reachable.
  - destruct (Hsp 0%nat eq_refl) as (s' & H1 & H2 & H3 & H4 & H5 & H6).
    exists s'. split_and!; [exact H1|exact H2|exact H3|exact H4|exact H5|exact H6].
Defined.

(** C6. [counter] stays between 1 and [limit + 1], every statement leaves
    it unchanged or adds exactly one to a value that is at most [limit],
    and when all threads have returned it is [limit + 1]; over a complete
    run the statement that sets it to [limit + 1] is run exactly once
    (never, when [limit] is 0 and the counter starts there). With MAX = 100
    the counter ends at 101. *)
Theorem counter_ends_past_limit N limit kind sch s :
  (2 ≤ N)%nat → 0 ≤ limit < INT_MAX →
  run N limit kind sch (init N) = Some s →
  1 ≤ counter s ≤ limit + 1 ∧
  (∀ a s', exec N limit kind a s = Some s' →
     counter s' = counter s ∨ (counter s ≤ limit ∧ counter s' = counter s + 1)) ∧
  (final N s →
     counter s = limit + 1 ∧
     terminal_hits N limit kind sch (init N)
     = if decide (limit = 0) then 0%nat else 1%nat) ∧
  (limit = MAX → final N s → counter s = 101).
Proof.
  intros HN Hlim Hrun.
  assert (0 < N)%nat as HN' by lia.
  pose proof (init_inv N limit kind HN' Hlim) as HI0.
  pose proof (run_inv N limit kind HN' Hlim _ _ _ HI0 Hrun) as HI.
  split_and!.
  - apply HI.
  - apply HI.
  - intros a s' Ha. by eapply exec_counter.
  - intros Hf. assert (counter s = limit + 1) as Hc by (by eapply final_counter).
    split; [done|].
    rewrite (terminal_hits_run N limit kind HN' Hlim _ _ _ HI0 Hrun).
    simpl. repeat case_decide; lia.
  - intros -> Hf. change 101 with (MAX + 1). by eapply final_counter.
Qed.

Lemma counter_ends_past_limit_witness :
  counter (snd demo) = 101 ∧
  terminal_hits 2 MAX Signal (fst demo) (init 2) = 1%nat.
Proof.
  destruct (counter_ends_past_limit 2 MAX Signal (fst demo) (snd demo))
    as (_ & _ & Hf & _).
  - lia.
  - exact MAX_range.
  - apply drive_run.
  - destruct (Hf demo_final) as [Hc Hh]. split; [exact Hc|exact Hh].
Defined.

(** C7. With at least two roles, no role prints two lines in a row: any
    two lines printed one after the other come from different roles. *)
Theorem no_role_twice_in_a_row N limit kind s k r v r' v' :
  (2 ≤ N)%nat → 0 ≤ limit < INT_MAX → reachable N limit kind s →
  out s !! k = Some (r, v) → out s !! S k = Some (r', v') → r ≠ r'.
Proof.
  intros HN Hlim Hs Hk Hk'.
  assert (0 < N)%nat as HN' by lia.
  destruct (reachable_out N limit kind HN' Hlim s Hs) as (n & _ & Hout).
  rewrite Hout in Hk, Hk'.
  apply round_robin_lookup in Hk as (_ & -> & _).
  apply round_robin_lookup in Hk' as (_ & -> & _).
  intros Heq.
  assert ((S k `mod` N = (k `mod` N + 1) `mod` N)%nat) as HS
    by (by rewrite succ_mod).
  pose proof (Nat.mod_upper_bound k N ltac:(lia)) as Hb.
  rewrite <-Heq in HS. revert HS Hb. generalize (k `mod` N)%nat. intros a HS Hb.
  destruct (decide (a + 1 < N)%nat).
  - rewrite Nat.mod_small in HS by lia. lia.
  - replace (a + 1)%nat with N in HS by lia.
    rewrite Nat.Div0.mod_same in HS. lia.
Qed.

Lemma no_role_twice_in_a_row_witness :
  out (snd demo) !! 41%nat = Some (1%nat, 42) ∧
  out (snd demo) !! 42%nat = Some (0%nat, 43) ∧ 1%nat ≠ 0%nat.
Proof.
  assert (out (snd demo) !! 41%nat = Some (1%nat, 42)) as H1 by (by vm_compute).
  assert (out (snd demo) !! 42%nat = Some (0%nat, 43)) as H2 by (by vm_compute).
  split_and!; [exact H1|exact H2|].
  exact (no_role_twice_in_a_row 2 MAX Signal (snd demo) 41 1 42 0 43
           ltac:(lia) MAX_range demo_reachable H1 H2).
Defined.

(** C8. The printed sequence does not depend on the scheduling: any two
    complete runs with the same number of roles and the same limit print
    the same sequence, which is a function of the two numbers alone, and
    of any two reachable states one has printed an initial part of what
    the other has printed. *)
Theorem output_deterministic N limit kind s1 s2 :
  (2 ≤ N)%nat → 0 ≤ limit < INT_MAX →
  reachable N limit kind s1 → reachable N limit kind s2 →
  (out s1 `prefix_of` out s2 ∨ out s2 `prefix_of` out s1) ∧
  (final N s1 → final N s2 →
     out s1 = out s2 ∧ out s1 = round_robin N (Z.to_nat limit)).
Proof.
  intros HN Hlim Hs1 Hs2.
  assert (0 < N)%nat as HN' by lia.
  split.
  - destruct (reachable_out N limit kind HN' Hlim s1 Hs1) as (n1 & _ & ->).
    destruct (reachable_out N limit kind HN' Hlim s2 Hs2) as (n2 & _ & ->).
    assert (∀ a b, (a ≤ b)%nat → round_robin N a `prefix_of` round_robin N b) as Hpre.
    { intros a b Hab. replace b with (a + (b - a))%nat by lia.
      unfold round_robin. rewrite seq_app, fmap_app. by apply prefix_app_r. }
    destruct (decide (n1 ≤ n2)%nat); [left|right]; apply Hpre; lia.
  - intros Hf1 Hf2.
    rewrite (final_out N limit kind HN' Hlim s1 Hs1 Hf1).
    by rewrite (final_out N limit kind HN' Hlim s2 Hs2 Hf2).
Qed.

Lemma output_deterministic_witness :
  out (snd demo) = out demo_early ∧
  out (snd demo) = round_robin 2 (Z.to_nat MAX).
Proof.
  exact (proj2 (output_deterministic 2 MAX Signal (snd demo) demo_early
                  ltac:(lia) MAX_range demo_reachable demo_early_reachable)
               demo_final demo_early_final).
Defined.

(** The source's boolean [is_odd_turn] against the turn of the model: the
    wait conditions of [print_odd] (role 0) and [print_even] (role 1), and
    the values they assign. *)
Lemma source_instance limit s :
  (owner s < 2)%nat →
  negb (is_odd_turn s) && (counter s <=? limit)
  = negb (Nat.eqb (owner s) 0) && (counter s <=? limit) ∧
  is_odd_turn s && (counter s <=? limit)
  = negb (Nat.eqb (owner s) 1) && (counter s <=? limit) ∧
  is_odd_turn (set_owner ((0 + 1) `mod` 2) s) = false ∧
  is_odd_turn (set_owner ((1 + 1) `mod` 2) s) = true.
Proof.
  unfold is_odd_turn. intros Ho.
  destruct (owner s) as [|[|o]]; [done..|lia].
Qed.

(** With three roles and [pthread_cond_signal] the program can block for
    ever: after [stray_wakeup] no statement can be run, and main has not
    returned. *)
Lemma signal_three_roles_can_block :
  ∃ s, run 3 MAX Signal stray_wakeup (init 3) = Some s ∧
       ¬ final 3 s ∧
       ∀ a, proper a = true → exec 3 MAX Signal a s = None.
Proof.
  eexists. split; [by vm_compute|]. split.
  - intros [Hm _]. done.
  - intros [|i|i w|i] Hp; [done| | |done].
    + destruct i as [|[|[|i]]]; done.
    + destruct i as [|[|[|i]]]; done.
Qed.

End TurnTaking.

(** ** Safety of the polling program *)

Module BSSafety.
Import BS.

Section Safety.

Variable limit : Z.
Hypothesis Hlim : 0 ≤ limit < INT_MAX.

#[local] Abbreviation Inv := (Inv limit).
#[local] Abbreviation exec := (exec limit).

Lemma expected_lines_S n :
  expected_lines (S n)
  = expected_lines n ++ [(if Nat.even n then Odd else Even, Z.of_nat n + 1)].
Proof. unfold expected_lines. by rewrite seq_S, fmap_app. Qed.

Lemma bs_hloc_at s i l : lock s = Some i → pcs s !! i = Some l → hloc s = l.
Proof. unfold hloc. by intros -> ->. Qed.

Lemma bs_hloc_free s : lock s = None → hloc s = B_lock.
Proof. unfold hloc. by intros ->. Qed.

Lemma bs_init_inv : Inv init.
Proof.
  constructor; simpl; try done.
  - intros [|[|i]] l; simpl; intros; by simplify_eq.
  - lia.
  - intros [|[|i]]; simpl; intros; by simplify_eq.
  - split; [lia|]. intros [|[|j]] l; simpl; intros; simplify_eq; split; (done || lia).
Qed.

#[local] Arguments Nat.modulo : simpl never.
#[local] Arguments Nat.even : simpl never.
#[local] Arguments Z.rem : simpl never.

Lemma bs_main_ok_set_pc s s' i l l' :
  main_ok s → pcs s !! i = Some l → l ≠ B_unborn → l ≠ B_done → l' ≠ B_unborn →
  mpc s' = mpc s → pcs s' = <[i:=l']> (pcs s) → main_ok s'.
Proof.
  unfold main_ok. intros Hok Hi Hu Hd Hu' -> ->.
  destruct (mpc s) as [k|k|].
  - destruct Hok as [Hk Hok]. split; [done|].
    intros j l0 [(? & ? & ?)|[? Hj]]%list_lookup_insert_Some; simplify_eq.
    + split; [done|]. intros Hkj. by apply (Hok _ _ Hi) in Hkj.
    + by apply Hok.
  - destruct Hok as (Hk & Hnu & Hdn). split_and!; [done|..].
    + intros j [(? & ? & ?)|[? Hj]]%list_lookup_insert_Some; simplify_eq.
      by apply (Hnu j).
    + intros j Hj. rewrite list_lookup_insert_ne; [by apply Hdn|].
      intros ->. specialize (Hdn _ Hj). congruence.
  - intros j Hj. rewrite list_lookup_insert_ne; [by apply Hok|].
    intros ->. specialize (Hok _ Hj). congruence.
Qed.

Ltac split_lookup H :=
  apply list_lookup_insert_Some in H as [(? & ? & ?)|[? H]]; simplify_eq.

Ltac old_phase HI Hm Hi :=
  let H := fresh "Hph" in
  pose proof (inv_phase _ _ HI) as H;
  unfold phase in H;
  first [ rewrite (bs_hloc_at _ _ _ Hm Hi) in H
        | rewrite (bs_hloc_free _ Hm) in H ];
  unfold turn_of, done_steps in H.

Ltac new_phase i l :=
  unfold phase;
  rewrite ?(bs_hloc_at _ i l) by (simpl; first [done | by rewrite list_lookup_insert_eq]);
  rewrite ?bs_hloc_free by done;
  unfold turn_of, done_steps; simpl.

Ltac fields HI Hm i l :=
  constructor; simpl; rewrite ?Hm;
  [ rewrite length_insert; apply HI
  | let j := fresh "j" in let l' := fresh "l" in
    let Hj := fresh "Hj" in let Hc := fresh "Hc" in
    intros j l' Hj Hc; split_lookup Hj; try done;
    pose proof (inv_crit _ _ HI _ _ Hj Hc); congruence
  | let j := fresh "j" in let Hj := fresh "Hj" in
    intros j Hj; simplify_eq; try (exists l; by rewrite list_lookup_insert_eq)
  | try apply HI
  | new_phase i l
  | let j := fresh "j" in let Hj := fresh "Hj" in
    intros j Hj; split_lookup Hj; try done; try (by eapply (inv_done _ _ HI))
  | try (eapply (bs_main_ok_set_pc _ _ i _ l); [exact (inv_main _ _ HI)|eassumption|done..]) ].

(** The thread whose parity the counter has is the one that prints. *)
Lemma parity_turn c i :
  1 ≤ c → (i < 2)%nat →
  (Z.rem c 2 =? 1) && truthy (is_odd i)
  || (Z.rem c 2 =? 0) && negb (truthy (is_odd i)) = true →
  i = (Z.to_nat (c - 1) `mod` 2)%nat.
Proof.
  intros Hc Hi Hb.
  rewrite Z.rem_mod_nonneg in Hb by lia.
  assert (Z.of_nat (Z.to_nat (c - 1) `mod` 2) = (c - 1) `mod` 2) as Hz
    by (rewrite Nat2Z.inj_mod; f_equal; lia).
  destruct i as [|[|i]]; [| |lia]; simpl in Hb.
  - rewrite andb_true_r, andb_false_r, orb_false_r in Hb.
    apply Z.eqb_eq in Hb. apply Nat2Z.inj. rewrite Hz.
    replace (c - 1) with (c + (-1) * 2 + 1) by lia.
    rewrite <-Zplus_mod_idemp_l, Z_mod_plus_full, Hb. done.
  - rewrite andb_true_r, andb_false_r, orb_false_l in Hb.
    apply Z.eqb_eq in Hb. apply Nat2Z.inj. rewrite Hz.
    rewrite <-Zminus_mod_idemp_l, Hb. done.
Qed.

Lemma label_turn k :
  (if truthy (is_odd (k `mod` 2)) then Odd else Even)
  = (if Nat.even k then Odd else Even).
Proof.
  destruct (Nat.even k) eqn:E.
  - apply Nat.even_spec in E as [m ->].
    by rewrite Nat.mul_comm, Nat.Div0.mod_mul.
  - assert (Nat.odd k = true) as [m ->]%Nat.odd_spec
      by (by rewrite <-Nat.negb_even, E).
    by rewrite Nat.add_comm, Nat.mul_comm, Nat.Div0.mod_add.
Qed.

Lemma bs_thread_step_inv s i s' : Inv s → thread_step limit i s = Some s' → Inv s'.
Proof.
  intros HI. unfold thread_step.
  destruct (pcs s !! i) as [l|] eqn:Hi; [|done].
  assert (i < length (pcs s))%nat as Hlt by eauto using lookup_lt_Some.
  assert (crit l = true → lock s = Some i) as Hcm by (eapply inv_crit; eauto).
  pose proof (inv_range _ _ HI) as Hr.
  destruct l; try done.
  - destruct (lock s) eqn:Hm; [done|]. intros [= <-].
    old_phase HI Hm Hi. fields HI Hm i B_limit; done.
  - assert (lock s = Some i) as Hm by auto.
    old_phase HI Hm Hi.
    destruct (_ <? _) eqn:Hg; intros [= <-].
    + apply Z.ltb_lt in Hg. fields HI Hm i B_done; try done; lia.
    + apply Z.ltb_ge in Hg. fields HI Hm i B_parity; done.
  - assert (lock s = Some i) as Hm by auto.
    old_phase HI Hm Hi. destruct Hph as [Hc Hout].
    destruct (_ || _) eqn:Hg; intros [= <-].
    + fields HI Hm i B_print; try done.
      split_and!; try done. rewrite Hm. f_equal. apply parity_turn; [lia| |done].
      by rewrite <-(inv_len _ _ HI).
    + fields HI Hm i B_unlock; done.
  - assert (lock s = Some i) as Hm by auto.
    old_phase HI Hm Hi. destruct Hph as (Hmo & Hc & Hout).
    intros [= <-].
    fields HI Hm i B_incr; try done.
    split_and!; try done.
    rewrite expected_lines_S, Hout. do 3 f_equal; [|lia].
    assert (i = (Z.to_nat (counter s - 1) `mod` 2)%nat) as -> by congruence.
    apply label_turn.
  - assert (lock s = Some i) as Hm by auto.
    old_phase HI Hm Hi. destruct Hph as (Hmo & Hc & Hout).
    intros [= <-].
    assert (wrap_int (counter s + 1) = counter s + 1) as Hw.
    { apply wrap_int_small. unfold INT_MAX in *. lia. }
    fields HI Hm i B_unlock; try done; rewrite ?Hw; try lia.
    + rewrite Hout. f_equal. lia.
    + match goal with H : pcs s !! _ = Some B_done |- _ =>
        pose proof (inv_done _ _ HI _ H) end. lia.
  - assert (lock s = Some i) as Hm by auto.
    old_phase HI Hm Hi. intros [= <-].
    fields HI Hm i B_lock; done.
Qed.

Lemma bs_main_step_inv s s' : Inv s → main_step s = Some s' → Inv s'.
Proof.
  intros HI. unfold main_step.
  pose proof (inv_main _ _ HI) as Hmain. unfold main_ok in Hmain.
  destruct (mpc s) as [k|k|] eqn:Hmpc; [| |done].
  - destruct Hmain as [Hk Hmain].
    destruct (decide _); [|done]. intros [= <-].
    assert (k < length (pcs s))%nat as Hlt by (by rewrite (inv_len _ _ HI)).
    destruct (lookup_lt_is_Some_2 _ _ Hlt) as [l0 Hl].
    assert (l0 = B_unborn) as -> by (by apply (Hmain _ _ Hl)).
    assert (hloc (set_mpc (if decide (S k < 2)%nat then M_create (S k) else M_join 0)
                          (set_pc k B_lock s)) = hloc s) as Hh.
    { unfold hloc; simpl. destruct (lock s) as [h|] eqn:Hm; [|done].
      destruct (inv_held _ _ HI _ Hm) as (lh & Hlh & Hch).
      rewrite list_lookup_insert_ne; [done|]. intros ->. by simplify_eq. }
    constructor; simpl.
    + rewrite length_insert; apply HI.
    + intros j l' Hj Hc; split_lookup Hj; try done.
      by apply (inv_crit _ _ HI _ _ Hj Hc).
    + intros j Hj. destruct (inv_held _ _ HI _ Hj) as (lh & Hlh & Hch).
      exists lh. split; [|done]. rewrite list_lookup_insert_ne; [done|].
      intros ->. by simplify_eq.
    + apply HI.
    + pose proof (inv_phase _ _ HI) as Hph. unfold phase in *.
      by rewrite Hh.
    + intros j Hj; split_lookup Hj. by eapply (inv_done _ _ HI).
    + unfold main_ok; simpl. destruct (decide (S k < 2)%nat) as [Hk'|Hk'].
      * split; [done|]. intros j l1 Hj. split_lookup Hj.
        -- split; [done|lia].
        -- rewrite (Hmain _ _ Hj). lia.
      * split_and!; [lia| |lia].
        intros j Hj. split_lookup Hj.
        assert (k ≤ j)%nat as Hkj by (by apply (Hmain _ _ Hj)).
        apply lookup_lt_Some in Hj. rewrite (inv_len _ _ HI) in Hj. lia.
  - destruct Hmain as (Hk & Hnu & Hdn).
    destruct (pcs s !! k) as [l|] eqn:Hl; [|done].
    destruct l; try done. intros [= <-].
    destruct HI. constructor; try done.
    unfold main_ok; simpl. destruct (decide (S k < 2)%nat) as [Hk'|Hk'].
    + split_and!; [done..|]. intros j Hj.
      destruct (decide (j = k)) as [->|]; [done|]. apply Hdn. lia.
    + intros j Hj.
      destruct (decide (j = k)) as [->|]; [done|]. apply Hdn. lia.
Qed.

Lemma bs_exec_inv a s s' : Inv s → exec a s = Some s' → Inv s'.
Proof. destruct a; simpl; eauto using bs_main_step_inv, bs_thread_step_inv. Qed.

Lemma bs_reachable_inv s : reachable limit s → Inv s.
Proof.
  induction 1 as [|s s' _ IH [a Ha]]; [apply bs_init_inv|by eapply bs_exec_inv].
Qed.

Lemma bs_run_reachable sch s s' :
  reachable limit s → run limit sch s = Some s' → reachable limit s'.
Proof.
  revert s. induction sch as [|a sch IH]; intros s Hs; simpl.
  - by intros [= <-].
  - destruct (exec a s) as [s1|] eqn:Ha; [|done].
    apply IH. eapply reach_step; [done|by exists a].
Qed.

Lemma bs_run_app sch1 sch2 s :
  run limit (sch1 ++ sch2) s = run limit sch1 s ≫= run limit sch2.
Proof.
  revert s. induction sch1 as [|a sch1 IH]; intros s; simpl; [done|].
  destruct (exec a s); simpl; [apply IH|done].
Qed.

Lemma bs_reachable_out s :
  reachable limit s →
  ∃ n, (n ≤ Z.to_nat limit)%nat ∧ out s = expected_lines n.
Proof.
  intros HI%bs_reachable_inv.
  pose proof (inv_phase _ _ HI) as Hph.
  pose proof (inv_range _ _ HI) as Hr.
  unfold phase, done_steps in Hph.
  destruct (hloc s);
    try (exists (Z.to_nat (counter s - 1)); split; [lia|]; tauto).
  exists (S (Z.to_nat (counter s - 1))). split; [lia|tauto].
Qed.

Lemma bs_final_out s :
  reachable limit s → final s → out s = expected_lines (Z.to_nat limit).
Proof.
  intros HI%bs_reachable_inv [_ Hf].
  assert (lock s = None) as Hm.
  { destruct (lock s) as [h|] eqn:Hm; [|done].
    destruct (inv_held _ _ HI _ Hm) as (l & Hl & Hc).
    assert (h < 2)%nat as Hh.
    { apply lookup_lt_Some in Hl. by rewrite (inv_len _ _ HI) in Hl. }
    rewrite (Hf _ Hh) in Hl. by simplify_eq. }
  pose proof (inv_done _ _ HI _ (Hf 0%nat ltac:(lia))).
  pose proof (inv_range _ _ HI).
  pose proof (inv_phase _ _ HI) as Hph.
  unfold phase, done_steps in Hph. rewrite (bs_hloc_free _ Hm) in Hph.
  rewrite Hph. f_equal. lia.
Qed.

(** *** The schedule that gives each turn to the thread of the right parity *)

Lemma round_idle k :
  Z.of_nat k < limit →
  run limit (round (k `mod` 2)) (idle k) = Some (idle (S k)).
Proof.
  intros Hk.
  assert ((limit <? Z.of_nat k + 1) = false) as Hl by (apply Z.ltb_ge; lia).
  assert (wrap_int (Z.of_nat k + 1 + 1) = Z.of_nat (S k) + 1) as Hw.
  { rewrite wrap_int_small by (unfold INT_MAX in *; lia). lia. }
  pose proof (label_turn k) as Hlab.
  assert (Z.rem (Z.of_nat k + 1) 2 = (Z.of_nat k + 1) `mod` 2) as Hrem
    by (apply Z.rem_mod_nonneg; lia).
  assert (Z.of_nat (k `mod` 2) = Z.of_nat k `mod` 2) as Hz
    by (by rewrite Nat2Z.inj_mod).
  assert ((Z.of_nat k + 1) `mod` 2 = (Z.of_nat k `mod` 2 + 1) `mod` 2) as Hs
    by (by rewrite Zplus_mod_idemp_l).
  unfold round, idle.
  destruct (k `mod` 2)%nat as [|[|m]] eqn:Hm.
  - assert ((Z.rem (Z.of_nat k + 1) 2 =? 1) = true) as Hp.
    { rewrite Hrem, Hs, <-Hz. done. }
    simpl. unfold thread_step; simpl. rewrite Hl. simpl.
    unfold thread_step; simpl. rewrite Hp. simpl.
    unfold thread_step; simpl. unfold thread_step; simpl.
    unfold thread_step; simpl.
    rewrite Hw, expected_lines_S, <-Hlab. done.
  - assert ((Z.rem (Z.of_nat k + 1) 2 =? 1) = false) as Hp.
    { rewrite Hrem, Hs, <-Hz. done. }
    assert ((Z.rem (Z.of_nat k + 1) 2 =? 0) = true) as Hp'.
    { rewrite Hrem, Hs, <-Hz. done. }
    simpl. unfold thread_step; simpl. rewrite Hl. simpl.
    unfold thread_step; simpl. rewrite Hp, Hp'. simpl.
    unfold thread_step; simpl. unfold thread_step; simpl.
    unfold thread_step; simpl.
    rewrite Hw, expected_lines_S, <-Hlab. done.
  - pose proof (Nat.mod_upper_bound k 2). lia.
Qed.

Lemma fair_idle k :
  Z.of_nat k ≤ limit → run limit (fair_schedule k) init = Some (idle k).
Proof.
  induction k as [|k IH]; intros Hk; simpl; [done|].
  rewrite bs_run_app, IH by lia. simpl. apply round_idle. lia.
Qed.

Lemma closing_final :
  ∃ s, run limit closing (idle (Z.to_nat limit)) = Some s ∧ final s.
Proof.
  assert ((limit <? Z.of_nat (Z.to_nat limit) + 1) = true) as Hl
    by (apply Z.ltb_lt; lia).
  unfold closing, idle. simpl.
  unfold thread_step; simpl. rewrite Hl. simpl.
  unfold thread_step; simpl. rewrite Hl. simpl.
  unfold main_step; simpl.
  eexists. split; [done|]. split; [done|].
  intros [|[|i]] Hi; [done..|lia].
Qed.

Lemma idle_reachable k : Z.of_nat k ≤ limit → reachable limit (idle k).
Proof.
  intros Hk. eapply bs_run_reachable; [constructor|by apply fair_idle].
Qed.

Lemma spin_idle k :
  Z.of_nat k < limit → run limit (spin (S k `mod` 2)) (idle k) = Some (idle k).
Proof.
  intros Hk.
  assert ((limit <? Z.of_nat k + 1) = false) as Hl by (apply Z.ltb_ge; lia).
  assert (Z.rem (Z.of_nat k + 1) 2 = Z.of_nat (S k `mod` 2)) as Hrem.
  { rewrite Z.rem_mod_nonneg by lia. rewrite Nat2Z.inj_mod. f_equal. lia. }
  unfold spin, idle.
  destruct (S k `mod` 2)%nat as [|[|m]] eqn:Hm.
  - simpl. unfold thread_step; simpl. rewrite Hl. simpl.
    unfold thread_step; simpl. rewrite Hrem. simpl.
    unfold thread_step; simpl. done.
  - simpl. unfold thread_step; simpl. rewrite Hl. simpl.
    unfold thread_step; simpl. rewrite Hrem. simpl.
    unfold thread_step; simpl. done.
  - pose proof (Nat.mod_upper_bound (S k) 2). lia.
Qed.

Lemma spins_idle n k :
  Z.of_nat k < limit → run limit (spins n (S k `mod` 2)) (idle k) = Some (idle k).
Proof.
  intros Hk. induction n as [|n IH]; [done|].
  cbn [spins]. rewrite bs_run_app, (spin_idle k Hk). exact IH.
Qed.

End Safety.

End BSSafety.

(** ** Outputs of the polling program and of the condition-variable program *)

Module Polling.
Import CVSafety.

Lemma cv_line_round_robin n :
  cv_line <$> CV.round_robin 2 n = expected_lines n.
Proof.
  unfold CV.round_robin, expected_lines. rewrite <-list_fmap_compose.
  apply list_fmap_ext. intros _ k _. unfold cv_line, compose.
  cbn [fst snd]. f_equal.
  destruct (Nat.even k) eqn:E.
  - apply Nat.even_spec in E as [m ->].
    by rewrite Nat.mul_comm, Nat.Div0.mod_mul.
  - assert (Nat.odd k = true) as [m ->]%Nat.odd_spec
      by (by rewrite <-Nat.negb_even, E).
    by rewrite Nat.add_comm, Nat.mul_comm, Nat.Div0.mod_add.
Qed.

(** Every initial part of the expected lines is the output of a reachable
    state of the condition-variable program. *)
Lemma cv_prefix_reachable limit n :
  0 ≤ limit < INT_MAX → (n ≤ Z.to_nat limit)%nat →
  ∃ s, CV.reachable 2 limit CV.Signal s ∧ cv_line <$> CV.out s = expected_lines n.
Proof.
  intros Hlim Hn.
  assert (0 < 2)%nat as HN by lia.
  destruct (run_to_final 2 limit CV.Signal HN Hlim (or_intror eq_refl) (CV.init 2))
    as (sch & sf & _ & Hrun & Hf);
    [by apply init_inv|by apply init_live|].
  assert (CV.reachable 2 limit CV.Signal sf) as Hsf
    by (eapply run_reachable; [constructor|done]).
  pose proof (final_out 2 limit CV.Signal HN Hlim sf Hsf Hf) as Hout.
  destruct (run_out_length 2 limit CV.Signal HN sch (CV.init 2) sf n Hrun)
    as (sch1 & s1 & Hrun1 & Hlen).
  { rewrite Hout, round_robin_length. simpl. lia. }
  assert (CV.reachable 2 limit CV.Signal s1) as Hs1
    by (eapply run_reachable; [constructor|done]).
  exists s1. split; [done|].
  destruct (reachable_out 2 limit CV.Signal HN Hlim s1 Hs1) as (m & _ & Hm).
  rewrite Hm, round_robin_length in Hlen. subst m.
  rewrite Hm. apply cv_line_round_robin.
Qed.

Lemma bs_demo_run : BS.run MAX BS.demo_schedule BS.init = Some BS.demo.
Proof. by vm_compute. Qed.

Lemma bs_demo_reachable : BS.reachable MAX BS.demo.
Proof.
  eapply BSSafety.bs_run_reachable; [constructor|exact bs_demo_run].
Qed.

Lemma bs_demo_final : BS.final BS.demo.
Proof.
  split; [by vm_compute|].
  intros [|[|i]] Hi; [by vm_compute..|lia].
Qed.

(** X3. The polling program has no bound on the statements run between two
    printed lines: while line k+1 is due, the thread of the other parity can
    lock, test and unlock any number of times, and the state stays the
    same. *)
Theorem polling_can_spin limit k n :
  0 ≤ limit < INT_MAX → Z.of_nat k < limit →
  BS.reachable limit (BS.idle k) ∧
  ∃ sch, (n ≤ length sch)%nat ∧
         BS.run limit sch (BS.idle k) = Some (BS.idle k).
Proof.
  intros Hlim Hk. split; [apply BSSafety.idle_reachable; [done|lia]|].
  exists (BS.spins n (S k `mod` 2)). split.
  - assert (length (BS.spins n (S k `mod` 2)) = (4 * n)%nat) as ->; [|lia].
    induction n as [|n IH]; [done|].
    cbn [BS.spins]. rewrite length_app, IH. unfold BS.spin. simpl length. lia.
  - by apply BSSafety.spins_idle.
Qed.

Lemma polling_can_spin_witness :
  ∃ sch, (1000 ≤ length sch)%nat ∧
         BS.run MAX sch (BS.idle 41) = Some (BS.idle 41).
Proof.
  exact (proj2 (polling_can_spin MAX 41 1000 TurnTaking.MAX_range ltac:(by vm_compute))).
Defined.

End Polling.

(** ** Start-up failures *)

Module StartupFacts.
Import Startup.

(** C9, as stated, fails on the source: with the output file impossible to
    open, [main] of 12_ABCDabcdWiteFileSync.c returns 1 although neither
    the mutex nor the condition variable failed to initialise. *)
Lemma fopen_failure_is_fatal_too : ¬ only_lock_failure_is_fatal main12.
Proof.
  intros H. destruct (H (mkEnv false 0 0)) as [H1 _].
  destruct H1 as [?|?]; done.
Qed.

(** The three ways through [main] of 11_ABCDabcdWiteFile.c. *)
Lemma main11_fopen_fails e :
  fopen_ok e = false → main11 e = ([C_fopen; C_perror "File open failed"], 1).
Proof. unfold main11. by intros ->. Qed.

Lemma main11_init_fails e :
  fopen_ok e = true → mutex_init_rc e ≠ 0 →
  main11 e = ([C_fopen; C_mutex_init; C_perror "Mutex init failed"], 1).
Proof.
  unfold main11. intros -> Hrc. simpl.
  by destruct (Z.eqb_spec (mutex_init_rc e) 0).
Qed.

Lemma main11_runs e :
  fopen_ok e = true → mutex_init_rc e = 0 →
  main11 e = ([C_fopen; C_mutex_init; C_create 1; C_create 2; C_join 1; C_join 2;
               C_fclose; C_mutex_destroy;
               C_printf "Letters written to output.txt"], 0).
Proof. unfold main11. by intros -> ->. Qed.

(** C9, amended. [main] returns 1 exactly on a start-up failure it tests
    for: [fopen] returning NULL (11 and 12) and, in 11, [pthread_mutex_init]
    returning non-zero. It then has reported the error with one [perror],
    made each call once, and created no thread. When every start-up call
    succeeds, both threads are created and joined and [main] returns 0;
    [main] of 09 has no failure exit. *)
Theorem startup_failure_aborts_before_launch (e : env) :
  (snd (main11 e) = 1 ↔ fopen_ok e = false ∨ mutex_init_rc e ≠ 0) ∧
  (snd (main11 e) = 0 ∨ snd (main11 e) = 1) ∧
  (snd (main11 e) = 1 →
     launches (fst (main11 e)) = false ∧ NoDup (fst (main11 e)) ∧
     ∃ msg, last (fst (main11 e)) = Some (C_perror msg)) ∧
  (snd (main11 e) = 0 →
     C_create 1 ∈ fst (main11 e) ∧ C_create 2 ∈ fst (main11 e) ∧
     C_join 1 ∈ fst (main11 e) ∧ C_join 2 ∈ fst (main11 e)) ∧
  (fopen_ok e = false →
     main12 e = ([C_fopen; C_perror "fopen"], 1) ∧
     launches (fst (main12 e)) = false) ∧
  (fopen_ok e = true → mutex_init_rc e = 0 → cond_init_rc e = 0 →
     snd (main12 e) = 0 ∧
     C_create 1 ∈ fst (main12 e) ∧ C_create 2 ∈ fst (main12 e)) ∧
  (snd (main09 e) = 0 ∧ C_create 1 ∈ fst (main09 e) ∧ C_create 2 ∈ fst (main09 e)).
Proof.
  assert (main11 e = ([C_fopen; C_perror "File open failed"], 1) ∨
          main11 e = ([C_fopen; C_mutex_init; C_perror "Mutex init failed"], 1) ∨
          snd (main11 e) = 0) as Hcases.
  { destruct (fopen_ok e) eqn:Hf; [|left; by apply main11_fopen_fails].
    destruct (decide (mutex_init_rc e = 0)) as [Hrc|Hrc].
    - right; right. by rewrite main11_runs.
    - right; left. by apply main11_init_fails. }
  split_and!.
  - split.
    + intros H1. destruct (fopen_ok e) eqn:Hf; [right|by left].
      intros Hrc. rewrite main11_runs in H1; done.
    + intros [Hf|Hrc]; [by rewrite main11_fopen_fails|].
      destruct (fopen_ok e) eqn:Hf;
        [by rewrite main11_init_fails|by rewrite main11_fopen_fails].
  - destruct Hcases as [->|[->| ->]]; auto.
  - intros H1. destruct Hcases as [->|[->|H0]]; [| |congruence].
    + split_and!; [done|compute_done|by eexists].
    + split_and!; [done|compute_done|by eexists].
  - intros H0.
    assert (fopen_ok e = true ∧ mutex_init_rc e = 0) as [Hf Hrc].
    { destruct Hcases as [H|[H|_]]; try (rewrite H in H0; done).
      destruct (fopen_ok e) eqn:Hf; [|by rewrite main11_fopen_fails in H0].
      split; [done|]. destruct (decide (mutex_init_rc e = 0)); [done|].
      by rewrite main11_init_fails in H0. }
    rewrite main11_runs by done. split_and!; compute_done.
  - unfold main12. intros ->. done.
  - unfold main12. intros -> _ _. split_and!; [done|compute_done..].
  - done.
  - unfold main09. simpl. compute_done.
  - unfold main09. simpl. compute_done.
Qed.

End StartupFacts.

(** ** The letter-writing program alternates capitals and small letters *)

Module LettersFacts.
Import Letters.

#[local] Arguments Nat.modulo : simpl never.
#[local] Arguments Nat.div : simpl never.
#[local] Arguments Nat.even : simpl never.
#[local] Arguments Z.mul : simpl never.
#[local] Arguments Z.add : simpl never.
#[local] Arguments Z.sub : simpl never.

Lemma letters_S n :
  letters (S n)
  = letters n ++ [(if Nat.even n then 65 else 97) + Z.of_nat (n / 2)].
Proof. unfold letters. by rewrite seq_S, fmap_app. Qed.

Lemma echo_S n :
  echo (S n)
  = echo n ++ printed (n `mod` 2) ((if Nat.even n then 65 else 97) + Z.of_nat (n / 2)).
Proof.
  unfold echo. rewrite seq_S, bind_app. simpl. by rewrite app_nil_r.
Qed.

Lemma double_even a :
  0 ≤ a →
  Nat.even (Z.to_nat (a + a)) = true ∧
  Z.of_nat (Z.to_nat (a + a) / 2) = a ∧
  (Z.to_nat (a + a) `mod` 2 = 0)%nat.
Proof.
  intros Ha. replace (Z.to_nat (a + a)) with (2 * Z.to_nat a)%nat by lia.
  split_and!.
  - apply Nat.even_spec. by eexists.
  - rewrite Nat.mul_comm, Nat.div_mul by done. lia.
  - by rewrite Nat.mul_comm, Nat.Div0.mod_mul.
Qed.

Lemma double_odd a :
  0 ≤ a →
  Nat.even (Z.to_nat (a + 1 + a)) = false ∧
  Z.of_nat (Z.to_nat (a + 1 + a) / 2) = a ∧
  (Z.to_nat (a + 1 + a) `mod` 2 = 1)%nat.
Proof.
  intros Ha. replace (Z.to_nat (a + 1 + a)) with (1 + Z.to_nat a * 2)%nat by lia.
  split_and!.
  - rewrite <-Nat.negb_odd. apply negb_false_iff, Nat.odd_spec.
    exists (Z.to_nat a). lia.
  - rewrite Nat.div_add by done. rewrite (Nat.div_small 1 2) by lia. lia.
  - by rewrite Nat.Div0.mod_add.
Qed.

Lemma wrap_char_small z : -128 ≤ z ≤ 127 → wrap_char z = z.
Proof. intros Hz. unfold wrap_char. rewrite Z.mod_small; lia. Qed.

Lemma letters_put0 a :
  0 ≤ a → letters (Z.to_nat (a + a)) ++ [a + 65] = letters (Z.to_nat (a + 1 + a)).
Proof.
  intros Ha. destruct (double_even a Ha) as (He & Hd & _).
  replace (Z.to_nat (a + 1 + a)) with (S (Z.to_nat (a + a))) by lia.
  rewrite letters_S, He, Hd. do 2 f_equal. lia.
Qed.

Lemma echo_put0 a :
  0 ≤ a → echo (Z.to_nat (a + a)) ++ [a + 65] = echo (Z.to_nat (a + 1 + a)).
Proof.
  intros Ha. destruct (double_even a Ha) as (He & Hd & Hm).
  replace (Z.to_nat (a + 1 + a)) with (S (Z.to_nat (a + a))) by lia.
  rewrite echo_S, He, Hd, Hm. simpl. do 2 f_equal. lia.
Qed.

Lemma letters_put1 b :
  0 ≤ b →
  letters (Z.to_nat (b + 1 + b)) ++ [b + 97] = letters (Z.to_nat (b + 1 + (b + 1))).
Proof.
  intros Hb. destruct (double_odd b Hb) as (He & Hd & _).
  replace (Z.to_nat (b + 1 + (b + 1))) with (S (Z.to_nat (b + 1 + b))) by lia.
  rewrite letters_S, He, Hd. do 2 f_equal. lia.
Qed.

Lemma echo_put1 b :
  0 ≤ b →
  echo (Z.to_nat (b + 1 + b)) ++ [32; b + 97; 10] = echo (Z.to_nat (b + 1 + (b + 1))).
Proof.
  intros Hb. destruct (double_odd b Hb) as (He & Hd & Hm).
  replace (Z.to_nat (b + 1 + (b + 1))) with (S (Z.to_nat (b + 1 + b))) by lia.
  rewrite echo_S, He, Hd, Hm. simpl. do 3 f_equal. lia.
Qed.

Ltac open_inv HI s :=
  let t0 := fresh "t0" in let t1 := fresh "t1" in
  destruct HI as (t0 & t1 & HI); destruct HI;
  destruct s as [tn mx th mp fl so];
  simpl in *; subst;
  destruct t0 as [l0 c0], t1 as [l1 c1]; simpl in *.

Ltac light mp :=
  unfold puts, bounds, main_ok in *; simpl in *;
  try done; try lia; try tauto; try (f_equal; lia);
  try (intuition (first [done | congruence | lia]));
  try (destruct mp as [[|[|?]]|[|[|?]]|];
       intuition (first [done | congruence | lia])).

(* thread 0 moved: everything about thread 1 is a frame *)
Ltac crush0 l1 c1 mp :=
  let P := fresh "P" in let B := fresh "B" in
  set (P := puts 1 (mkThread l1 c1)) in *; clearbody P;
  set (B := bounds 1 (mkThread l1 c1)) in *; clearbody B;
  light mp.

Ltac crush1 l0 c0 mp :=
  let P := fresh "P" in let B := fresh "B" in
  set (P := puts 0 (mkThread l0 c0)) in *; clearbody P;
  set (B := bounds 0 (mkThread l0 c0)) in *; clearbody B;
  light mp.

Ltac close_inv :=
  eexists _, _; constructor; [reflexivity|..]; simpl.

Lemma letters_thread_step_inv s i s' : Inv s → thread_step i s = Some s' → Inv s'.
Proof.
  intros HI Hs. open_inv HI s.
  destruct i as [|[|i]]; unfold thread_step in Hs; simpl in Hs; [| |done].
  - destruct l0; simpl in Hs; try done.
    + destruct (Z.leb_spec c0 90); simplify_eq/=; close_inv; crush0 l1 c1 mp.
    + destruct mx; simplify_eq/=; close_inv; crush0 l1 c1 mp.
    + destruct (Z.eqb_spec tn 0); simplify_eq/=; close_inv; crush0 l1 c1 mp.
    + destruct mx; simplify_eq/=; close_inv; crush0 l1 c1 mp.
    + simplify_eq/=. destruct (inv_put2 eq_refl) as [-> Heq].
      close_inv. all: try by crush0 l1 c1 mp.
      * revert Heq inv_b2. generalize (puts 1 {| pc := l1; ch := c1 |}).
        unfold puts, bounds; simpl. intros P1 <- Hb.
        replace c0 with (c0 - 65 + 65) at 3 by lia. apply letters_put0. lia.
      * revert Heq inv_b2. generalize (puts 1 {| pc := l1; ch := c1 |}).
        unfold puts, bounds; simpl. intros P1 <- Hb.
        replace c0 with (c0 - 65 + 65) at 3 by lia. apply echo_put0. lia.
    + simplify_eq/=; close_inv; crush0 l1 c1 mp.
    + destruct l1; simplify_eq/=; close_inv; light mp.
    + simplify_eq/=; close_inv; crush0 l1 c1 mp.
    + simplify_eq/=. rewrite wrap_char_small by (unfold bounds in *; simpl in *; lia).
      close_inv; crush0 l1 c1 mp.
  - destruct l1; simpl in Hs; try done.
    + destruct (Z.leb_spec c1 122); simplify_eq/=; close_inv; crush1 l0 c0 mp.
    + destruct mx; simplify_eq/=; close_inv; crush1 l0 c0 mp.
    + destruct (Z.eqb_spec tn 1); simplify_eq/=; close_inv; crush1 l0 c0 mp.
    + destruct mx; simplify_eq/=; close_inv; crush1 l0 c0 mp.
    + simplify_eq/=. destruct (inv_put3 eq_refl) as [-> Heq].
      close_inv. all: try by crush1 l0 c0 mp.
      * revert Heq inv_b3. generalize (puts 0 {| pc := l0; ch := c0 |}).
        unfold puts, bounds; simpl. intros P0 -> Hb.
        replace c1 with (c1 - 97 + 97) at 3 by lia.
        replace (c1 - 97 + 1 + (c1 - 97 + 97 - 97 + 1))
          with (c1 - 97 + 1 + (c1 - 97 + 1)) by lia.
        apply letters_put1. lia.
      * revert Heq inv_b3. generalize (puts 0 {| pc := l0; ch := c0 |}).
        unfold puts, bounds; simpl. intros P0 -> Hb.
        replace c1 with (c1 - 97 + 97) at 3 by lia.
        replace (c1 - 97 + 1 + (c1 - 97 + 97 - 97 + 1))
          with (c1 - 97 + 1 + (c1 - 97 + 1)) by lia.
        apply echo_put1. lia.
    + simplify_eq/=; close_inv; crush1 l0 c0 mp.
    + destruct l0; simplify_eq/=; close_inv; light mp.
    + simplify_eq/=; close_inv; crush1 l0 c0 mp.
    + simplify_eq/=. rewrite wrap_char_small by (unfold bounds in *; simpl in *; lia).
      close_inv; crush1 l0 c0 mp.
Qed.

Lemma letters_spurious_step_inv s i s' : Inv s → spurious_step i s = Some s' → Inv s'.
Proof.
  intros HI Hs. open_inv HI s.
  destruct i as [|[|i]]; unfold spurious_step in Hs; simpl in Hs; [| |done].
  - destruct l0; simplify_eq/=. close_inv; crush0 l1 c1 mp.
  - destruct l1; simplify_eq/=. close_inv; crush1 l0 c0 mp.
Qed.

Lemma letters_wake_step_inv s i w s' : Inv s → wake_step i w s = Some s' → Inv s'.
Proof.
  intros HI Hs. open_inv HI s.
  destruct i as [|[|i]], w as [|[|w]]; unfold wake_step in Hs; simpl in Hs;
    try done.
  - destruct l0; simplify_eq/=.
  - destruct l0; try done. destruct l1; simplify_eq/=. close_inv; light mp.
  - destruct l0; simplify_eq/=.
  - destruct l1; try done. destruct l0; simplify_eq/=. close_inv; light mp.
  - destruct l1; simplify_eq/=.
  - destruct l1; simplify_eq/=.
Qed.

Lemma letters_main_step_inv s s' : Inv s → main_step s = Some s' → Inv s'.
Proof.
  intros HI Hs. open_inv HI s. unfold main_step in Hs. simpl in Hs.
  destruct mp as [[|[|k]]|[|[|k]]|]; simpl in Hs; try done.
  - simplify_eq/=. unfold main_ok in inv_main0. destruct inv_main0 as [-> ->].
    close_inv; unfold puts, bounds, main_ok in *; simpl in *;
      try done; try lia; try tauto; intuition congruence.
  - simplify_eq/=. unfold main_ok in inv_main0. destruct inv_main0 as [? ->].
    close_inv; crush1 l0 c0 (M_join 0).
  - destruct l0; simplify_eq/=. close_inv; light (M_join 1).
  - destruct l1; simplify_eq/=. close_inv; light M_exit.
Qed.

Lemma letters_exec_inv a s s' : Inv s → exec a s = Some s' → Inv s'.
Proof.
  destruct a; simpl;
    eauto using letters_main_step_inv, letters_thread_step_inv, letters_wake_step_inv, letters_spurious_step_inv.
Qed.

Lemma letters_init_inv : Inv init.
Proof.
  exists (mkThread W_unborn 0), (mkThread W_unborn 0).
  constructor; simpl; try done; auto.
Qed.

Lemma letters_reachable_inv s : reachable s → Inv s.
Proof.
  induction 1 as [|s s' _ IH [a Ha]]; [apply letters_init_inv|by eapply letters_exec_inv].
Qed.

Lemma letters_run_reachable sch s s' : reachable s → run sch s = Some s' → reachable s'.
Proof.
  revert s. induction sch as [|a sch IH]; intros s Hs; simpl.
  - by intros [= <-].
  - destruct (exec a s) as [s1|] eqn:Ha; [|done].
    apply IH. eapply reach_step; [done|by exists a].
Qed.

Lemma letters_run_inv sch s s' : Inv s → run sch s = Some s' → Inv s'.
Proof.
  revert s. induction sch as [|a sch IH]; intros s Hs; simpl.
  - by intros [= <-].
  - destruct (exec a s) as [s1|] eqn:Ha; [|done].
    apply IH. by eapply letters_exec_inv.
Qed.

(** *** Termination *)

Ltac pot :=
  unfold potential, thread_potential, bounds in *; simpl in *; lia.

Lemma letters_exec_potential a s s' :
  Inv s → proper a = true → exec a s = Some s' →
  (potential s' < potential s)%nat.
Proof.
  intros HI Hp Hs. open_inv HI s.
  destruct a as [|i|i w|i]; simpl in Hs; [| | |done].
  - unfold main_step in Hs. simpl in Hs.
    destruct mp as [[|[|k]]|[|[|k]]|]; simpl in Hs; try done.
    + simplify_eq/=. destruct inv_main0 as [-> ->]. pot.
    + simplify_eq/=. destruct inv_main0 as [? ->]. pot.
    + destruct l0; simplify_eq/=. pot.
    + destruct l1; simplify_eq/=. pot.
  - destruct i as [|[|i]]; unfold thread_step in Hs; simpl in Hs; [| |done].
    + destruct l0; simpl in Hs; try done;
        repeat case_match; simplify_eq/=;
        rewrite ?wrap_char_small by (unfold bounds in *; simpl in *; lia);
        try pot.
    + destruct l1; simpl in Hs; try done;
        repeat case_match; simplify_eq/=;
        rewrite ?wrap_char_small by (unfold bounds in *; simpl in *; lia);
        try pot.
  - destruct i as [|[|i]], w as [|[|w]]; unfold wake_step in Hs; simpl in Hs;
      try done; destruct l0, l1; simplify_eq/=; pot.
Qed.

Ltac enabled a :=
  right; exists a; split; [done|];
  simpl; unfold main_step, thread_step, wake_step; simpl;
  repeat case_match; simplify_eq/=; eauto.

Lemma letters_enabled_or_final s :
  Inv s → final s ∨ ∃ a, proper a = true ∧ is_Some (exec a s).
Proof.
  intros HI. open_inv HI s.
  unfold main_ok in inv_main0.
  destruct mp as [[|[|k]]|[|[|k]]|]; try done.
  - enabled Main.
  - enabled Main.
  - destruct inv_holder0 as [->|[->| ->]].
    + destruct l0; try (by destruct inv_mutex2 as [H _]; specialize (H eq_refl));
        try (by destruct inv_main0); try (by enabled (Run 0%nat));
        try (by enabled Main);
        destruct l1; try (by destruct inv_mutex3 as [H _]; specialize (H eq_refl));
        try (by destruct inv_main0); try (by enabled (Run 1%nat));
        unfold puts, bounds in *; simpl in *; exfalso;
        intuition (first [done | congruence | lia]).
    + destruct l0; try (by destruct inv_mutex2 as [_ H]; specialize (H eq_refl));
        try (by enabled (Run 0%nat)).
      destruct l1; try (by enabled (Run 0%nat)). enabled (Wake 0%nat 1%nat).
    + destruct l1; try (by destruct inv_mutex3 as [_ H]; specialize (H eq_refl));
        try (by enabled (Run 1%nat)).
      destruct l0; try (by enabled (Run 1%nat)). enabled (Wake 1%nat 0%nat).
  - destruct inv_main0 as [-> Hl1].
    destruct inv_holder0 as [->|[->| ->]].
    + destruct l1; try (by destruct inv_mutex3 as [H _]; specialize (H eq_refl));
        try done; try (by enabled (Run 1%nat)); try (by enabled Main).
      unfold puts, bounds in *; simpl in *; exfalso.
      intuition (first [done | congruence | lia]).
    + by destruct inv_mutex2 as [_ H]; specialize (H eq_refl).
    + destruct l1; try (by destruct inv_mutex3 as [_ H]; specialize (H eq_refl));
        by enabled (Run 1%nat).
  - left. destruct inv_main0 as [-> ->]. split; [done|].
    intros [|[|i]] Hi; simpl; [done..|lia].
Qed.

Lemma letters_run_bounded sch s s' :
  Inv s → proper_schedule sch → run sch s = Some s' →
  (length sch + potential s' ≤ potential s)%nat.
Proof.
  revert s. induction sch as [|a sch IH]; intros s HI Hp; simpl.
  - intros [= <-]. lia.
  - destruct (exec a s) as [s1|] eqn:Ha; [|done]. intros Hrun.
    apply Forall_cons_1 in Hp as [Hpa Hp].
    pose proof (letters_exec_potential _ _ _ HI Hpa Ha).
    pose proof (letters_exec_inv _ _ _ HI Ha) as HI1.
    specialize (IH _ HI1 Hp Hrun). lia.
Qed.

Lemma letters_run_to_final s :
  Inv s → ∃ sch s', proper_schedule sch ∧ run sch s = Some s' ∧ final s'.
Proof.
  remember (potential s) as n eqn:Hn. revert s Hn.
  induction (lt_wf n) as [n _ IH]. intros s -> HI.
  destruct (letters_enabled_or_final s HI) as [Hf|(a & Hp & [s1 Ha])].
  - exists [], s. split_and!; [constructor|done|done].
  - destruct (IH (potential s1)) with (s := s1) as (sch & s' & Hsch & Hrun & Hf).
    + by eapply letters_exec_potential.
    + done.
    + by eapply letters_exec_inv.
    + exists (a :: sch), s'. split_and!; [by constructor| |done].
      simpl. by rewrite Ha.
Qed.

Lemma final_file s :
  reachable s → final s → file s = letters 52 ∧ stdout s = echo 52.
Proof.
  intros HI%letters_reachable_inv [_ Hf]. open_inv HI s.
  pose proof (Hf 0%nat ltac:(lia)) as H0. pose proof (Hf 1%nat ltac:(lia)) as H1.
  simpl in H0, H1. simplify_eq.
  unfold puts, bounds in *; simpl in *.
  by replace (c0 - 65 + (c1 - 97)) with 52 by lia.
Qed.

Lemma reachable_file s :
  reachable s → ∃ n, (n ≤ 52)%nat ∧ file s = letters n ∧ stdout s = echo n.
Proof.
  intros HI%letters_reachable_inv. open_inv HI s.
  eexists. split; [|done].
  unfold puts, bounds in *. destruct l0, l1; simpl in *; lia.
Qed.

Lemma letters_drive_run fuel s : run (fst (drive fuel s)) s = Some (snd (drive fuel s)).
Proof.
  revert s. induction fuel as [|fuel IH]; intros s; simpl; [done|].
  destruct (first_enabled s) as [a|]; [|done].
  destruct (exec a s) as [s'|] eqn:Ha; [|done].
  specialize (IH s'). destruct (drive fuel s') as [sch sf].
  simpl in *. by rewrite Ha.
Qed.

Lemma letters_demo_reachable : reachable (snd demo).
Proof. eapply letters_run_reachable; [constructor|apply letters_drive_run]. Qed.

Lemma letters_demo_final : final (snd demo).
Proof.
  split; [by vm_compute|].
  intros [|[|i]] Hi; [by vm_compute..|lia].
Qed.

(** X1. The file written by 12_ABCDabcdWiteFileSync.c is, in every reachable
    state, an initial part of A a B b ... Z z, capitals written by
    [write_caps] and small letters by [write_smalls] in strict alternation,
    and it is all 52 characters once both threads have returned; what is
    printed follows the same order. *)
Theorem letters_alternate s :
  reachable s →
  (∃ n, (n ≤ 52)%nat ∧ file s = letters n ∧ stdout s = echo n) ∧
  (final s →
     file s = [65; 97; 66; 98; 67; 99; 68; 100; 69; 101; 70; 102; 71; 103;
               72; 104; 73; 105; 74; 106; 75; 107; 76; 108; 77; 109; 78; 110;
               79; 111; 80; 112; 81; 113; 82; 114; 83; 115; 84; 116; 85; 117;
               86; 118; 87; 119; 88; 120; 89; 121; 90; 122] ∧
     stdout s = echo 52).
Proof.
  intros Hs. split; [by apply reachable_file|].
  intros Hf. by destruct (final_file s Hs Hf) as [-> ->].
Qed.

Lemma letters_alternate_witness :
  file (snd demo) = letters 52 ∧ stdout (snd demo) = echo 52.
Proof.
  exact (proj2 (letters_alternate (snd demo) letters_demo_reachable)
               letters_demo_final).
Defined.

(** X2. From every reachable state of 12_ABCDabcdWiteFileSync.c a schedule
    without spurious wake-ups has at most [potential] statements, one that
    cannot be continued has run both threads to their return and main
    through its joins, and such a schedule exists: [pthread_cond_signal]
    never leaves the thread whose turn it is blocked. *)
Theorem letters_terminate s :
  reachable s →
  (∀ sch s', proper_schedule sch → run sch s = Some s' →
     (length sch ≤ potential s)%nat ∧
     ((∀ a, proper a = true → exec a s' = None) → final s')) ∧
  (∃ sch s', proper_schedule sch ∧ run sch s = Some s' ∧ final s').
Proof.
  intros HI%letters_reachable_inv. split.
  - intros sch s' Hp Hrun. split.
    + pose proof (letters_run_bounded sch s s' HI Hp Hrun). lia.
    + intros Hstuck.
      destruct (letters_enabled_or_final s' (letters_run_inv _ _ _ HI Hrun)) as [?|(a & Hpa & [s2 Ha])];
        [done|].
      rewrite (Hstuck a Hpa) in Ha. done.
  - by apply letters_run_to_final.
Qed.

Lemma letters_terminate_witness :
  ∃ sch s', proper_schedule sch ∧
    run sch (snd (drive 40 init)) = Some s' ∧ final s'.
Proof.
  exact (proj2 (letters_terminate (snd (drive 40 init))
                  (letters_run_reachable _ _ _ reach_init (letters_drive_run 40 init)))).
Defined.

Lemma letters_turn_range s : Inv s → turn s = 0 ∨ turn s = 1.
Proof.
  intros HI. open_inv HI s.
  destruct (decide (l0 = W_turn)) as [->|H0].
  { left. by destruct inv_turn2. }
  destruct (decide (l1 = W_turn)) as [->|H1].
  { right. by destruct inv_turn3. }
  destruct (inv_stable0 H0 H1) as [[-> _]|[-> _]]; auto.
Qed.

(** X8. In 12_ABCDabcdWiteFileSync.c at most one thread is between
    [pthread_mutex_lock] and [pthread_mutex_unlock] (a thread blocked in
    [pthread_cond_wait] is not), [turn] is 0 or 1, a thread is at its
    [printf]/[fputc] only when [turn] is its own number, and the loop
    variable [ch] stays between its first letter and one past its last. *)
Theorem letters_one_writer_at_a_time s :
  reachable s →
  (∀ i j ti tj, threads s !! i = Some ti → threads s !! j = Some tj →
     crit (pc ti) = true → crit (pc tj) = true → i = j) ∧
  (∀ i t, threads s !! i = Some t → crit (pc t) = true ↔ mutex s = Some i) ∧
  (turn s = 0 ∨ turn s = 1) ∧
  (∀ i t, threads s !! i = Some t → pc t = W_put →
     turn s = my_turn i ∧ first_ch i ≤ ch t ≤ last_ch i) ∧
  (∀ i t, threads s !! i = Some t → pc t ≠ W_unborn →
     first_ch i ≤ ch t ≤ last_ch i + 1).
Proof.
  intros HI%letters_reachable_inv.
  pose proof (letters_turn_range s HI) as Ht.
  open_inv HI s. split_and!.
  - intros [|[|i]] [|[|j]] ti tj Hi Hj Hci Hcj; simplify_eq/=; try done.
    + apply inv_mutex2 in Hci. apply inv_mutex3 in Hcj. congruence.
    + apply inv_mutex3 in Hci. apply inv_mutex2 in Hcj. congruence.
  - intros [|[|i]] t Hi; simplify_eq/=; done.
  - done.
  - intros [|[|i]] t Hi Hp; simplify_eq/=.
    + destruct (inv_put2 eq_refl) as [-> _]. unfold bounds in *; simpl in *. lia.
    + destruct (inv_put3 eq_refl) as [-> _]. unfold bounds in *; simpl in *. lia.
  - intros [|[|i]] t Hi Hp; simplify_eq/=.
    + unfold bounds in *. destruct l0; simpl in *; try done; lia.
    + unfold bounds in *. destruct l1; simpl in *; try done; lia.
Qed.

Lemma letters_one_writer_at_a_time_witness :
  turn (snd (drive 40 init)) = 0 ∨ turn (snd (drive 40 init)) = 1.
Proof.
  apply (letters_one_writer_at_a_time (snd (drive 40 init))
           (letters_run_reachable _ _ _ reach_init (letters_drive_run 40 init))).
Defined.

(** X9. A spurious return of [pthread_cond_wait] in
    12_ABCDabcdWiteFileSync.c changes neither [turn] nor what has been
    written; the woken thread can only re-acquire the mutex and test its
    wait condition again, and while [turn] is not its own number that test
    sends it back into [pthread_cond_wait] with the file unchanged. *)
Theorem letters_spurious_wakeup_harmless s i t :
  reachable s → threads s !! i = Some t →
  (pc t = W_wait →
     ∃ s', spurious_step i s = Some s' ∧ reachable s' ∧
           threads s' !! i = Some (mkThread W_woken (ch t)) ∧
           turn s' = turn s ∧ file s' = file s ∧ stdout s' = stdout s) ∧
  (pc t = W_woken → ∀ a s', exec a s = Some s' →
     ∃ l, threads s' !! i = Some (mkThread l (ch t)) ∧ (l = W_woken ∨ l = W_guard)) ∧
  (pc t = W_guard → turn s ≠ my_turn i →
     ∃ s', exec (Run i) s = Some s' ∧
           threads s' !! i = Some (mkThread W_wait (ch t)) ∧
           turn s' = turn s ∧ file s' = file s ∧ stdout s' = stdout s).
Proof.
  intros Hr Ht. pose proof (letters_reachable_inv s Hr) as HI.
  split_and!.
  - intros Hw. destruct t as [l c]; simpl in *; subst.
    assert (spurious_step i s = Some (set_thread i (mkThread W_woken c) s)) as Hs
      by (unfold spurious_step; by rewrite Ht).
    eexists. split; [exact Hs|]. split_and!; try done.
    + eapply reach_step; [done|]. by exists (Spurious i).
    + simpl. apply list_lookup_insert_eq. by eapply lookup_lt_Some.
  - intros Hw a s' Ha. destruct t as [l c]; simpl in *; subst.
    open_inv HI s.
    destruct a as [|j|j w|j]; simpl in Ha.
    + unfold main_step in Ha; simpl in Ha.
      destruct mp as [[|[|k]]|[|[|k]]|]; simpl in Ha; try done;
        repeat case_match; simplify_eq/=;
        destruct i as [|[|i]]; simplify_eq/=; eauto;
        unfold main_ok in *; destruct_and?; simplify_eq.
    + destruct i as [|[|i]], j as [|[|j]]; unfold thread_step in Ha;
        simplify_eq/=; repeat case_match; simplify_eq/=; eauto.
    + destruct i as [|[|i]], j as [|[|j]], w as [|[|w]]; unfold wake_step in Ha;
        simplify_eq/=; repeat case_match; simplify_eq/=; eauto.
    + destruct i as [|[|i]], j as [|[|j]]; unfold spurious_step in Ha;
        simplify_eq/=; repeat case_match; simplify_eq/=; eauto.
  - intros Hg Hturn. destruct t as [l c]; simpl in *; subst.
    unfold thread_step. rewrite Ht.
    destruct (Z.eqb_spec (turn s) (my_turn i)) as [|_]; [done|]. simpl.
    eexists. split; [done|]. split_and!; try done.
    simpl. apply list_lookup_insert_eq. by eapply lookup_lt_Some.
Qed.

Lemma letters_spurious_wakeup_harmless_witness :
  ∃ s', spurious_step 0 (snd (drive 13 init)) = Some s' ∧ reachable s' ∧
        threads s' !! 0%nat = Some (mkThread W_woken 66) ∧
        turn s' = turn (snd (drive 13 init)) ∧
        file s' = file (snd (drive 13 init)) ∧
        stdout s' = stdout (snd (drive 13 init)).
Proof.
  apply (letters_spurious_wakeup_harmless (snd (drive 13 init)) 0
           (mkThread W_wait 66)
           (letters_run_reachable _ _ _ reach_init (letters_drive_run 13 init))
           eq_refl).
  reflexivity.
Defined.

(** X10. No wake-up is lost in 12_ABCDabcdWiteFileSync.c: the two threads
    are never both blocked in [pthread_cond_wait], and whenever the mutex
    is free a blocked thread is one whose turn it is not, so the thread
    whose turn it is can always run. *)
Theorem letters_no_lost_wakeup s :
  reachable s →
  ¬ (∀ i, (i < 2)%nat → pc <$> threads s !! i = Some W_wait) ∧
  (∀ i t, threads s !! i = Some t → pc t = W_wait → mutex s = None →
     turn s ≠ my_turn i).
Proof.
  intros HI%letters_reachable_inv.
  pose proof (letters_turn_range s HI) as Ht.
  open_inv HI s. split_and!.
  - intros Hw.
    pose proof (Hw 0%nat ltac:(lia)) as H0. pose proof (Hw 1%nat ltac:(lia)) as H1.
    simpl in H0, H1. simplify_eq.
    specialize (inv_wait2 eq_refl ltac:(done)).
    specialize (inv_wait3 eq_refl ltac:(done)). lia.
  - intros [|[|i]] t Hi Hw ->; simplify_eq/=.
    + apply inv_wait2; [done|]. intros ->.
      by destruct inv_mutex3 as [H _]; specialize (H eq_refl).
    + apply inv_wait3; [done|]. intros ->.
      by destruct inv_mutex2 as [H _]; specialize (H eq_refl).
Qed.

Lemma letters_no_lost_wakeup_witness :
  turn (snd (drive 13 init)) ≠ my_turn 0.
Proof.
  apply (proj2 (letters_no_lost_wakeup (snd (drive 13 init))
           (letters_run_reachable _ _ _ reach_init (letters_drive_run 13 init)))
           0%nat (mkThread W_wait 66)); reflexivity.
Defined.

End LettersFacts.

(** ** The two alphabets of 11_ABCDabcdWiteFile.c *)

Module BlocksFacts.
Import Startup Blocks.

#[local] Arguments Z.mul : simpl never.
#[local] Arguments Z.add : simpl never.
#[local] Arguments Z.sub : simpl never.

Lemma block_S i n : block i (S n) = block i n ++ [first_ch i + Z.of_nat n].
Proof. unfold block. by rewrite seq_S, fmap_app. Qed.

Lemma to_uchar_small z : 0 ≤ z < 256 → to_uchar z = z.
Proof. intros Hz. unfold to_uchar. by rewrite Z.mod_small. Qed.

Ltac open_inv HI s :=
  let t0 := fresh "t0" in let t1 := fresh "t1" in
  destruct HI as (t0 & t1 & HI); destruct HI;
  destruct s as [lk lv fo bf fl th mp cl ft];
  simpl in *; subst;
  destruct t0 as [l0 c0], t1 as [l1 c1]; simpl in *.

Ltac close_inv :=
  eexists _, _; constructor; [reflexivity|..]; simpl.

Ltac light :=
  unfold flushed, bounds, main_ok, pending in *; simpl in *;
  try done; try lia; try tauto;
  try (intuition (first [done | congruence | lia])).

Ltac by_main mp :=
  unfold main_ok in *; simpl in *;
  destruct mp as [| | | |[|[|?]]|[|[|?]]| | | |?]; simpl in *;
  try done; destruct_and?; simplify_eq/=; light.

Ltac pot :=
  unfold potential, thread_potential, bounds in *; simpl in *; lia.

Ltac enabled a :=
  right; exists a;
  simpl; unfold main_step, thread_step; simpl;
  repeat case_match; simplify_eq/=; eauto.

Section Facts.

Variable e : env.
Variable old : list Z.

#[local] Abbreviation Inv := (Inv e old).
#[local] Abbreviation exec := (exec e).
#[local] Abbreviation run := (run e).
#[local] Abbreviation reachable := (reachable e old).

Lemma in_blocks_flush0 p0 p1 f :
  in_blocks p0 p1 f → (p0 < 26)%nat → (p1 = 0 ∨ p1 = 26)%nat →
  in_blocks (S p0) p1 (f ++ [65 + Z.of_nat p0]).
Proof.
  intros [[-> Ho]|[-> Ho]] Hp0 Hp1; unfold in_blocks; rewrite block_S; simpl.
  - left. destruct Ho as [->|]; [|lia]. split; [|by left].
    by rewrite !app_nil_r.
  - destruct Hp1 as [->| ->].
    + left. split; [|by left]. by rewrite app_nil_r.
    + right. split; [|by right]. by rewrite app_assoc.
Qed.

Lemma in_blocks_flush1 p0 p1 f :
  in_blocks p0 p1 f → (p1 < 26)%nat → (p0 = 0 ∨ p0 = 26)%nat →
  in_blocks p0 (S p1) (f ++ [97 + Z.of_nat p1]).
Proof.
  intros [[-> Ho]|[-> Ho]] Hp1 Hp0; unfold in_blocks; rewrite block_S; simpl.
  - destruct Hp0 as [->| ->].
    + right. split; [|by left]. by rewrite app_nil_r.
    + left. split; [|by right]. by rewrite app_assoc.
  - right. destruct Ho as [->|]; [|lia]. split; [|by left].
    by rewrite !app_nil_r.
Qed.

Lemma blocks_thread_step_inv s i s' : Inv s → thread_step i s = Some s' → Inv s'.
Proof.
  intros HI Hs. open_inv HI s.
  destruct i as [|[|i]]; unfold thread_step in Hs; simpl in Hs; [| |done].
  - destruct l0; simpl in Hs; try done.
    + destruct lk; simplify_eq/=. close_inv; try by light.
      all: by by_main mp.
    + simplify_eq/=. close_inv; try by light.
      all: by by_main mp.
    + destruct (Z.leb_spec c0 90); simplify_eq/=; close_inv; try by light.
      all: by by_main mp.
    + simplify_eq/=.
      rewrite to_uchar_small by (unfold bounds in *; simpl in *; lia).
      close_inv; try by light.
      all: try by by_main mp.
      destruct l1; light.
    + simplify_eq/=.
      assert (pending (mkThread l1 c1) = []) as Hp by (destruct l1; light).
      assert (Z.to_nat (flushed 1 (mkThread l1 c1)) = 0
              ∨ Z.to_nat (flushed 1 (mkThread l1 c1)) = 26)%nat as Hq
        by (destruct l1; light).
      rewrite Hp in *.
      close_inv; rewrite ?Hp; try by light.
      all: try by by_main mp.
      intros Hf Hm. specialize (inv_file0 Hf Hm). revert inv_file0 Hq.
      generalize (Z.to_nat (flushed 1 (mkThread l1 c1))). intros q.
      unfold flushed, pending; simpl.
      replace (Z.to_nat (c0 - 65 + 1)) with (S (Z.to_nat (c0 - 65)))
        by (unfold bounds in *; simpl in *; lia).
      intros Hb Hq.
      replace [c0] with [65 + Z.of_nat (Z.to_nat (c0 - 65))]
        by (unfold bounds in *; simpl in *; f_equal; lia).
      apply in_blocks_flush0; [done|unfold bounds in *; simpl in *; lia|done].
    + simplify_eq/=. close_inv; try by light.
      all: by by_main mp.
    + simplify_eq/=.
      rewrite LettersFacts.wrap_char_small by (unfold bounds in *; simpl in *; lia).
      close_inv; try by light.
      all: try by by_main mp.
      intros Hf Hm. specialize (inv_file0 Hf Hm). revert inv_file0.
      generalize (Z.to_nat (flushed 1 (mkThread l1 c1))). intros q.
      unfold flushed; simpl.
      by replace (c0 + 1 - 65) with (c0 - 65 + 1) by lia.
    + simplify_eq/=. close_inv; try by light.
      all: by by_main mp.
  - destruct l1; simpl in Hs; try done.
    + destruct lk; simplify_eq/=. close_inv; try by light.
      all: by by_main mp.
    + simplify_eq/=. close_inv; try by light.
      all: by by_main mp.
    + destruct (Z.leb_spec c1 122); simplify_eq/=; close_inv; try by light.
      all: by by_main mp.
    + simplify_eq/=.
      rewrite to_uchar_small by (unfold bounds in *; simpl in *; lia).
      close_inv; try by light.
      all: try by by_main mp.
      destruct l0; light.
    + simplify_eq/=.
      assert (pending (mkThread l0 c0) = []) as Hp by (destruct l0; light).
      assert (Z.to_nat (flushed 0 (mkThread l0 c0)) = 0
              ∨ Z.to_nat (flushed 0 (mkThread l0 c0)) = 26)%nat as Hq
        by (destruct l0; light).
      rewrite Hp in *.
      close_inv; rewrite ?Hp; try by light.
      all: try by by_main mp.
      intros Hf Hm. specialize (inv_file0 Hf Hm). revert inv_file0 Hq.
      generalize (Z.to_nat (flushed 0 (mkThread l0 c0))). intros q.
      unfold flushed, pending; simpl.
      replace (Z.to_nat (c1 - 97 + 1)) with (S (Z.to_nat (c1 - 97)))
        by (unfold bounds in *; simpl in *; lia).
      intros Hb Hq.
      replace [c1] with [97 + Z.of_nat (Z.to_nat (c1 - 97))]
        by (unfold bounds in *; simpl in *; f_equal; lia).
      apply in_blocks_flush1; [done|unfold bounds in *; simpl in *; lia|done].
    + simplify_eq/=. close_inv; try by light.
      all: by by_main mp.
    + simplify_eq/=.
      rewrite LettersFacts.wrap_char_small by (unfold bounds in *; simpl in *; lia).
      close_inv; try by light.
      all: try by by_main mp.
      intros Hf Hm. specialize (inv_file0 Hf Hm). revert inv_file0.
      generalize (Z.to_nat (flushed 0 (mkThread l0 c0))). intros q.
      unfold flushed; simpl.
      by replace (c1 + 1 - 97) with (c1 - 97 + 1) by lia.
    + simplify_eq/=. close_inv; try by light.
      all: by by_main mp.
Qed.

Lemma in_blocks_nil : in_blocks 0 0 [].
Proof. left. split; [done|by left]. Qed.

Lemma blocks_main_step_inv s s' : Inv s → main_step e s = Some s' → Inv s'.
Proof.
  intros HI Hs. open_inv HI s. unfold main_step in Hs. simpl in Hs.
  unfold main_ok in inv_main0; simpl in inv_main0.
  destruct (fopen_ok e) eqn:Hfo; destruct (Z.eqb_spec (mutex_init_rc e) 0) as [Hrc|Hrc];
    simpl in Hs.
  all: destruct mp as [| | | |[|[|?]]|[|[|?]]| | | |?]; simpl in Hs; try done.
  all: repeat case_match; simplify_eq/=; destruct_and?; simplify_eq/=.
  all: close_inv; try by light.
  all: try (by unfold main_ok; simpl; rewrite ?Hfo; split_and?).
  all: try (intros _ _; apply in_blocks_nil).
  all: try (rewrite app_nil_r; intros ? ?; by apply inv_file0).
  all: try (by destruct inv_holder0 as [->|[->| ->]]; light).
Qed.

Lemma blocks_exec_inv a s s' : Inv s → exec a s = Some s' → Inv s'.
Proof.
  destruct a; simpl; eauto using blocks_main_step_inv, blocks_thread_step_inv.
Qed.

Lemma blocks_init_inv : Inv (init old).
Proof.
  exists (mkThread K_unborn 0), (mkThread K_unborn 0).
  constructor; simpl; try done; auto.
Qed.

Lemma blocks_reachable_inv s : reachable s → Inv s.
Proof.
  induction 1 as [|s s' _ IH [a Ha]]; [apply blocks_init_inv|by eapply blocks_exec_inv].
Qed.

Lemma blocks_run_reachable sch s s' : reachable s → run sch s = Some s' → reachable s'.
Proof.
  revert s. induction sch as [|a sch IH]; intros s Hs; simpl.
  - by intros [= <-].
  - destruct (exec a s) as [s1|] eqn:Ha; [|done].
    apply IH. eapply reach_step; [done|by exists a].
Qed.

Lemma blocks_run_inv sch s s' : Inv s → run sch s = Some s' → Inv s'.
Proof.
  revert s. induction sch as [|a sch IH]; intros s Hs; simpl.
  - by intros [= <-].
  - destruct (exec a s) as [s1|] eqn:Ha; [|done].
    apply IH. by eapply blocks_exec_inv.
Qed.

(** *** Termination *)

Lemma blocks_exec_potential a s s' :
  Inv s → exec a s = Some s' → (potential s' < potential s)%nat.
Proof.
  intros HI Hs. open_inv HI s.
  destruct a as [|i]; simpl in Hs.
  - unfold main_step in Hs. simpl in Hs.
    unfold main_ok in inv_main0; simpl in inv_main0.
    destruct mp as [| | | |[|[|?]]|[|[|?]]| | | |?]; simpl in Hs; try done.
    all: repeat case_match; simplify_eq/=; destruct_and?; simplify_eq/=; pot.
  - destruct i as [|[|i]]; unfold thread_step in Hs; simpl in Hs; [| |done].
    + destruct l0; simpl in Hs; try done;
        repeat case_match; simplify_eq/=;
        rewrite ?LettersFacts.wrap_char_small by (unfold bounds in *; simpl in *; lia);
        try pot.
    + destruct l1; simpl in Hs; try done;
        repeat case_match; simplify_eq/=;
        rewrite ?LettersFacts.wrap_char_small by (unfold bounds in *; simpl in *; lia);
        try pot.
Qed.

Lemma blocks_run_bounded sch s s' :
  Inv s → run sch s = Some s' → (length sch + potential s' ≤ potential s)%nat.
Proof.
  revert s. induction sch as [|a sch IH]; intros s HI; simpl.
  - intros [= <-]. lia.
  - destruct (exec a s) as [s1|] eqn:Ha; [|done]. intros Hrun.
    pose proof (blocks_exec_potential _ _ _ HI Ha).
    pose proof (blocks_exec_inv _ _ _ HI Ha) as HI1.
    specialize (IH _ HI1 Hrun). lia.
Qed.

Lemma blocks_enabled_or_returned s :
  Inv s → (∃ rc, mpc s = M_return rc) ∨ ∃ a, is_Some (exec a s).
Proof.
  intros HI. open_inv HI s.
  unfold main_ok in inv_main0; simpl in inv_main0.
  destruct mp as [| | | |[|[|?]]|[|[|?]]| | | |?]; try done.
  all: try by enabled Main.
  all: try by (left; eauto).
  - destruct inv_holder0 as [->|[->| ->]].
    + destruct l0; try (by destruct inv_mutex2 as [H _]; specialize (H eq_refl));
        try (by destruct_and?); try (by enabled (Run 0%nat)); try (by enabled Main).
    + destruct l0; try (by destruct inv_mutex2 as [_ H]; specialize (H eq_refl));
        by enabled (Run 0%nat).
    + destruct l1; try (by destruct inv_mutex3 as [_ H]; specialize (H eq_refl));
        by enabled (Run 1%nat).
  - destruct inv_main0 as (-> & Hl1 & _).
    destruct inv_holder0 as [->|[->| ->]].
    + destruct l1; try (by destruct inv_mutex3 as [H _]; specialize (H eq_refl));
        try done; try (by enabled (Run 1%nat)); try (by enabled Main).
    + by destruct inv_mutex2 as [_ H]; specialize (H eq_refl).
    + destruct l1; try (by destruct inv_mutex3 as [_ H]; specialize (H eq_refl));
        by enabled (Run 1%nat).
Qed.

End Facts.

Lemma blocks_in_order_run e old i j :
  fopen_ok e = true → mutex_init_rc e = 0 →
  (i = 0 ∧ j = 1 ∨ i = 1 ∧ j = 0)%nat →
  ∃ s, run e (in_order i j) (init old) = Some s ∧ mpc s = M_return 0 ∧
       file s = block i 26 ++ block j 26.
Proof.
  destruct e as [f m c]. simpl. intros -> -> [[-> ->]|[-> ->]].
  - eexists. split; [by vm_compute|]. split; [done|]. by vm_compute.
  - eexists. split; [by vm_compute|]. split; [done|]. by vm_compute.
Qed.

Lemma blocks_demo_caps_reachable :
  reachable demo_env [120; 121; 122] demo_caps_first.
Proof.
  apply (blocks_run_reachable _ _ (in_order 0 1) (init [120; 121; 122]));
    [constructor|by vm_compute].
Qed.

Lemma blocks_demo_smalls_reachable :
  reachable demo_env [120; 121; 122] demo_smalls_first.
Proof.
  apply (blocks_run_reachable _ _ (in_order 1 0) (init [120; 121; 122]));
    [constructor|by vm_compute].
Qed.

(** X4. In 11_ABCDabcdWiteFile.c each thread holds the mutex around its whole
    loop, so output.txt never mixes the two alphabets: once [fopen] has
    succeeded the file is an initial part of one alphabet, or one complete
    alphabet followed by an initial part of the other; when main returns 0
    it is A..Za..z or a..zA..Z. When [fopen] fails the file keeps its old
    content. *)
Theorem blocks_never_interleave e old s :
  reachable e old s →
  (fopen_ok e = false → file s = old) ∧
  (fopen_ok e = true → mpc s ≠ M_fopen →
     ∃ p0 p1, (p0 ≤ 26)%nat ∧ (p1 ≤ 26)%nat ∧
       ((file s = block 0 p0 ++ block 1 p1 ∧ (p1 = 0 ∨ p0 = 26)%nat) ∨
        (file s = block 1 p1 ++ block 0 p0 ∧ (p0 = 0 ∨ p1 = 26)%nat))) ∧
  (mpc s = M_return 0 →
     file s = seqZ 65 26 ++ seqZ 97 26 ∨ file s = seqZ 97 26 ++ seqZ 65 26).
Proof.
  intros HI%blocks_reachable_inv. open_inv HI s. split_and!.
  - intros Hf. unfold main_ok in inv_main0; simpl in inv_main0.
    destruct mp as [| | | |[|[|?]]|[|[|?]]| | | |?]; try done;
      destruct_or?; destruct_and?; congruence.
  - intros Hf Hm. specialize (inv_file0 Hf Hm).
    eexists _, _. split_and!; [| |exact inv_file0].
    + unfold flushed, bounds in *. destruct l0; simpl in *; lia.
    + unfold flushed, bounds in *. destruct l1; simpl in *; lia.
  - intros ->. unfold main_ok in inv_main0; simpl in inv_main0.
    destruct inv_main0 as [?|[?|?]]; destruct_and?; simplify_eq.
    specialize (inv_file0 ltac:(done) ltac:(done)).
    unfold flushed, bounds in *; simpl in *.
    replace (Z.to_nat (c0 - 65)) with 26%nat in inv_file0 by lia.
    replace (Z.to_nat (c1 - 97)) with 26%nat in inv_file0 by lia.
    destruct inv_file0 as [[-> _]|[-> _]]; [by left|by right].
Qed.

Lemma blocks_never_interleave_witness :
  file demo_caps_first = seqZ 65 26 ++ seqZ 97 26
  ∨ file demo_caps_first = seqZ 97 26 ++ seqZ 65 26.
Proof.
  apply (blocks_never_interleave demo_env [120; 121; 122] demo_caps_first
           blocks_demo_caps_reachable).
  reflexivity.
Defined.

(** X5. Which alphabet comes first in output.txt is not decided by the
    program of 11_ABCDabcdWiteFile.c: with both library calls succeeding,
    there is a complete run that leaves A..Za..z and one that leaves
    a..zA..Z, whichever thread gets the mutex first. *)
Theorem blocks_order_not_fixed e old :
  fopen_ok e = true → mutex_init_rc e = 0 →
  (∃ s, reachable e old s ∧ mpc s = M_return 0 ∧
        file s = seqZ 65 26 ++ seqZ 97 26) ∧
  (∃ s, reachable e old s ∧ mpc s = M_return 0 ∧
        file s = seqZ 97 26 ++ seqZ 65 26).
Proof.
  intros Hf Hm. split.
  - destruct (blocks_in_order_run e old 0 1 Hf Hm) as (s & Hr & Hs & Hfile); [lia|].
    exists s. split_and!; [|done|done].
    eapply blocks_run_reachable; [constructor|exact Hr].
  - destruct (blocks_in_order_run e old 1 0 Hf Hm) as (s & Hr & Hs & Hfile); [lia|].
    exists s. split_and!; [|done|done].
    eapply blocks_run_reachable; [constructor|exact Hr].
Qed.

Lemma blocks_order_not_fixed_witness :
  (∃ s, reachable demo_env [] s ∧ mpc s = M_return 0 ∧
        file s = seqZ 65 26 ++ seqZ 97 26) ∧
  (∃ s, reachable demo_env [] s ∧ mpc s = M_return 0 ∧
        file s = seqZ 97 26 ++ seqZ 65 26).
Proof.
  apply (blocks_order_not_fixed demo_env []); reflexivity.
Defined.

(** X6. 11_ABCDabcdWiteFile.c terminates under every schedule: from a
    reachable state no schedule is longer than [potential], and a schedule
    that cannot be continued has brought main to its return. The library
    calls main has made by then, and its return code, are those of
    [Startup.main11]. *)
Theorem blocks_terminate e old s :
  reachable e old s →
  (∀ sch s', run e sch s = Some s' →
     (length sch ≤ potential s)%nat ∧
     ((∀ a, exec e a s' = None) → ∃ rc, mpc s' = M_return rc)) ∧
  (∀ rc, mpc s = M_return rc → (calls s, rc) = main11 e).
Proof.
  intros HI%blocks_reachable_inv. split.
  - intros sch s' Hrun. split.
    + pose proof (blocks_run_bounded e old sch s s' HI Hrun). lia.
    + intros Hstuck.
      destruct (blocks_enabled_or_returned e old s' (blocks_run_inv e old _ _ _ HI Hrun))
        as [?|(a & [s2 Ha])]; [done|].
      rewrite (Hstuck a) in Ha. done.
  - intros rc Hrc. open_inv HI s.
    unfold main_ok in inv_main0; simpl in inv_main0.
    destruct inv_main0 as [?|[?|?]]; destruct_and?; simplify_eq; unfold main11.
    + by destruct (fopen_ok e).
    + destruct (fopen_ok e); [|done]. simpl.
      by destruct (Z.eqb_spec (mutex_init_rc e) 0).
    + destruct (fopen_ok e); [|done]. simpl.
      by destruct (Z.eqb_spec (mutex_init_rc e) 0).
Qed.

Lemma blocks_terminate_witness :
  (calls demo_smalls_first, 0) = main11 demo_env.
Proof.
  apply (blocks_terminate demo_env [120; 121; 122] demo_smalls_first
           blocks_demo_smalls_reachable).
  reflexivity.
Defined.

(** X7. 11_ABCDabcdWiteFile.c uses its stream and its mutex only while
    they are valid: no thread writes to [fp] after [fclose] or locks the
    mutex after [pthread_mutex_destroy], the mutex is not destroyed while
    locked, and at most one thread is between lock and unlock. When main
    returns 0 the stream is closed with nothing left in its buffer; when it
    returns 1 because [pthread_mutex_init] failed, the stream opened by
    [fopen] has not been closed. *)
Theorem blocks_no_use_after_close e old s :
  reachable e old s →
  fault s = false ∧
  (∀ i t, threads s !! i = Some t → pc t ≠ K_unborn → pc t ≠ K_done →
     fp s = true ∧ live s = true) ∧
  (∀ i j ti tj, threads s !! i = Some ti → threads s !! j = Some tj →
     crit (pc ti) = true → crit (pc tj) = true → i = j) ∧
  (lock s = None → buffer s = []) ∧
  (mpc s = M_return 0 →
     fp s = false ∧ live s = false ∧ lock s = None ∧ buffer s = []) ∧
  (mpc s = M_return 1 → fopen_ok e = true → fp s = true ∧ C_fclose ∉ calls s).
Proof.
  intros HI%blocks_reachable_inv. open_inv HI s. split_and!.
  - done.
  - unfold main_ok in inv_main0; simpl in inv_main0.
    intros [|[|i]] t Ht Hu Hd; simplify_eq/=.
    + destruct mp as [| | | |[|[|?]]|[|[|?]]| | | |?]; try done;
        destruct_or?; destruct_and?; simplify_eq/=; done.
    + destruct mp as [| | | |[|[|?]]|[|[|?]]| | | |?]; try done;
        destruct_or?; destruct_and?; simplify_eq/=; done.
  - intros [|[|i]] [|[|j]] ti tj Hi Hj Hci Hcj; simplify_eq/=; try done.
    + apply inv_mutex2 in Hci. apply inv_mutex3 in Hcj. congruence.
    + apply inv_mutex3 in Hci. apply inv_mutex2 in Hcj. congruence.
  - intros ->. destruct l0, l1; simpl in *; try done;
      try (by destruct inv_mutex2 as [H _]; specialize (H eq_refl));
      try (by destruct inv_mutex3 as [H _]; specialize (H eq_refl)).
  - intros ->. unfold main_ok in inv_main0; simpl in inv_main0.
    destruct inv_main0 as [?|[?|?]]; destruct_and?; simplify_eq/=.
    split_and!; try done.
    destruct inv_holder0 as [->|[->| ->]]; [done|..].
    + by destruct inv_mutex2 as [_ H]; specialize (H eq_refl).
    + by destruct inv_mutex3 as [_ H]; specialize (H eq_refl).
  - intros -> Hf. unfold main_ok in inv_main0; simpl in inv_main0.
    destruct inv_main0 as [?|[?|?]]; destruct_and?; simplify_eq/=; [congruence|].
    split; [done|]. rewrite !elem_of_cons, elem_of_nil. intros [?|[?|[?|[]]]]; done.
Qed.

Lemma blocks_no_use_after_close_witness :
  fp demo_caps_first = false ∧ live demo_caps_first = false ∧
  lock demo_caps_first = None ∧ buffer demo_caps_first = [].
Proof.
  apply (blocks_no_use_after_close demo_env [120; 121; 122] demo_caps_first
           blocks_demo_caps_reachable).
  reflexivity.
Defined.

End BlocksFacts.

(** ** No lost wake-up in the condition-variable program *)

Module WakeUps.
Import CV CVSafety TurnTaking.

(** X11. No wake-up is lost in 09_Print_Odd_even.c: the two threads are
    never both blocked in [pthread_cond_wait]; whenever the mutex is free,
    a blocked thread is one that does not own the turn, and [counter] has
    not passed MAX; so once [counter] is past MAX and the mutex is free,
    nobody is blocked. *)
Theorem cv_no_lost_wakeup limit s :
  0 ≤ limit < INT_MAX → reachable 2 limit Signal s →
  ¬ (pcs s !! 0%nat = Some L_wait ∧ pcs s !! 1%nat = Some L_wait) ∧
  (∀ w, pcs s !! w = Some L_wait → lock s = None →
     owner s ≠ w ∧ counter s ≤ limit) ∧
  (limit < counter s → lock s = None → ∀ w, pcs s !! w ≠ Some L_wait).
Proof.
  intros Hlim Hs.
  assert (0 < 2)%nat as HN by lia.
  pose proof (reachable_inv 2 limit Signal HN Hlim s Hs) as HI.
  pose proof (reachable_live 2 limit Signal HN Hlim (or_intror eq_refl) s Hs) as HL.
  assert (∀ w, pcs s !! w = Some L_wait → lock s = None →
               owner s ≠ w ∧ counter s ≤ limit) as Hfree.
  { intros w Hw Hlock. unfold Live in HL. rewrite (hloc_free s Hlock) in HL.
    by apply HL. }
  split_and!.
  - intros [H0 H1].
    assert (lock s = None) as Hlock.
    { destruct (lock s) as [h|] eqn:Hh; [|done].
      destruct (inv_held _ _ _ _ HI h Hh) as (l & Hl & Hc).
      destruct h as [|[|h]].
      - rewrite H0 in Hl. by simplify_eq.
      - rewrite H1 in Hl. by simplify_eq.
      - apply lookup_lt_Some in Hl. rewrite (inv_len _ _ _ _ HI) in Hl. lia. }
    pose proof (inv_owner _ _ _ _ HI) as Ho.
    destruct (Hfree 0%nat H0 Hlock) as [? _].
    destruct (Hfree 1%nat H1 Hlock) as [? _]. lia.
  - done.
  - intros Hc Hlock w Hw. destruct (Hfree w Hw Hlock). lia.
Qed.

Lemma cv_no_lost_wakeup_witness :
  owner (snd (drive 2 MAX Signal 12 (init 2))) ≠ 0%nat ∧
  counter (snd (drive 2 MAX Signal 12 (init 2))) ≤ MAX.
Proof.
  apply (proj1 (proj2 (cv_no_lost_wakeup MAX (snd (drive 2 MAX Signal 12 (init 2)))
                         MAX_range (drive_reachable 2 MAX Signal 12)))
           0%nat); reflexivity.
Defined.

End WakeUps.

(** ** The polling program: same output, counter discipline and progress *)

Module PollingProgress.
Import BS BSSafety BSProgress.

#[local] Arguments Nat.modulo : simpl never.
#[local] Arguments Nat.even : simpl never.
#[local] Arguments Z.rem : simpl never.
#[local] Arguments Z.mul : simpl never.
#[local] Arguments Z.add : simpl never.
#[local] Arguments Z.sub : simpl never.
#[local] Arguments Z.to_nat : simpl never.
#[local] Arguments Nat.mul : simpl never.

Section More.

Variable limit : Z.
Hypothesis Hlim : 0 ≤ limit < INT_MAX.

Lemma turn_parity c i :
  1 ≤ c → i = (Z.to_nat (c - 1) `mod` 2)%nat →
  (Z.rem c 2 =? 1) && truthy (is_odd i)
  || (Z.rem c 2 =? 0) && negb (truthy (is_odd i)) = true.
Proof.
  intros Hc ->.
  rewrite Z.rem_mod_nonneg by lia.
  assert (Z.of_nat (Z.to_nat (c - 1) `mod` 2) = (c - 1) `mod` 2) as Hz
    by (rewrite Nat2Z.inj_mod; f_equal; lia).
  assert (c `mod` 2 = ((c - 1) `mod` 2 + 1) `mod` 2) as Hs.
  { rewrite Zplus_mod_idemp_l. f_equal. lia. }
  pose proof (Nat.mod_upper_bound (Z.to_nat (c - 1)) 2 ltac:(lia)) as Hb.
  destruct (Z.to_nat (c - 1) `mod` 2)%nat as [|[|m]]; [| |lia]; simpl.
  - rewrite Hs, <-Hz. done.
  - rewrite Hs, <-Hz. done.
Qed.

Lemma measure_two c lk l0 l1 mp ou :
  measure limit (mkState c lk [l0; l1] mp ou)
  = (14 * Z.to_nat (limit + 1 - c)
     + (weight limit c 0 l0 + weight limit c 1 l1) + mweight mp)%nat.
Proof. unfold measure. simpl. lia. Qed.

Lemma weight_lock_le c i : (weight limit c i B_lock ≤ 7)%nat.
Proof. unfold weight. destruct (idles limit c i); lia. Qed.

Lemma weight_unlock_le c i : (weight limit c i B_unlock ≤ 8)%nat.
Proof. unfold weight. destruct (idles limit c i); lia. Qed.

Lemma idles_past c i : limit < c → idles limit c i = false.
Proof. intros Hc. unfold idles. destruct (Z.leb_spec c limit); [lia|done]. Qed.

Lemma idles_turn c : idles limit c (Z.to_nat (c - 1) `mod` 2) = false.
Proof. unfold idles. rewrite Nat.eqb_refl. apply andb_false_r. Qed.

Lemma idles_test c i :
  1 ≤ c ≤ limit → (i < 2)%nat →
  idles limit c i
  = negb ((Z.rem c 2 =? 1) && truthy (is_odd i)
          || (Z.rem c 2 =? 0) && negb (truthy (is_odd i))).
Proof.
  intros Hc Hi. unfold idles.
  destruct (Z.leb_spec c limit); [|lia]. simpl. f_equal.
  destruct (Nat.eqb_spec i (Z.to_nat (c - 1) `mod` 2)) as [E|E].
  - symmetry. apply turn_parity; [lia|done].
  - destruct (_ || _) eqn:Ht; [|done].
    apply parity_turn in Ht; [done|lia|done].
Qed.

Ltac step_with a :=
  right; exists a; simpl; unfold thread_step, main_step; simpl.

Ltac new_state :=
  unfold set_pc, set_lock, set_counter, set_mpc, emit;
  cbn [counter lock pcs mpc out insert list_insert].

Ltac measure_lt :=
  new_state; rewrite !measure_two; unfold weight, mweight;
  repeat match goal with
  | H : idles _ _ _ = _ |- _ => rewrite H
  end; simpl; try lia.

Lemma bs_progress s :
  Inv limit s →
  final s ∨ ∃ a s', exec limit a s = Some s' ∧ (measure limit s' < measure limit s)%nat.
Proof.
  intros HI.
  pose proof (inv_len _ _ HI) as Hlen.
  pose proof (inv_range _ _ HI) as Hrange.
  pose proof (inv_main _ _ HI) as Hmain.
  pose proof (inv_phase _ _ HI) as Hph.
  pose proof (inv_crit _ _ HI) as Hcrit.
  pose proof (inv_held _ _ HI) as Hheld.
  pose proof (inv_done _ _ HI) as Hdone.
  destruct s as [c lk ps mp ou]; simpl in *.
  destruct ps as [|l0 [|l1 [|? ?]]]; simplify_eq/=.
  destruct lk as [h|].
  - destruct (Hheld h eq_refl) as (l & Hl & Hc).
    unfold phase, hloc in Hph; simpl in Hph. rewrite Hl in Hph. simpl in Hph.
    destruct h as [|[|h]]; simplify_eq/=.
    + assert (crit l1 = false) as Hc1.
      { destruct (crit l1) eqn:E; [|done]. by specialize (Hcrit 1%nat l1 eq_refl E). }
      step_with (Run 0%nat).
      destruct l; try done.
      * destruct (Z.ltb_spec limit c); eexists; (split; [done|]).
        -- measure_lt. rewrite !idles_past by done. lia.
        -- measure_lt. destruct (idles limit c 0); lia.
      * destruct Hph as [Hle _].
        pose proof (idles_test c 0 ltac:(lia) ltac:(lia)) as Ht.
        destruct (idles limit c 0) eqn:Hid; symmetry in Ht;
          [apply negb_true_iff in Ht|apply negb_false_iff in Ht];
          simpl in Ht; rewrite Ht; eexists; (split; [done|]).
        -- measure_lt.
        -- measure_lt.
      * eexists; (split; [done|]). measure_lt.
      * destruct Hph as (_ & Hle & _).
        rewrite wrap_int_small by (unfold INT_MAX in *; lia).
        eexists; (split; [done|]). new_state. rewrite !measure_two.
        pose proof (weight_unlock_le (c + 1) 0).
        assert (weight limit (c + 1) 1 l1 ≤ weight limit c 1 l1 + 7)%nat.
        { destruct l1; try done; unfold weight;
            repeat destruct (idles _ _ _); lia. }
        change (weight limit c 0 B_incr) with 3%nat. lia.
      * eexists; (split; [done|]). measure_lt. destruct (idles limit c 0); lia.
    + assert (crit l0 = false) as Hc0.
      { destruct (crit l0) eqn:E; [|done]. by specialize (Hcrit 0%nat l0 eq_refl E). }
      step_with (Run 1%nat).
      destruct l; try done.
      * destruct (Z.ltb_spec limit c); eexists; (split; [done|]).
        -- measure_lt. rewrite !idles_past by done. lia.
        -- measure_lt. destruct (idles limit c 1); lia.
      * destruct Hph as [Hle _].
        pose proof (idles_test c 1 ltac:(lia) ltac:(lia)) as Ht.
        destruct (idles limit c 1) eqn:Hid; symmetry in Ht;
          [apply negb_true_iff in Ht|apply negb_false_iff in Ht];
          simpl in Ht; rewrite Ht; eexists; (split; [done|]).
        -- measure_lt.
        -- measure_lt.
      * eexists; (split; [done|]). measure_lt.
      * destruct Hph as (_ & Hle & _).
        rewrite wrap_int_small by (unfold INT_MAX in *; lia).
        eexists; (split; [done|]). new_state. rewrite !measure_two.
        pose proof (weight_unlock_le (c + 1) 1).
        assert (weight limit (c + 1) 0 l0 ≤ weight limit c 0 l0 + 7)%nat.
        { destruct l0; try done; unfold weight;
            repeat destruct (idles _ _ _); lia. }
        change (weight limit c 1 B_incr) with 3%nat. lia.
      * eexists; (split; [done|]). measure_lt. destruct (idles limit c 1); lia.
  - assert (crit l0 = false) as Hc0.
    { destruct (crit l0) eqn:E; [|done]. by specialize (Hcrit 0%nat l0 eq_refl E). }
    assert (crit l1 = false) as Hc1.
    { destruct (crit l1) eqn:E; [|done]. by specialize (Hcrit 1%nat l1 eq_refl E). }
    unfold main_ok in Hmain; simpl in Hmain.
    destruct mp as [k|k|].
    + destruct Hmain as [Hk Hmain]. step_with Main.
      destruct (decide (k < 2)%nat); [|lia].
      destruct k as [|[|k]]; [| |lia]; simpl.
      * pose proof (proj2 (Hmain 0%nat l0 eq_refl) ltac:(lia)) as ->.
        eexists; (split; [done|]). new_state. rewrite !measure_two.
        pose proof (weight_lock_le c 0). change (weight limit c 0 B_unborn) with 9%nat.
        unfold mweight. lia.
      * pose proof (proj2 (Hmain 1%nat l1 eq_refl) ltac:(lia)) as ->.
        eexists; (split; [done|]). new_state. rewrite !measure_two.
        pose proof (weight_lock_le c 1). change (weight limit c 1 B_unborn) with 9%nat.
        unfold mweight. lia.
    + destruct Hmain as (Hk & Hnu & Hdn).
      pose proof (Hnu 0%nat) as Hn0. pose proof (Hnu 1%nat) as Hn1. simpl in Hn0, Hn1.
      destruct (Z.leb_spec c limit) as [Hle|Hgt].
      * assert (l0 = B_lock) as ->.
        { destruct l0; try done. specialize (Hdone 0%nat eq_refl). lia. }
        assert (l1 = B_lock) as ->.
        { destruct l1; try done. specialize (Hdone 1%nat eq_refl). lia. }
        pose proof (idles_turn c) as Hturn.
        pose proof (Nat.mod_upper_bound (Z.to_nat (c - 1)) 2 ltac:(lia)) as Hb.
        destruct (Z.to_nat (c - 1) `mod` 2)%nat as [|[|m]]; [| |lia].
        -- step_with (Run 0%nat). eexists; (split; [done|]). measure_lt.
        -- step_with (Run 1%nat). eexists; (split; [done|]). measure_lt.
      * destruct l0; try done.
        { step_with (Run 0%nat). eexists; (split; [done|]).
          measure_lt. rewrite !idles_past by done. lia. }
        destruct l1; try done.
        { step_with (Run 1%nat). eexists; (split; [done|]).
          measure_lt. rewrite !idles_past by done. lia. }
        step_with Main. destruct k as [|[|k]]; [| |lia]; simpl.
        -- eexists; (split; [done|]). measure_lt.
        -- eexists; (split; [done|]). measure_lt.
    + left. split; [done|]. exact Hmain.
Qed.

Lemma bs_run_to_final s :
  Inv limit s →
  ∃ sch s', run limit sch s = Some s' ∧ final s' ∧
            (length sch ≤ measure limit s)%nat.
Proof.
  remember (measure limit s) as n eqn:Hn. revert s Hn.
  induction (lt_wf n) as [n _ IH]. intros s -> HI.
  destruct (bs_progress s HI) as [Hf|(a & s1 & Ha & Hlt)].
  - exists [], s. split_and!; [done|done|simpl; lia].
  - destruct (IH (measure limit s1) Hlt s1 eq_refl) as (sch & s' & Hrun & Hf & Hlen).
    + by eapply bs_exec_inv.
    + exists (a :: sch), s'. split_and!; [|done|simpl; lia].
      simpl. by rewrite Ha.
Qed.

Lemma turn_odd c i :
  1 ≤ c → i = (Z.to_nat (c - 1) `mod` 2)%nat → truthy (is_odd i) = Z.odd c.
Proof.
  intros Hc ->.
  assert (Z.of_nat (Z.to_nat (c - 1) `mod` 2) = (c - 1) `mod` 2) as Hz
    by (rewrite Nat2Z.inj_mod; f_equal; lia).
  pose proof (Nat.mod_upper_bound (Z.to_nat (c - 1)) 2 ltac:(lia)) as Hb.
  replace c with (c - 1 + 1) at 2 by lia.
  rewrite Z.odd_add, Zodd_mod.
  destruct (Z.to_nat (c - 1) `mod` 2)%nat as [|[|m]]; [| |lia]; simpl.
  - by rewrite <-Hz.
  - by rewrite <-Hz.
Qed.

Lemma bs_printer_has_parity s i l :
  Inv limit s → pcs s !! i = Some l → l = B_print ∨ l = B_incr →
  counter s ≤ limit ∧ truthy (is_odd i) = Z.odd (counter s).
Proof.
  intros HI Hi Hl.
  assert (lock s = Some i) as Hm.
  { apply (inv_crit _ _ HI i l Hi). by destruct Hl as [-> | ->]. }
  pose proof (inv_phase _ _ HI) as Hph. unfold phase in Hph.
  rewrite (bs_hloc_at _ _ _ Hm Hi) in Hph.
  pose proof (inv_range _ _ HI).
  assert (lock s = Some (turn_of s) ∧ counter s ≤ limit) as [Ht Hle]
    by (destruct Hl as [-> | ->]; tauto).
  split; [done|]. apply turn_odd; [lia|].
  unfold turn_of, done_steps in Ht. congruence.
Qed.

Lemma bs_exec_counter a s s' :
  Inv limit s → exec limit a s = Some s' →
  counter s' = counter s ∨
  (counter s' = counter s + 1 ∧ ∃ i, a = Run i ∧ pcs s !! i = Some B_incr).
Proof.
  intros HI Ha. destruct a as [|i]; simpl in Ha.
  - left. unfold main_step in Ha. repeat case_match; by simplify_eq/=.
  - unfold thread_step in Ha.
    destruct (pcs s !! i) as [l|] eqn:Hi; [|done].
    destruct l; try done; try (left; repeat case_match; by simplify_eq/=).
    right. simplify_eq/=.
    destruct (bs_printer_has_parity s i B_incr HI Hi) as [Hle _]; [by right|].
    pose proof (inv_range _ _ HI).
    rewrite wrap_int_small by (unfold INT_MAX in *; lia). eauto.
Qed.

Lemma bs_final_counter s : Inv limit s → final s → counter s = limit + 1 ∧ lock s = None.
Proof.
  intros HI [_ Hf]. split.
  - pose proof (inv_done _ _ HI _ (Hf 0%nat ltac:(lia))).
    pose proof (inv_range _ _ HI). lia.
  - destruct (lock s) as [h|] eqn:Hm; [|done].
    destruct (inv_held _ _ HI _ Hm) as (l & Hl & Hc).
    assert (h < 2)%nat as Hh.
    { apply lookup_lt_Some in Hl. by rewrite (inv_len _ _ HI) in Hl. }
    rewrite (Hf _ Hh) in Hl. by simplify_eq.
Qed.

End More.

Lemma expected_lines_prefix n m :
  (n ≤ m)%nat → expected_lines n `prefix_of` expected_lines m.
Proof.
  intros Hnm. unfold expected_lines.
  replace m with (n + (m - n))%nat by lia.
  rewrite seq_app, fmap_app. apply prefix_app_r. done.
Qed.

Lemma out_of_turn_reachable : reachable MAX out_of_turn.
Proof.
  apply (bs_run_reachable MAX [Main; Main; Run 1%nat; Run 1%nat] (init));
    [constructor|by vm_compute].
Qed.

(** C10. The polling program and the condition-variable program print the
    same lines in every execution. A list of lines is the output of some
    reachable state of one exactly when it is of the other, and these lists
    are the initial parts of 1 .. MAX with the label of each number's
    parity; every complete run of either prints all of 1 .. MAX, and the
    polling program has a complete run. Whatever the polling program has
    done so far, threads polling out of turn included, the execution can be
    completed: from every reachable state there is a run of at most
    [measure] statements to the state where both threads have returned and
    main has joined them, and it prints the lines still missing, so that
    the output is all of 1 .. MAX. A thread whose parity test (l.20) fails
    prints nothing and leaves [counter] as it is: its next statement is the
    unlock of l.25, after which the mutex is free and the thread is back at
    its lock. *)
Theorem polling_prints_the_same limit :
  0 ≤ limit < INT_MAX →
  (∀ l, (∃ s, BS.reachable limit s ∧ BS.out s = l) ↔
        (∃ s, CV.reachable 2 limit CV.Signal s ∧ cv_line <$> CV.out s = l)) ∧
  (∀ sb sc,
     BS.reachable limit sb → BS.final sb →
     CV.reachable 2 limit CV.Signal sc → CV.final 2 sc →
     BS.out sb = cv_line <$> CV.out sc ∧
     BS.out sb = expected_lines (Z.to_nat limit)) ∧
  (∃ sb, BS.reachable limit sb ∧ BS.final sb) ∧
  (∀ sb t v, BS.reachable limit sb → (t, v) ∈ BS.out sb →
     1 ≤ v ≤ limit ∧ (t = if Z.odd v then Odd else Even)) ∧
  (limit = MAX → ∀ sb, BS.reachable limit sb → BS.final sb →
     snd <$> BS.out sb = seqZ 1 100) ∧
  (∀ sb, BS.reachable limit sb →
     ∃ sch sf, BS.run limit sch sb = Some sf ∧ BS.final sf ∧
               (length sch ≤ BSProgress.measure limit sb)%nat ∧
               BS.out sb `prefix_of` BS.out sf ∧
               BS.out sf = expected_lines (Z.to_nat limit) ∧
               ∀ sc, CV.reachable 2 limit CV.Signal sc → CV.final 2 sc →
                     BS.out sf = cv_line <$> CV.out sc) ∧
  (∀ sb i, BS.reachable limit sb → BS.pcs sb !! i = Some BS.B_parity →
     (Z.rem (BS.counter sb) 2 =? 1) && BS.truthy (BS.is_odd i)
     || (Z.rem (BS.counter sb) 2 =? 0) && negb (BS.truthy (BS.is_odd i)) = false →
     ∃ s1 s2, BS.exec limit (BS.Run i) sb = Some s1 ∧
              BS.exec limit (BS.Run i) s1 = Some s2 ∧
              BS.pcs s1 !! i = Some BS.B_unlock ∧
              BS.pcs s2 !! i = Some BS.B_lock ∧ BS.lock s2 = None ∧
              BS.counter s2 = BS.counter sb ∧ BS.out s2 = BS.out sb).
Proof.
  intros Hlim.
  assert (0 < 2)%nat as HN by lia.
  split_and!.
  - intros l. split.
    + intros (s & Hs & <-).
      destruct (bs_reachable_out limit Hlim s Hs) as (n & Hn & ->).
      by apply Polling.cv_prefix_reachable.
    + intros (s & Hs & <-).
      destruct (CVSafety.reachable_out 2 limit CV.Signal HN Hlim s Hs) as (n & Hn & ->).
      exists (BS.idle n). split; [apply idle_reachable; [done|lia]|].
      by rewrite Polling.cv_line_round_robin.
  - intros sb sc Hsb Hfb Hsc Hfc.
    rewrite (bs_final_out limit Hlim sb Hsb Hfb).
    rewrite (CVSafety.final_out 2 limit CV.Signal HN Hlim sc Hsc Hfc).
    by rewrite Polling.cv_line_round_robin.
  - destruct (closing_final limit) as (s & Hrun & Hf).
    exists s. split; [|done].
    eapply bs_run_reachable; [|exact Hrun].
    apply idle_reachable; [done|lia].
  - intros sb t v Hsb Hin.
    destruct (bs_reachable_out limit Hlim sb Hsb) as (n & Hn & Hout).
    rewrite Hout in Hin. unfold expected_lines in Hin.
    apply list_elem_of_fmap in Hin as (k & Heq & Hk).
    injection Heq as -> ->.
    apply elem_of_seq in Hk. split; [lia|].
    replace (Z.of_nat k + 1) with (Z.succ (Z.of_nat k)) by lia.
    rewrite Z.odd_succ.
    assert (Z.even (Z.of_nat k) = Nat.even k) as ->; [|done].
    destruct (Nat.even k) eqn:E.
    + apply Nat.even_spec in E as [m ->].
      by rewrite Nat2Z.inj_mul, Z.even_mul.
    + assert (Nat.odd k = true) as [m ->]%Nat.odd_spec
        by (by rewrite <-Nat.negb_even, E).
      by rewrite Nat2Z.inj_add, Nat2Z.inj_mul, Z.add_comm, Z.even_add_mul_2.
  - intros -> sb Hsb Hfb.
    rewrite (bs_final_out MAX Hlim sb Hsb Hfb). by vm_compute.
  - intros sb Hsb.
    pose proof (bs_reachable_inv limit Hlim sb Hsb) as HI.
    destruct (bs_run_to_final limit Hlim sb HI) as (sch & sf & Hrun & Hf & Hlen).
    assert (BS.reachable limit sf) as Hsf by (by eapply bs_run_reachable).
    pose proof (bs_final_out limit Hlim sf Hsf Hf) as Hout.
    exists sch, sf. split_and!; [done..| |done|].
    + destruct (bs_reachable_out limit Hlim sb Hsb) as (n & Hn & ->).
      rewrite Hout. by apply expected_lines_prefix.
    + intros sc Hsc Hfc.
      rewrite Hout, (CVSafety.final_out 2 limit CV.Signal HN Hlim sc Hsc Hfc).
      by rewrite Polling.cv_line_round_robin.
  - intros sb i Hsb Hi Htest.
    assert (i < length (BS.pcs sb))%nat as Hlt by (by eapply lookup_lt_Some).
    cbn [BS.exec]. unfold BS.thread_step at 1. rewrite Hi, Htest.
    eexists _, _. split; [done|].
    unfold BS.thread_step. cbn [BS.pcs BS.set_pc].
    rewrite list_lookup_insert_eq by done.
    split; [done|]. cbn [BS.pcs BS.set_pc BS.set_lock BS.lock BS.counter BS.out].
    rewrite !list_lookup_insert_eq by (by rewrite ?length_insert).
    done.
Qed.

Lemma polling_prints_the_same_witness :
  BS.out BS.demo = cv_line <$> CV.out (snd CV.demo) ∧
  BS.out BS.demo = expected_lines 100 ∧
  snd <$> BS.out BS.demo = seqZ 1 100 ∧
  BS.pcs out_of_turn = [BS.B_lock; BS.B_parity] ∧
  BS.lock out_of_turn = Some 1%nat ∧
  (∃ sch sf, BS.run MAX sch out_of_turn = Some sf ∧ BS.final sf ∧
             (length sch ≤ BSProgress.measure MAX out_of_turn)%nat ∧
             BS.out sf = expected_lines 100) ∧
  (∃ s1 s2, BS.exec MAX (BS.Run 1) out_of_turn = Some s1 ∧
            BS.exec MAX (BS.Run 1) s1 = Some s2 ∧
            BS.pcs s2 !! 1%nat = Some BS.B_lock ∧ BS.lock s2 = None ∧
            BS.out s2 = []).
Proof.
  destruct (polling_prints_the_same MAX TurnTaking.MAX_range)
    as (_ & Hf & _ & _ & Hm & Hrun & Hpoll).
  destruct (Hf BS.demo (snd CV.demo) Polling.bs_demo_reachable Polling.bs_demo_final
              TurnTaking.demo_reachable TurnTaking.demo_final) as [H1 H2].
  split; [exact H1|]. split; [exact H2|].
  split; [exact (Hm eq_refl BS.demo Polling.bs_demo_reachable Polling.bs_demo_final)|].
  split; [reflexivity|]. split; [reflexivity|]. split.
  - destruct (Hrun out_of_turn out_of_turn_reachable)
      as (sch & sf & Hr & Hfin & Hlen & _ & Hout & _).
    exists sch, sf. split; [exact Hr|]. split; [exact Hfin|].
    split; [exact Hlen|exact Hout].
  - destruct (Hpoll out_of_turn 1%nat out_of_turn_reachable eq_refl eq_refl)
      as (s1 & s2 & E1 & E2 & _ & Hp & Hl & _ & Ho).
    exists s1, s2. split; [exact E1|]. split; [exact E2|].
    split; [exact Hp|]. split; [exact Hl|exact Ho].
Defined.

(** X12. In 10_Print_Odd_even.c at most one thread is between
    [pthread_mutex_lock] and [pthread_mutex_unlock]; [counter] stays
    between 1 and MAX + 1 and moves only by the [counter++] of l.22, one at
    a time; a thread is at its [printf] or its [counter++] only while
    [counter] is at most MAX and has the parity of the thread; and when
    both threads have returned [counter] is MAX + 1 and the mutex is free. *)
Theorem polling_counter_discipline limit s :
  0 ≤ limit < INT_MAX → reachable limit s →
  (∀ i j li lj, pcs s !! i = Some li → pcs s !! j = Some lj →
     crit li = true → crit lj = true → i = j) ∧
  1 ≤ counter s ≤ limit + 1 ∧
  (∀ i l, pcs s !! i = Some l → l = B_print ∨ l = B_incr →
     counter s ≤ limit ∧ truthy (is_odd i) = Z.odd (counter s)) ∧
  (∀ a s', exec limit a s = Some s' →
     counter s' = counter s ∨
     (counter s' = counter s + 1 ∧ ∃ i, a = Run i ∧ pcs s !! i = Some B_incr)) ∧
  (final s → counter s = limit + 1 ∧ lock s = None).
Proof.
  intros Hlim Hs. pose proof (bs_reachable_inv limit Hlim s Hs) as HI.
  refine (conj _ (conj _ (conj _ (conj _ _)))).
  - intros i j li lj Hi Hj Hci Hcj.
    pose proof (inv_crit _ _ HI i li Hi Hci).
    pose proof (inv_crit _ _ HI j lj Hj Hcj). congruence.
  - apply HI.
  - intros i l. by apply bs_printer_has_parity.
  - intros a s'. by apply bs_exec_counter.
  - by apply bs_final_counter.
Qed.

Lemma polling_counter_discipline_witness :
  counter demo = MAX + 1 ∧ lock demo = None.
Proof.
  apply (polling_counter_discipline MAX demo TurnTaking.MAX_range
           Polling.bs_demo_reachable).
  exact Polling.bs_demo_final.
Defined.

(** X13. 10_Print_Odd_even.c never deadlocks: in every reachable state
    either both threads have returned and main has joined them, or some
    statement can run; and from every reachable state there is a run, of at
    most [measure] statements, that ends with both threads returned and
    joined. *)
Theorem polling_never_stuck limit s :
  0 ≤ limit < INT_MAX → reachable limit s →
  (final s ∨ ∃ a s', exec limit a s = Some s') ∧
  (∃ sch s', run limit sch s = Some s' ∧ final s' ∧
             (length sch ≤ measure limit s)%nat).
Proof.
  intros Hlim Hs. pose proof (bs_reachable_inv limit Hlim s Hs) as HI.
  split.
  - destruct (bs_progress limit Hlim s HI) as [?|(a & s' & Ha & _)]; eauto.
  - by apply bs_run_to_final.
Qed.

Lemma polling_never_stuck_witness :
  ∃ sch s', run MAX sch (idle 41) = Some s' ∧ final s' ∧
            (length sch ≤ measure MAX (idle 41))%nat.
Proof.
  apply (polling_never_stuck MAX (idle 41) TurnTaking.MAX_range).
  apply (idle_reachable MAX TurnTaking.MAX_range). vm_compute. discriminate.
Defined.

End PollingProgress.

(** ** The LED follows the switch *)

Module GpioFacts.
Import Gpio.

Lemma u32_bits z k : u32 z → 32 ≤ k → Z.testbit z k = false.
Proof.
  intros [Hz0 Hz] Hk. destruct (decide (z = 0)) as [->|Hne].
  - apply Z.bits_0.
  - apply Z.bits_above_log2; [done|].
    assert (Z.log2 z < 32); [|lia]. apply Z.log2_lt_pow2; lia.
Qed.

Lemma to_u32_bits z k :
  0 ≤ k → Z.testbit (to_u32 z) k = bool_decide (k < 32) && Z.testbit z k.
Proof.
  intros Hk. unfold to_u32. case_bool_decide.
  - by rewrite Z.mod_pow2_bits_low by lia.
  - by rewrite Z.mod_pow2_bits_high by lia.
Qed.

Lemma to_u32_land z : to_u32 z = Z.land z (Z.ones 32).
Proof. unfold to_u32. by rewrite Z.land_ones by lia. Qed.

Lemma to_u32_u32 z : u32 (to_u32 z).
Proof. unfold u32, to_u32. apply Z.mod_pos_bound. lia. Qed.

Lemma u32_to_u32 z : u32 z → to_u32 z = z.
Proof. intros Hz. unfold to_u32. by apply Z.mod_small. Qed.

Lemma and_not_u32 r pin : u32 r → u32 (and_not r pin).
Proof.
  intros Hr. unfold and_not.
  rewrite <-(u32_to_u32 r Hr), !to_u32_land.
  rewrite <-Z.land_assoc, (Z.land_comm (Z.ones 32)), Z.land_assoc.
  rewrite <-to_u32_land. apply to_u32_u32.
Qed.

Lemma or_in_u32 r pin : u32 r → u32 (or_in r pin).
Proof.
  intros Hr. unfold or_in.
  rewrite <-(u32_to_u32 r Hr), !to_u32_land.
  rewrite <-Z.land_lor_distr_l, <-to_u32_land. apply to_u32_u32.
Qed.

Lemma and_not_bits r pin k :
  u32 r → 0 ≤ k →
  Z.testbit (and_not r pin) k = Z.testbit r k && negb (Z.testbit pin k).
Proof.
  intros Hr Hk. unfold and_not.
  rewrite Z.land_spec, to_u32_bits, Z.lnot_spec by done.
  case_bool_decide; [done|].
  rewrite (u32_bits r k) by (done || lia). done.
Qed.

Lemma or_in_bits r pin k :
  0 ≤ k < 32 → Z.testbit (or_in r pin) k = Z.testbit r k || Z.testbit pin k.
Proof.
  intros Hk. unfold or_in.
  rewrite Z.lor_spec, to_u32_bits by lia.
  case_bool_decide; [done|lia].
Qed.

Lemma or_in_high r pin k :
  u32 r → 32 ≤ k → Z.testbit (or_in r pin) k = Z.testbit r k.
Proof.
  intros Hr Hk. rewrite (u32_bits r k) by done.
  apply u32_bits; [by apply or_in_u32|done].
Qed.

Lemma pin_bits n k : 0 ≤ n → 0 ≤ k → Z.testbit (Z.shiftl 1 n) k = bool_decide (k = n).
Proof.
  intros Hn Hk. rewrite Z.shiftl_spec by done.
  case_bool_decide as E.
  - subst. by rewrite Z.sub_diag.
  - destruct (decide (k < n)).
    + apply Z.testbit_neg_r. lia.
    + apply Z.bits_above_log2; [lia|]. change (Z.log2 1) with 0. lia.
Qed.

Lemma switch_test inp :
  negb (Z.land inp (to_u32 SWITCH_PIN) =? 0) = Z.testbit inp 0.
Proof.
  change (to_u32 SWITCH_PIN) with (Z.ones 1).
  rewrite Z.land_ones, Z.bit0_odd, Zmod_odd by lia.
  by destruct (Z.odd inp).
Qed.

Lemma iteration_out inp p :
  u32 (GPIO_PORT_OUT p) →
  u32 (GPIO_PORT_OUT (iteration inp p)) ∧
  GPIO_PORT_DIR (iteration inp p) = GPIO_PORT_DIR p ∧
  Z.testbit (GPIO_PORT_OUT (iteration inp p)) 1 = Z.testbit inp 0 ∧
  ∀ k, k ≠ 1 →
    Z.testbit (GPIO_PORT_OUT (iteration inp p)) k = Z.testbit (GPIO_PORT_OUT p) k.
Proof.
  intros Hp. unfold iteration. rewrite switch_test.
  destruct (Z.testbit inp 0); cbn [negb GPIO_PORT_OUT GPIO_PORT_DIR].
  - split_and!; [by apply or_in_u32|done| |].
    + rewrite or_in_bits by lia. unfold LED_PIN. rewrite pin_bits by lia.
      apply orb_true_r.
    + intros k Hk. destruct (decide (k < 0)) as [Hn|Hn].
      { by rewrite !Z.testbit_neg_r by done. }
      destruct (decide (k < 32)).
      * rewrite or_in_bits by lia. unfold LED_PIN. rewrite pin_bits by lia.
        case_bool_decide; [lia|]. apply orb_false_r.
      * apply or_in_high; [done|lia].
  - split_and!; [by apply and_not_u32|done| |].
    + rewrite and_not_bits by (done || lia). unfold LED_PIN.
      rewrite pin_bits by lia. apply andb_false_r.
    + intros k Hk. destruct (decide (k < 0)) as [Hn|Hn].
      { by rewrite !Z.testbit_neg_r by done. }
      rewrite and_not_bits by (done || lia). unfold LED_PIN.
      rewrite pin_bits by lia. case_bool_decide; [lia|]. apply andb_true_r.
Qed.

(** X14. The set-up of 01_LED&Switch.c (l.14, l.15) clears bit 0 of the
    direction register (the switch pin is an input), sets bit 1 (the LED
    pin is an output), leaves every other bit of that register as it was,
    and does not touch the output register. *)
Theorem gpio_configure_pins p :
  u32 (GPIO_PORT_DIR p) →
  Z.testbit (GPIO_PORT_DIR (configure p)) 0 = false ∧
  Z.testbit (GPIO_PORT_DIR (configure p)) 1 = true ∧
  (∀ k, k ≠ 0 → k ≠ 1 →
     Z.testbit (GPIO_PORT_DIR (configure p)) k = Z.testbit (GPIO_PORT_DIR p) k) ∧
  u32 (GPIO_PORT_DIR (configure p)) ∧
  GPIO_PORT_OUT (configure p) = GPIO_PORT_OUT p.
Proof.
  intros Hp. unfold configure; cbn [GPIO_PORT_OUT GPIO_PORT_DIR].
  pose proof (and_not_u32 (GPIO_PORT_DIR p) SWITCH_PIN Hp) as Hp1.
  split_and!.
  - rewrite or_in_bits, and_not_bits by (done || lia).
    unfold LED_PIN, SWITCH_PIN. rewrite !pin_bits by lia.
    simpl. by rewrite andb_false_r.
  - rewrite or_in_bits by lia. unfold LED_PIN. rewrite pin_bits by lia.
    apply orb_true_r.
  - intros k Hk0 Hk1. destruct (decide (k < 0)) as [Hn|Hn].
    { by rewrite !Z.testbit_neg_r by done. }
    destruct (decide (k < 32)).
    + rewrite or_in_bits, and_not_bits by (done || lia).
      unfold LED_PIN, SWITCH_PIN. rewrite !pin_bits by lia.
      repeat case_bool_decide; try lia. simpl.
      by rewrite andb_true_r, orb_false_r.
    + rewrite or_in_high by (done || lia).
      rewrite !u32_bits by (done || lia). done.
  - by apply or_in_u32.
  - done.
Qed.

Lemma gpio_configure_pins_witness :
  Z.testbit (GPIO_PORT_DIR (configure (mkPorts 5 0))) 0 = false ∧
  Z.testbit (GPIO_PORT_DIR (configure (mkPorts 5 0))) 1 = true.
Proof.
  destruct (gpio_configure_pins (mkPorts 5 0)) as (H0 & H1 & _).
  - unfold u32; simpl; lia.
  - exact (conj H0 H1).
Defined.

Lemma main_snoc inputs inp p :
  main (inputs ++ [inp]) p = iteration inp (main inputs p).
Proof. unfold main. by rewrite foldl_app. Qed.

(** X15. In the loop of 01_LED&Switch.c the LED bit (bit 1) of the output
    register is, after every iteration, the switch bit (bit 0) that the
    iteration read from the input register; no other bit of the output
    register is ever changed, and the direction register keeps the value
    the set-up gave it. *)
Theorem gpio_led_follows_switch inputs p :
  u32 (GPIO_PORT_OUT p) →
  u32 (GPIO_PORT_OUT (main inputs p)) ∧
  GPIO_PORT_DIR (main inputs p) = GPIO_PORT_DIR (configure p) ∧
  (∀ k, k ≠ 1 →
     Z.testbit (GPIO_PORT_OUT (main inputs p)) k = Z.testbit (GPIO_PORT_OUT p) k) ∧
  (∀ inp, last inputs = Some inp →
     Z.testbit (GPIO_PORT_OUT (main inputs p)) 1 = Z.testbit inp 0).
Proof.
  intros Hp. induction inputs as [|inp inputs IH] using rev_ind.
  - split_and!; try done. 
  - destruct IH as (Hu & Hd & Hk & _).
    rewrite main_snoc.
    destruct (iteration_out inp (main inputs p) Hu) as (Hu' & Hd' & H1 & Hk').
    split_and!; [done|congruence| |].
    + intros k Hne. by rewrite Hk', Hk.
    + intros inp'. rewrite last_snoc. by intros [= <-].
Qed.

Lemma gpio_led_follows_switch_witness :
  Z.testbit (GPIO_PORT_OUT (main [0; 1; 1; 2] (mkPorts 0 4294967293))) 1 = false ∧
  Z.testbit (GPIO_PORT_OUT (main [0; 1; 1; 2; 7] (mkPorts 0 4294967293))) 1 = true.
Proof.
  assert (u32 4294967293) as Hu by (unfold u32; lia).
  split.
  - exact (proj2 (proj2 (proj2
             (gpio_led_follows_switch [0; 1; 1; 2] (mkPorts 0 4294967293) Hu)))
             2 eq_refl).
  - exact (proj2 (proj2 (proj2
             (gpio_led_follows_switch [0; 1; 1; 2; 7] (mkPorts 0 4294967293) Hu)))
             7 eq_refl).
Defined.

End GpioFacts.
